(** * dedupe: blocking-rule learner, covers, counters and the disagreement learner

  A shallow embedding of the parts of [dedupe/predicates.py],
  [dedupe/training.py] and [dedupe/labeler.py] that the properties below
  talk about.

  - Python [float]s are IEEE binary64 values: [spec_float] with the
    operations of [SpecFloat] at precision 53.
  - Python exceptions are an error monad [res].
  - A [dict] whose iteration order is observable (a [Cover], a cost map) is
    an association list in insertion order; the [Counter] multiset and the
    canopy map, of which only lookups are observed, are [gmap]s.
  - Sets of pair ids are [gset nat]. *)

From Stdlib Require Import ZArith Floats.SpecFloat Strings.String Strings.Ascii.
From Stdlib Require Import Sorting.Sorted Sorting.Permutation.
From Stdlib Require Import Structures.OrderedTypeEx.
From stdpp Require Import gmap strings list pretty sorting.

Local Open Scope Z_scope.

(* ===================================================================== *)
(** * Python exceptions *)
(* ===================================================================== *)

(** [OutOfFuel] is not a Python exception: it marks a recursion of the model
    that was cut short, and the properties show where it cannot happen. *)
Inductive exn :=
| IndexError | KeyError | AttributeError | TypeError | ValueError
| OverflowError | AxisError | OutOfFuel.

Inductive res (A : Type) :=
| Ok (a : A)
| Raise (e : exn).
Arguments Ok {A} a.
Arguments Raise {A} e.

Definition bind {A B} (m : res A) (f : A → res B) : res B :=
match m with
| Ok a => f a
| Raise e => Raise e
end.

Notation "x ←! m ; k" := (bind m (λ x, k))
(at level 20, m at level 100, k at level 200, right associativity,
 format "x  ←!  m ;  '/' k").

Definition from_option {A} (e : exn) (o : option A) : res A :=
match o with
| Some a => Ok a
| None => Raise e
end.

Fixpoint mapM {A B} (f : A → res B) (l : list A) : res (list B) :=
match l with
| [] => Ok []
| x :: l' => y ←! f x; ys ←! mapM f l'; Ok (y :: ys)
end.

(* ===================================================================== *)
(** * Python floats (IEEE binary64) *)
(* ===================================================================== *)

Module PyFloat.

Definition prec : Z := 53.
Definition emax : Z := 1024.

Abbreviation float := spec_float.

Definition add : float → float → float := SFadd prec emax.
Definition sub : float → float → float := SFsub prec emax.
Definition mul : float → float → float := SFmul prec emax.
Definition div : float → float → float := SFdiv prec emax.
Definition sqrt : float → float := SFsqrt prec emax.
Definition abs : float → float := SFabs.
Definition neg : float → float := SFopp.
Definition ltb : float → float → bool := SFltb.
Definition leb : float → float → bool := SFleb.
Definition eqb : float → float → bool := SFeqb.
(** [a > b] and [a >= b] are [b < a] and [b <= a]. *)
Definition gtb (a b : float) : bool := SFltb b a.
Definition geb (a b : float) : bool := SFleb b a.

Definition is_nan (x : float) : bool :=
  match x with S754_nan => true | _ => false end.

(** [float('inf')] *)
Definition inf : float := S754_infinity false.

(** [float(n)] for a Python int [n]: round to nearest, ties to even. *)
Definition of_int (n : Z) : float := binary_normalize prec emax n 0 false.

(** The float with value [m * 2^e], rounded; used to write literals. *)
Definition of_scaled (m e : Z) : float := binary_normalize prec emax m e false.

(** [int(x)]: truncation towards zero; [OverflowError] on an infinity and
    [ValueError] on a NaN. *)
Definition to_int (x : float) : res Z :=
  match x with
  | S754_zero _ => Ok 0
  | S754_infinity _ => Raise OverflowError
  | S754_nan => Raise ValueError
  | S754_finite s m e =>
      let a := match e with
               | Z0 => Zpos m
               | Zpos p => Zpos m * 2 ^ Zpos p
               | Zneg p => Zpos m / 2 ^ Zpos p
               end in
      Ok (if s then - a else a)
  end.

End PyFloat.

Abbreviation float := spec_float.

(* ===================================================================== *)
(** * predicates.py *)
(* ===================================================================== *)

Module Predicates.

(** The concrete predicate classes: what [type(p)] can be. *)
Inductive pytype :=
| SimplePredicate
| StringPredicate
| ExistsPredicate
| TfidfTextSearchPredicate
| TfidfSetSearchPredicate
| TfidfNGramSearchPredicate
| TfidfTextCanopyPredicate
| TfidfSetCanopyPredicate
| TfidfNGramCanopyPredicate
| LevenshteinCanopyPredicate
| LevenshteinSearchPredicate.

Global Instance pytype_eq_dec : EqDecision pytype.
Proof. solve_decision. Defined.

(** The function a [SimplePredicate] wraps: its [__name__] and the optional
    attribute [compounds_with_same_field] ([None]: the attribute is not
    set, as for most functions; [wholeFieldPredicate] and
    [wholeSetPredicate] set it to [False]). *)
Record pyfunc := {
  func_name : string;
  func_compounds_with_same_field : option bool;
}.

(** The subclasses of [IndexPredicate] that can be instantiated. *)
Inductive index_class :=
| TfidfTextSearch | TfidfSetSearch | TfidfNGramSearch
| TfidfTextCanopy | TfidfSetCanopy | TfidfNGramCanopy
| LevenshteinCanopy | LevenshteinSearch.

Inductive Predicate :=
| Simple (func : pyfunc) (field : string)
| String_ (func : pyfunc) (field : string)
| Exists_ (field : string)
| Index (c : index_class) (threshold : float) (field : string).

Definition field (p : Predicate) : string :=
  match p with
  | Simple _ f | String_ _ f | Exists_ f | Index _ _ f => f
  end.

Definition type_of (p : Predicate) : pytype :=
  match p with
  | Simple _ _ => SimplePredicate
  | String_ _ _ => StringPredicate
  | Exists_ _ => ExistsPredicate
  | Index TfidfTextSearch _ _ => TfidfTextSearchPredicate
  | Index TfidfSetSearch _ _ => TfidfSetSearchPredicate
  | Index TfidfNGramSearch _ _ => TfidfNGramSearchPredicate
  | Index TfidfTextCanopy _ _ => TfidfTextCanopyPredicate
  | Index TfidfSetCanopy _ _ => TfidfSetCanopyPredicate
  | Index TfidfNGramCanopy _ _ => TfidfNGramCanopyPredicate
  | Index LevenshteinCanopy _ _ => LevenshteinCanopyPredicate
  | Index LevenshteinSearch _ _ => LevenshteinSearchPredicate
  end.

Definition is_index (p : Predicate) : bool :=
  match p with Index _ _ _ => true | _ => false end.

(** [getattr(self.func, 'compounds_with_same_field', True)] *)
Definition getattr_compounds_with_same_field (f : pyfunc) : bool :=
  default true (func_compounds_with_same_field f).

(** [compounds_with], as each class defines it:
    [SimplePredicate] returns [True]; [StringPredicate] asks its function's
    flag when the fields agree; [ExistsPredicate] refuses the same field;
    [IndexPredicate] refuses the same field only for the same class. *)
Definition compounds_with (self other : Predicate) : bool :=
  match self with
  | Simple _ _ => true
  | String_ func fld =>
      if decide (field other = fld) then
        if negb (getattr_compounds_with_same_field func) then false
        else true
      else true
  | Exists_ fld =>
      if decide (fld = field other) then false else true
  | Index _ _ fld =>
      if decide (field other = fld) then
        if decide (type_of other = type_of self) then false else true
      else true
  end.

(** [wholeFieldPredicate.compounds_with_same_field = False] *)
Definition wholeFieldPredicate : pyfunc :=
  {| func_name := "wholeFieldPredicate";
     func_compounds_with_same_field := Some false |}.

End Predicates.

(* ===================================================================== *)
(** * predicates.py: CanopyPredicate *)
(* ===================================================================== *)

Module Canopy.

Section CanopyPredicate.

(** Field values and the documents [preprocess] makes of them are whatever
    the field type provides; the similarity index is an external
    collaborator seen through [_doc_to_id] and [search]. *)
Context {value : Type} `{Countable value}.
Context {doc : Type}.
(** [if column:] *)
Variable truthy : value → bool.
Variable preprocess : value → doc.

Record Index := {
  _doc_to_id : doc → option Z;
  search : doc → float → list Z;
}.

(** The attributes of a canopy predicate that [__call__] reads or writes.
    [canopy] maps a document id to its center, or to [None] for a document
    whose search found nothing. *)
Record CanopyPredicate := {
  field : string;
  threshold : float;
  index : option Index;
  canopy : gmap Z (option Z);
  _cache : gmap value (list string);
}.

Definition set_canopy (self : CanopyPredicate) (c : gmap Z (option Z))
  : CanopyPredicate :=
  {| field := field self; threshold := threshold self; index := index self;
     canopy := c; _cache := _cache self |}.

(** [for member in canopy_members: if member not in self.canopy:
       self.canopy[member] = doc_id] *)
Definition assign_members (doc_id : Z) (members : list Z)
    (c : gmap Z (option Z)) : gmap Z (option Z) :=
  foldl (λ c member,
           match c !! member with
           | Some _ => c
           | None => <[member := Some doc_id]> c
           end) c members.

(** [[] if block_key is None else [str(block_key)]] *)
Definition block_keys (block_key : option Z) : list string :=
  match block_key with
  | None => []
  | Some k => [pretty k]
  end.

(** [CanopyPredicate.__call__]: the predicate after the call and what the
    call returns or raises. *)
Definition call (self : CanopyPredicate) (record : gmap string value)
  : CanopyPredicate * res (list string) :=
  match record !! field self with
  | None => (self, Raise KeyError)
  | Some column =>
      if truthy column then
        match _cache self !! column with
        | Some cached => (self, Ok cached)
        | None =>
            let d := preprocess column in
            match index self with
            | None => (self, Raise AttributeError)
            | Some idx =>
                match _doc_to_id idx d with
                | None => (self, Raise KeyError)
                | Some doc_id =>
                    match canopy self !! doc_id with
                    | Some block_key => (self, Ok (block_keys block_key))
                    | None =>
                        let canopy_members := search idx d (threshold self) in
                        let c := assign_members doc_id canopy_members
                                   (canopy self) in
                        match canopy_members with
                        | _ :: _ =>
                            (set_canopy self (<[doc_id := Some doc_id]> c),
                             Ok (block_keys (Some doc_id)))
                        | [] =>
                            (set_canopy self (<[doc_id := None]> c),
                             Ok (block_keys None))
                        end
                    end
                end
            end
        end
      else (self, Ok (block_keys None))
  end.

(** A sequence of calls; what each returns (or raises) is handed to the
    caller, the predicate keeps its state. *)
Definition calls (self : CanopyPredicate) (records : list (gmap string value))
  : CanopyPredicate :=
  foldl (λ s r, fst (call s r)) self records.

End CanopyPredicate.

End Canopy.

(* ===================================================================== *)
(** * training.py: Counter *)
(* ===================================================================== *)

Module Counter.

(** [sum(d.values())] over ints. *)
Definition sum_values (d : gmap nat Z) : Z :=
  foldr Z.add 0 ((map_to_list d).*2).

(** A [Counter] holds a mapping from pair ids to counts and the sum of the
    counts, computed once when it is built. *)
Record Counter := {
  _d : gmap nat Z;
  total : Z;
}.

(** [Counter(iterable)] for a [Mapping]: the mapping is kept as it is. *)
Definition of_mapping (d : gmap nat Z) : Counter :=
  {| _d := d; total := sum_values d |}.

(** [Counter(iterable)] for any other iterable: count the occurrences,
    [d[elem] += 1] on a [defaultdict(int)]. *)
Definition count_elems (iterable : list nat) : gmap nat Z :=
  foldl (λ d elem, <[elem := default 0 (d !! elem) + 1]> d) ∅ iterable.

Definition of_iterable (iterable : list nat) : Counter :=
  of_mapping (count_elems iterable).

(** [__len__] *)
Definition len (c : Counter) : nat := size (_d c).

(** [__eq__] compares the mappings only. *)
Definition eq (c1 c2 : Counter) : bool := bool_decide (_d c1 = _d c2).

(** [__mul__]: iterate over the smaller mapping, keep the keys that the
    larger one has too, and multiply the counts. *)
Definition mul (self other : Counter) : Counter :=
  let '(smaller, larger) :=
    if decide (len self ≤ len other)%nat
    then (_d self, _d other) else (_d other, _d self) in
  let common :=
    map_imap (λ k v, match larger !! k with
                     | Some w => Some (v * w)
                     | None => None
                     end) smaller in
  of_mapping common.

(** [c[k]] for a key that may be missing: the count, 0 when absent. *)
Definition count (c : Counter) (k : nat) : Z := default 0 (_d c !! k).

(** The sum of [f k] over a finite set of keys. *)
Definition sum_over (f : nat → Z) (s : gset nat) : Z :=
  foldr Z.add 0 (f <$> elements s).

End Counter.

(* ===================================================================== *)
(** * Predicates as dictionary keys, and dictionaries *)
(* ===================================================================== *)

Module Dict.

(** A predicate used as a key. [Predicate.__eq__] and [__hash__] go through
    [repr], so a simple predicate is identified by its representation; a
    [CompoundPredicate] is a tuple of predicates, equal to any tuple with
    equal items. *)
Inductive key :=
| Pred (repr : string)
| CP (items : list key).

Global Instance key_eq_dec : EqDecision key.
Proof.
  refine (fix key_dec (a b : key) {struct a} : Decision (a = b) :=
            let _ : EqDecision key := key_dec in
            match a, b with
            | Pred r, Pred s => cast_if (decide (r = s))
            | CP l, CP m => cast_if (decide (l = m))
            | _, _ => right _
            end); congruence.
Defined.

Definition is_simple (k : key) : bool :=
  match k with Pred _ => true | CP _ => false end.

(** [", ".join(items)] *)
Fixpoint join_comma (items : list string) : string :=
  match items with
  | [] => EmptyString
  | [x] => x
  | x :: rest => x +:+ ", " +:+ join_comma rest
  end.

(** [str(k)]: the representation of a simple predicate; for a tuple, the
    representation of a Python tuple. *)
Fixpoint key_str (k : key) : string :=
  match k with
  | Pred r => r
  | CP items =>
      match map key_str items with
      | [x] => "(" +:+ x +:+ ",)"
      | strs => "(" +:+ join_comma strs +:+ ")"
      end
  end.

(** A [dict] in insertion order. *)
Definition dict (V : Type) : Type := list (key * V).

Section Ops.
Context {V : Type}.

Fixpoint dget (d : dict V) (k : key) : option V :=
  match d with
  | [] => None
  | (k', v) :: d' => if decide (k' = k) then Some v else dget d' k
  end.

(** [d[k] = v]: an existing key keeps its place, a new key goes last. *)
Fixpoint dset (d : dict V) (k : key) (v : V) : dict V :=
  match d with
  | [] => [(k, v)]
  | (k', v') :: d' =>
      if decide (k' = k) then (k', v) :: d' else (k', v') :: dset d' k v
  end.

(** [del d[k]] for a key that is there. *)
Fixpoint ddel (d : dict V) (k : key) : dict V :=
  match d with
  | [] => []
  | (k', v') :: d' => if decide (k' = k) then d' else (k', v') :: ddel d' k
  end.

Definition dkeys (d : dict V) : list key := d.*1.
Definition dvalues (d : dict V) : list V := d.*2.

(** [d[k]], raising [KeyError]. *)
Definition getitem (d : dict V) (k : key) : res V :=
  from_option KeyError (dget d k).

(** [k in d] *)
Definition contains (d : dict V) (k : key) : bool :=
  bool_decide (is_Some (dget d k)).

(** What every Python dict satisfies: no key twice. *)
Definition wf (d : dict V) : Prop := NoDup (dkeys d).

End Ops.

(** [set.union] of the sets given as arguments; Python raises [TypeError]
    without arguments. *)
Definition set_union (sets : list (gset nat)) : res (gset nat) :=
  match sets with
  | [] => Raise TypeError
  | s :: rest => Ok (foldl (∪) s rest)
  end.

End Dict.

(* ===================================================================== *)
(** * Python's [sorted], [itertools.combinations], loops *)
(* ===================================================================== *)

Module Py.

Section Sorted.
Context {A K : Type}.
(** [<] on the sort keys: the only comparison [sorted] makes. *)
Variable lt : K → K → bool.

(** [sorted] is stable: an element goes after every element that came
    before it unless it is strictly smaller. Elements are inserted from the
    last to the first, each in front of the first one that is not strictly
    smaller than it. *)
Fixpoint insert_sorted (x : K * A) (l : list (K * A)) : list (K * A) :=
  match l with
  | [] => [x]
  | y :: l' => if lt y.1 x.1 then y :: insert_sorted x l' else x :: y :: l'
  end.

Definition sort_decorated (l : list (K * A)) : list (K * A) :=
  foldr insert_sorted [] l.

(** [sorted(l, key=key)] *)
Definition sorted (key : A → K) (l : list A) : list A :=
  (sort_decorated ((λ x, (key x, x)) <$> l)).*2.

End Sorted.

(** [itertools.combinations(l, i)], in the order Python yields them. *)
Fixpoint combinations {A} (l : list A) (i : nat) {struct l} : list (list A) :=
  match i, l with
  | O, _ => [[]]
  | S _, [] => []
  | S i', x :: l' => (cons x <$> combinations l' i') ++ combinations l' i
  end.

(** A [for] loop over [l] that updates a state and stops at the first
    exception. *)
Fixpoint foldM {A B} (f : B → A → res B) (b : B) (l : list A) : res B :=
  match l with
  | [] => Ok b
  | x :: l' => b' ←! f b x; foldM f b' l'
  end.

(** [t[:-1], t[-1]] of a sequence; [t[-1]] raises [IndexError] when [t] is
    empty. *)
Fixpoint split_last {A} (t : list A) : option (list A * A) :=
  match t with
  | [] => None
  | [x] => Some ([], x)
  | x :: t' =>
      match split_last t' with
      | Some (a, b) => Some (x :: a, b)
      | None => None
      end
  end.

(** [(a1, n1) < (a2, n2)] for a float and an int: the first components
    decide unless they compare equal. *)
Definition tuple_lt (x y : float * nat) : bool :=
  if PyFloat.eqb x.1 y.1 then Nat.ltb x.2 y.2 else PyFloat.ltb x.1 y.1.

End Py.

(* ===================================================================== *)
(** * training.py: Cover *)
(* ===================================================================== *)

Module Cover.
Import Dict Py.

(** [Cover._d]: predicate to the set of the ids of the labelled pairs it
    covers. *)
Abbreviation cover := (dict (gset nat)).

Section Construction.
Context {record : Type}.
(** [predicate(record, target=target)], whatever the predicate computes,
    possibly raising. *)
Variable call : key → record → bool → res (list string).

(** [set(predicate(record_1)) & set(predicate(record_2, target=True))] as a
    truth value. *)
Definition blocks_together (predicate : key) (records : record * record)
  : res bool :=
  keys_1 ←! call predicate records.1 false;
  keys_2 ←! call predicate records.2 true;
  Ok (bool_decide (Exists (λ k, k ∈ keys_2) keys_1)).

(** The comprehension [{i for i, (record_1, record_2) in enumerate(pairs)
    if ...}], from index [i] on. *)
Fixpoint coverage_from (predicate : key) (i : nat)
    (pairs : list (record * record)) : res (gset nat) :=
  match pairs with
  | [] => Ok ∅
  | records :: pairs' =>
      b ←! blocks_together predicate records;
      rest ←! coverage_from predicate (S i) pairs';
      Ok (if b then {[ i ]} ∪ rest else rest)
  end.

(** [Cover._cover] *)
Definition _cover (predicates : list key) (pairs : list (record * record))
    (d : cover) : res cover :=
  foldM (λ d predicate,
           coverage ←! coverage_from predicate 0 pairs;
           Ok (if decide (coverage = ∅) then d
               else dset d predicate coverage))
        d predicates.

(** [Cover(predicates, pairs)] *)
Definition of_predicates (predicates : list key)
    (pairs : list (record * record)) : res cover :=
  _cover predicates pairs [].

End Construction.

(** The body of the inner loop of [compound]. *)
Definition compound_one (d : cover) (compound_predicate : list key)
  : res cover :=
  ab ←! from_option IndexError (split_last compound_predicate);
  let a := match ab.1 with [x] => x | items => CP items end in
  let b := ab.2 in
  match dget d a with
  | Some cover_a =>
      cover_b ←! getitem d b;
      let compound_cover := cover_a ∩ cover_b in
      Ok (if decide (compound_cover = ∅) then d
          else dset d (CP compound_predicate) compound_cover)
  | None => Ok d
  end.

(** [Cover.compound] *)
Definition compound (compound_length : nat) (d : cover) : res cover :=
  let simple_predicates := sorted String.ltb key_str (dkeys d) in
  foldM (λ d i, foldM compound_one d (combinations simple_predicates i))
        d (seq 2 (compound_length - 1)).

(** [sort_key] of [dominators] *)
Definition sort_key (cost : dict float) (d : cover) (x : key)
  : res (float * nat) :=
  c ←! getitem cost x;
  m ←! getitem d x;
  Ok (PyFloat.neg c, size m).

(** The inner loop of [dominators]: is there a later predicate that is
    better or equal? The loop stops at the first one. *)
Fixpoint dominated (cost : dict float) (d : cover)
    (candidate_match : gset nat) (candidate_cost : float)
    (later : list key) : res bool :=
  match later with
  | [] => Ok false
  | pred :: later' =>
      other_match ←! getitem d pred;
      other_cost ←! getitem cost pred;
      if bool_decide (candidate_match ⊆ other_match)
         && PyFloat.leb other_cost candidate_cost
      then Ok true
      else dominated cost d candidate_match candidate_cost later'
  end.

(** The outer loop of [dominators]. *)
Fixpoint dominators_loop (cost : dict float) (d : cover)
    (ordered_predicates : list key) (dominants : cover) : res cover :=
  match ordered_predicates with
  | [] => Ok dominants
  | candidate :: later =>
      candidate_match ←! getitem d candidate;
      candidate_cost ←! getitem cost candidate;
      dom ←! dominated cost d candidate_match candidate_cost later;
      dominators_loop cost d later
        (if dom then dominants else dset dominants candidate candidate_match)
  end.

(** [Cover.dominators] *)
Definition dominators (cost : dict float) (d : cover) : res cover :=
  decorated ←! mapM (λ x, k ←! sort_key cost d x; Ok (k, x)) (dkeys d);
  let ordered_predicates := (sort_decorated tuple_lt decorated).*2 in
  dominators_loop cost d ordered_predicates [].

Section IntersectionUpdate.
Context {V : Type}.
(** The order in which Python iterates over a [set] of these keys: some
    order, fixed by the hashes. *)
Variable set_iter : list key → list key.

(** [Cover.intersection_update]:
    [{k: self._d[k] for k in set(self._d) & set(other)}] *)
Definition intersection_update (other : dict V) (d : cover) : res cover :=
  let common := filter (λ k, contains other k = true) (dkeys d) in
  foldM (λ acc k, v ←! getitem d k; Ok (dset acc k v)) [] (set_iter common).

End IntersectionUpdate.

End Cover.

(* ===================================================================== *)
(** * training.py: BranchBound *)
(* ===================================================================== *)

Module BranchBound.
Import Dict Py Cover.

(** What [search] returns: the tuple [partial] of the best solution found,
    or the [candidates] it was first called with. *)
Inductive rules :=
| Tuple (partial : list key)
| Candidates (candidates : cover).

(** Iterating over the returned value yields predicates. *)
Definition predicates_of (r : rules) : list key :=
  match r with
  | Tuple partial => partial
  | Candidates candidates => dkeys candidates
  end.

(** The attributes of a [BranchBound]; [cheapest] is set by the first call
    of [search] only. *)
Record BranchBound := {
  calls : Z;
  target : Z;
  cheapest_score : float;
  original_cover : option cover;
  cheapest : option rules;
}.

(** [BranchBound(target, max_calls)] *)
Definition init (target max_calls : Z) : BranchBound :=
  {| calls := max_calls; target := target; cheapest_score := PyFloat.inf;
     original_cover := None; cheapest := None |}.

Section Search.
(** The attribute [count] that [learn] attaches to each predicate. *)
Variable counts : dict float.

(** [p.count] *)
Definition count (p : key) : res float :=
  from_option AttributeError (dget counts p).

(** [score]: [sum(p.count for p in partial)], starting from 0. *)
Definition score (partial : list key) : res float :=
  foldM (λ acc p, c ←! count p; Ok (PyFloat.add acc c))
        (S754_zero false) partial.

(** [covered] *)
Definition covered (original : option cover) (partial : list key) : res nat :=
  match partial with
  | [] => Ok O
  | _ :: _ =>
      orig ←! from_option TypeError original;
      sets ←! mapM (getitem orig) partial;
      u ←! set_union sets;
      Ok (size u)
  end.

(** [reachable] *)
Definition reachable (dupe_cover : cover) : res nat :=
  match dupe_cover with
  | [] => Ok O
  | _ :: _ => u ←! set_union (dvalues dupe_cover); Ok (size u)
  end.

(** [remove_dominated]: delete, while iterating over a copy, every predicate
    that costs at least as much as the dominator and covers no more. *)
Definition remove_dominated (coverage : cover) (dominator : key) : res cover :=
  dominant_cover ←! getitem coverage dominator;
  foldM (λ coverage '(pred, cover),
           dc ←! count dominator;
           pc ←! count pred;
           Ok (if PyFloat.leb dc pc && bool_decide (cover ⊆ dominant_cover)
               then ddel coverage pred else coverage))
        coverage coverage.

(** [uncovered_by] *)
Definition uncovered_by (coverage : cover) (covered : gset nat) : cover :=
  foldl (λ remaining '(predicate, uncovered),
           let still_uncovered := uncovered ∖ covered in
           if decide (still_uncovered = ∅) then remaining
           else dset remaining predicate still_uncovered)
        [] coverage.

(** [order_by] *)
Definition order_by (candidates : cover) (p : key) : res (nat * float) :=
  c ←! getitem candidates p;
  n ←! count p;
  Ok (size c, PyFloat.neg n).

(** [(n1, a1) > (n2, a2)] for an int and a float. *)
Definition tuple_gt (x y : nat * float) : bool :=
  if Nat.eqb x.1 y.1 then PyFloat.gtb x.2 y.2 else Nat.ltb y.1 x.1.

(** [max(candidates, key=order_by)]: the first of the largest; Python
    raises [ValueError] on an empty argument. *)
Definition max_by (candidates : cover) : res key :=
  match dkeys candidates with
  | [] => Raise ValueError
  | first :: rest =>
      k0 ←! order_by candidates first;
      best ←! foldM (λ '(best, kbest) p,
                       k ←! order_by candidates p;
                       Ok (if tuple_gt k kbest then (p, k) else (best, kbest)))
                    (first, k0) rest;
      Ok best.1
  end.

(** The dict comprehension
    [{p: cover for p, cover in candidates.items() if p.count < window}] *)
Definition within_window (window : float) (candidates : cover) : res cover :=
  foldM (λ acc '(p, cover),
           c ←! count p;
           Ok (if PyFloat.ltb c window then dset acc p cover else acc))
        [] candidates.

Definition set_cheapest (self : BranchBound) (partial : list key)
    (score : float) : BranchBound :=
  {| calls := calls self; target := target self; cheapest_score := score;
     original_cover := original_cover self;
     cheapest := Some (Tuple partial) |}.

Definition set_calls (self : BranchBound) (n : Z) : BranchBound :=
  {| calls := n; target := target self;
     cheapest_score := cheapest_score self;
     original_cover := original_cover self; cheapest := cheapest self |}.

(** [if self.original_cover is None: ...] *)
Definition first_call (self : BranchBound) (candidates : cover)
  : BranchBound :=
  match original_cover self with
  | None =>
      {| calls := calls self; target := target self;
         cheapest_score := cheapest_score self;
         original_cover := Some candidates;
         cheapest := Some (Candidates candidates) |}
  | Some _ => self
  end.

(** [return self.cheapest] *)
Definition return_cheapest (self : BranchBound) : res (BranchBound * rules) :=
  r ←! from_option AttributeError (cheapest self);
  Ok (self, r).

(** [search]: the object after the call and the value returned. Every call
    that gets past the first test takes one from [calls], so [calls] bounds
    the depth of the recursion; [fuel] is that bound. *)
Fixpoint search_fuel (fuel : nat) (self : BranchBound) (candidates : cover)
    (partial : list key) {struct fuel} : res (BranchBound * rules) :=
  if calls self <=? 0 then return_cheapest self
  else
    match fuel with
    | O => Raise OutOfFuel
    | S fuel' =>
        let self := first_call self candidates in
        let self := set_calls self (calls self - 1) in
        covered_ ←! covered (original_cover self) partial;
        score_ ←! score partial;
        if target self <=? Z.of_nat covered_ then
          return_cheapest
            (if PyFloat.ltb score_ (cheapest_score self)
             then set_cheapest self partial score_ else self)
        else
          let window := PyFloat.sub (cheapest_score self) score_ in
          candidates ←! within_window window candidates;
          reachable_ ←! reachable candidates;
          match candidates with
          | _ :: _ =>
              if target self <=? Z.of_nat (reachable_ + covered_) then
                best ←! max_by candidates;
                best_cover ←! getitem candidates best;
                let remaining := uncovered_by candidates best_cover in
                r1 ←! search_fuel fuel' self remaining (partial ++ [best]);
                reduced ←! remove_dominated candidates best;
                r2 ←! search_fuel fuel' r1.1 reduced partial;
                return_cheapest r2.1
              else return_cheapest self
          | [] => return_cheapest self
          end
    end.

Definition search (self : BranchBound) (candidates : cover)
    (partial : list key) : res (BranchBound * rules) :=
  search_fuel (Z.to_nat (calls self)) self candidates partial.

End Search.

End BranchBound.

(* ===================================================================== *)
(** * training.py: BlockLearner.learn *)
(* ===================================================================== *)

Module BlockLearner.
Import Dict Py Cover BranchBound.

(** The attributes of a block learner that [learn] reads:
    [self.blocker.predicates], [self.comparison_count] and
    [self.compound_length]. *)
Record BlockLearner := {
  predicates : list key;
  comparison_count : dict float;
  compound_length : nat;
}.

Section Learn.
Context {record : Type}.
(** [predicate(record, target=target)] *)
Variable call : key → record → bool → res (list string).
(** The order in which Python iterates over a set of predicates. *)
Variable set_iter : list key → list key.

(** The cover [learn] hands to the search: built from the matches,
    compounded, restricted to the predicates that have a cost, and without
    the dominated ones. *)
Definition dupe_cover (self : BlockLearner)
    (matches : list (record * record)) : res cover :=
  d ←! of_predicates call (predicates self) matches;
  d ←! compound (compound_length self) d;
  d ←! intersection_update set_iter (comparison_count self) d;
  dominators (comparison_count self) d.

(** [[pair for i, pair in enumerate(matches) if i not in coverable_dupes]],
    from index [i] on. *)
Fixpoint uncoverable_from (i : nat) (matches : list (record * record))
    (coverable_dupes : gset nat) : list (record * record) :=
  match matches with
  | [] => []
  | records :: matches' =>
      if decide (i ∈ coverable_dupes)
      then uncoverable_from (S i) matches' coverable_dupes
      else records :: uncoverable_from (S i) matches' coverable_dupes
  end.

(** [int((1.0 - recall) * len(matches))] *)
Definition epsilon_of (recall : float) (n_matches : nat) : res Z :=
  PyFloat.to_int
    (PyFloat.mul (PyFloat.sub (PyFloat.of_int 1) recall)
                 (PyFloat.of_int (Z.of_nat n_matches))).

(** [for pred in dupe_cover: pred.count = comparison_count[pred]] *)
Definition attach_counts (comparison_count : dict float) (d : cover)
  : res (dict float) :=
  foldM (λ counts pred,
           c ←! getitem comparison_count pred;
           Ok (dset counts pred c))
        [] (dkeys d).

(** [len(final_predicates)], evaluated for the last debug message: what
    [search] returns is a tuple, or the [Cover] it was first called with,
    and the class [Cover] defines no [__len__]. *)
Definition len_rules (final_predicates : rules) : res nat :=
  match final_predicates with
  | Tuple partial => Ok (length partial)
  | Candidates _ => Raise TypeError
  end.

(** [learn]: the value returned, and whether the out-of-predicates warning
    was logged. *)
Definition learn (self : BlockLearner) (matches : list (record * record))
    (recall : float) : res (rules * bool) :=
  d ←! dupe_cover self matches;
  coverable_dupes ←! set_union (dvalues d);
  let uncoverable_dupes := uncoverable_from 0 matches coverable_dupes in
  epsilon ←! epsilon_of recall (length matches);
  let warned := bool_decide (epsilon < Z.of_nat (length uncoverable_dupes)) in
  let epsilon :=
    if warned then 0 else epsilon - Z.of_nat (length uncoverable_dupes) in
  counts ←! attach_counts (comparison_count self) d;
  let searcher := init (Z.of_nat (size coverable_dupes) - epsilon) 2500 in
  final ←! search counts searcher d [];
  _ ←! len_rules final.2;
  Ok (final.2, warned).

End Learn.

End BlockLearner.

(* ===================================================================== *)
(** * numpy on one-dimensional arrays of floats *)
(* ===================================================================== *)

Module Numpy.

(** [numpy.argmax] on floats: the first of the largest, and the first NaN
    if there is one before; the loop replaces the maximum when
    [not (x <= maximum)]. [ValueError] on an empty array. *)
Fixpoint argmax_from (mp : float) (max_ind i : nat) (rest : list float)
  : nat :=
  match rest with
  | [] => max_ind
  | x :: rest' =>
      if negb (PyFloat.leb x mp) then
        if PyFloat.is_nan x then i else argmax_from x i (S i) rest'
      else argmax_from mp max_ind (S i) rest'
  end.

Definition argmax (v : list float) : res nat :=
  match v with
  | [] => Raise ValueError
  | x :: rest => Ok (if PyFloat.is_nan x then O else argmax_from x O 1 rest)
  end.

(** [numpy.argmin], likewise with [not (x >= minimum)]. *)
Fixpoint argmin_from (mp : float) (min_ind i : nat) (rest : list float)
  : nat :=
  match rest with
  | [] => min_ind
  | x :: rest' =>
      if negb (PyFloat.geb x mp) then
        if PyFloat.is_nan x then i else argmin_from x i (S i) rest'
      else argmin_from mp min_ind (S i) rest'
  end.

Definition argmin (v : list float) : res nat :=
  match v with
  | [] => Raise ValueError
  | x :: rest => Ok (if PyFloat.is_nan x then O else argmin_from x O 1 rest)
  end.

(** [numpy.delete(arr, index, axis=0)] on an array: [IndexError] when the
    index is out of bounds. *)
Definition delete_row {A} (arr : list A) (index : nat) : res (list A) :=
  if (index <? length arr)%nat then Ok (delete index arr)
  else Raise IndexError.

(** [numpy.std] of a row of two floats: the square root of the mean of the
    squared deviations from the mean. *)
Definition std2 (row : float * float) : float :=
  let two := PyFloat.of_int 2 in
  let mean := PyFloat.div (PyFloat.add row.1 row.2) two in
  let d1 := PyFloat.sub row.1 mean in
  let d2 := PyFloat.sub row.2 mean in
  PyFloat.sqrt
    (PyFloat.div (PyFloat.add (PyFloat.mul d1 d1) (PyFloat.mul d2 d2)) two).

(** [numpy.concatenate([a, b], axis=1)] of two columns: [ValueError] unless
    they have as many rows. *)
Definition concatenate_columns (a b : list float) : res (list (float * float)) :=
  if decide (length a = length b) then Ok (zip a b) else Raise ValueError.

(** [list.pop(index)] *)
Definition list_pop {A} (l : list A) (index : nat) : res (A * list A) :=
  match l !! index with
  | Some x => Ok (x, delete index l)
  | None => Raise IndexError
  end.

End Numpy.

(* ===================================================================== *)
(** * labeler.py *)
(* ===================================================================== *)

Module Labeler.
Import Dict Numpy.

(** What the attribute [distances] of an [RLRLearner] holds: the
    [Distances] data model that [__init__] stores there, or a
    two-dimensional array of floats. *)
Inductive pyobj :=
| DistancesModel
| Array (rows : list (list float)).

Section Learners.
Context {record weights : Type}.
(** [predicate(record, target=target)] *)
Variable call : key → record → bool → res (list string).
(** The regression of the [rlr] library, fitted: the probability it gives
    one distance vector. *)
Variable predict_row : weights → list float → float.
(** [Distances.compute_distance_matrix], through the comparators of the
    field types. *)
Variable compute_distance_matrix : list (record * record) → list (list float).

(** [predict_proba] of [rlr]: [numpy.dot(examples, self.weights)] and the
    logistic function, one probability for each row. numpy makes a
    zero-dimensional object array of an argument that is not an array, and
    its product with the weights raises [TypeError]. *)
Definition predict_proba (w : weights) (examples : pyobj) : res (list float) :=
  match examples with
  | Array rows => Ok (predict_row w <$> rows)
  | DistancesModel => Raise TypeError
  end.

(** [numpy.delete(obj, index, axis=0)]; an object that is not an array has
    no axis 0. *)
Definition numpy_delete (obj : pyobj) (index : nat) : res pyobj :=
  match obj with
  | Array rows => rows' ←! delete_row rows index; Ok (Array rows')
  | DistancesModel => Raise AxisError
  end.

(** ** RLRLearner *)

(** The list [candidates] is one object, shared by a disagreement learner
    and its two sub-learners: it is kept outside the records and handed to
    the methods that read or change it. *)
Record RLRLearner := {
  distances : pyobj;
  distance_matrix : list (list float);
  rlr_weights : weights;
  y : list Z;
}.

(** What [RLRLearner.__init__] leaves: [self.distances = distances], the
    data model, and [self.distance_matrix = self.transform(self.candidates)];
    [w] are the weights of the first fit, on the labels [[1, 0]]. *)
Definition RLRLearner_init (w : weights) (candidates : list (record * record))
  : RLRLearner :=
  {| distances := DistancesModel;
     distance_matrix := compute_distance_matrix candidates;
     rlr_weights := w;
     y := [1; 0] |}.

Definition set_distances (self : RLRLearner) (d : pyobj) : RLRLearner :=
  {| distances := d; distance_matrix := distance_matrix self;
     rlr_weights := rlr_weights self; y := y self |}.

(** [candidate_scores]: [self.predict_proba(self.distances)] *)
Definition rlr_candidate_scores (self : RLRLearner) : res (list float) :=
  predict_proba (rlr_weights self) (distances self).

(** [_remove] *)
Definition rlr_remove (self : RLRLearner) (index : nat) : res RLRLearner :=
  d ←! numpy_delete (distances self) index;
  Ok (set_distances self d).

(** [_bias] *)
Definition _bias (self : RLRLearner) : float :=
  let positive := Z.of_nat (length (filter (λ l, l = 1) (y self))) in
  let n_examples := Z.of_nat (length (y self)) in
  let ratio :=
    if decide (positive = 0) then PyFloat.of_int 0
    else PyFloat.div (PyFloat.of_int positive) (PyFloat.of_int n_examples) in
  let bias := PyFloat.sub (PyFloat.of_int 1) ratio in
  let uncertainty_weight := Z.min positive (n_examples - positive) in
  let bias_weight := 10 in
  let weighted_bias :=
    PyFloat.add
      (PyFloat.mul (PyFloat.of_scaled 1 (-1))
                   (PyFloat.of_int uncertainty_weight))
      (PyFloat.mul bias (PyFloat.of_int bias_weight)) in
  PyFloat.div weighted_bias (PyFloat.of_int (uncertainty_weight + bias_weight)).

(** [RLRLearner.pop]: the learner and the list of candidates after the
    call, and what it returns or raises. *)
Definition rlr_pop (self : RLRLearner) (candidates : list (record * record))
  : RLRLearner * list (record * record) * res (list (record * record)) :=
  match candidates with
  | [] => (self, candidates, Raise IndexError)
  | _ :: _ =>
      let target_uncertainty := _bias self in
      match rlr_candidate_scores self with
      | Raise e => (self, candidates, Raise e)
      | Ok probabilities =>
          let distance_to_target :=
            (λ p, PyFloat.abs (PyFloat.sub target_uncertainty p))
              <$> probabilities in
          match argmin distance_to_target with
          | Raise e => (self, candidates, Raise e)
          | Ok uncertain_index =>
              match numpy_delete (distances self) uncertain_index with
              | Raise e => (self, candidates, Raise e)
              | Ok d =>
                  let self := set_distances self d in
                  match list_pop candidates uncertain_index with
                  | Raise e => (self, candidates, Raise e)
                  | Ok (uncertain_pair, rest) =>
                      (self, rest, Ok [uncertain_pair])
                  end
              end
          end
      end
  end.

(** ** BlockLearner *)

Record BlockLearner := {
  current_predicates : list key;
  _cached_labels : option (list Z);
}.

Definition set_cached_labels (self : BlockLearner) (c : option (list Z))
  : BlockLearner :=
  {| current_predicates := current_predicates self; _cached_labels := c |}.

(** The inner loop of [predict]: 1 at the first predicate that gives both
    records a common key, 0 if there is none. *)
Fixpoint predict_one (predicates : list key) (records : record * record)
  : res Z :=
  match predicates with
  | [] => Ok 0
  | predicate :: predicates' =>
      keys ←! call predicate records.1 false;
      match keys with
      | [] => predict_one predicates' records
      | _ :: _ =>
          keys_2 ←! call predicate records.2 true;
          if bool_decide (Exists (λ k, k ∈ keys) keys_2) then Ok 1
          else predict_one predicates' records
      end
  end.

(** [predict] *)
Definition predict (self : BlockLearner) (candidates : list (record * record))
  : res (list Z) :=
  mapM (predict_one (current_predicates self)) candidates.

(** [candidate_scores] *)
Definition block_candidate_scores (self : BlockLearner)
    (candidates : list (record * record)) : res (BlockLearner * list Z) :=
  match _cached_labels self with
  | Some labels => Ok (self, labels)
  | None =>
      labels ←! predict self candidates;
      Ok (set_cached_labels self (Some labels), labels)
  end.

(** [_remove] *)
Definition block_remove (self : BlockLearner) (index : nat)
  : res BlockLearner :=
  match _cached_labels self with
  | Some labels =>
      labels' ←! delete_row labels index;
      Ok (set_cached_labels self (Some labels'))
  | None => Ok self
  end.

(** ** DisagreementLearner *)

Record DisagreementLearner := {
  candidates : list (record * record);
  classifier : RLRLearner;
  blocker : BlockLearner;
}.

(** [_common_init]: the classifier is a new [RLRLearner] on the data model
    and the shared candidates. *)
Definition _common_init (w : weights) (candidates : list (record * record))
    (blocker : BlockLearner) : DisagreementLearner :=
  {| candidates := candidates;
     classifier := RLRLearner_init w candidates;
     blocker := blocker |}.

Definition half : float := PyFloat.of_scaled 1 (-1).

(** [numpy.std(probs > 0.5, axis=1).astype(bool)] on a row: the standard
    deviation of two truth values is not zero exactly when they differ. *)
Definition disagreement (row : float * float) : bool :=
  xorb (PyFloat.gtb row.1 half) (PyFloat.gtb row.2 half).

(** [disagreement.nonzero()[0]] *)
Definition conflicts (probs : list (float * float)) : list nat :=
  filter (λ i, default false (disagreement <$> (probs !! i)) = true)
         (seq 0 (length probs)).

(** The index [pop] chooses; [target] is the draw of
    [numpy.random.uniform(size=1)], used only when two scores disagree. *)
Definition uncertain_index (probs : list (float * float)) (target : float)
  : res nat :=
  if existsb disagreement probs then
    let conflicts := conflicts probs in
    scores ←! mapM (λ i, from_option IndexError (fst <$> (probs !! i)))
                   conflicts;
    best ←! argmax ((λ s, PyFloat.sub s target) <$> scores);
    from_option IndexError (conflicts !! best)
  else argmax (std2 <$> probs).

(** [DisagreementLearner.pop]: the learner after the call, and what the
    call returns or raises. *)
Definition pop (self : DisagreementLearner) (target : float)
  : DisagreementLearner * res (list (record * record)) :=
  match candidates self with
  | [] => (self, Raise IndexError)
  | _ :: _ =>
      match rlr_candidate_scores (classifier self) with
      | Raise e => (self, Raise e)
      | Ok probabilities =>
          match block_candidate_scores (blocker self) (candidates self) with
          | Raise e => (self, Raise e)
          | Ok (blocker_, labels) =>
              let self :=
                {| candidates := candidates self;
                   classifier := classifier self; blocker := blocker_ |} in
              match
                probs ←! concatenate_columns probabilities
                           (PyFloat.of_int <$> labels);
                index ←! uncertain_index probs target;
                popped ←! list_pop (candidates self) index;
                Ok (index, popped)
              with
              | Raise e => (self, Raise e)
              | Ok (index, (uncertain_pair, rest)) =>
                  match rlr_remove (classifier self) index with
                  | Raise e =>
                      ({| candidates := rest; classifier := classifier self;
                          blocker := blocker self |}, Raise e)
                  | Ok classifier_ =>
                      match block_remove (blocker self) index with
                      | Raise e =>
                          ({| candidates := rest; classifier := classifier_;
                              blocker := blocker self |}, Raise e)
                      | Ok blocker_ =>
                          ({| candidates := rest; classifier := classifier_;
                              blocker := blocker_ |}, Ok [uncertain_pair])
                      end
                  end
              end
          end
      end
  end.

End Learners.

End Labeler.


(* ===================================================================== *)
(** * predicates.py: Predicate as a dictionary key *)
(* ===================================================================== *)

Module PredicateRepr.
Import Predicates Dict.

Section Repr.
(** [str(threshold)], as ["%s"] formats the threshold of an index
    predicate. *)
Variable str_float : float → string.

(** The class attribute [type]. [StringPredicate] defines none and
    inherits that of [SimplePredicate]; [IndexPredicate] defines none, each
    of the classes that are instantiated has its own. *)
Definition type_attr (p : Predicate) : string :=
  match p with
  | Simple _ _ | String_ _ _ => "SimplePredicate"
  | Exists_ _ => "ExistsPredicate"
  | Index TfidfTextSearch _ _ => "TfidfTextSearchPredicate"
  | Index TfidfSetSearch _ _ => "TfidfSetSearchPredicate"
  | Index TfidfNGramSearch _ _ => "TfidfNGramSearchPredicate"
  | Index TfidfTextCanopy _ _ => "TfidfTextCanopyPredicate"
  | Index TfidfSetCanopy _ _ => "TfidfSetCanopyPredicate"
  | Index TfidfNGramCanopy _ _ => "TfidfNGramCanopyPredicate"
  | Index LevenshteinCanopy _ _ => "LevenshteinCanopyPredicate"
  | Index LevenshteinSearch _ _ => "LevenshteinSearchPredicate"
  end.

(** The attribute [__name__] that each [__init__] sets:
    ["(%s, %s)" % (func.__name__, field)], ["(Exists, %s)" % (field,)] and
    ['(%s, %s)' % (threshold, field)]. *)
Definition __name__ (p : Predicate) : string :=
  match p with
  | Simple func fld | String_ func fld =>
      "(" +:+ func_name func +:+ ", " +:+ fld +:+ ")"
  | Exists_ fld => "(Exists, " +:+ fld +:+ ")"
  | Index _ threshold fld =>
      "(" +:+ str_float threshold +:+ ", " +:+ fld +:+ ")"
  end.

(** [__repr__]: ["%s: %s" % (self.type, self.__name__)] *)
Definition __repr__ (p : Predicate) : string :=
  type_attr p +:+ ": " +:+ __name__ p.

(** [__eq__]: [repr(self) == repr(other)]; [__hash__] is the hash of the
    representation. *)
Definition __eq__ (self other : Predicate) : bool :=
  bool_decide (__repr__ self = __repr__ other).

(** [__len__] *)
Definition __len__ (p : Predicate) : nat := 1.

(** The predicate as a key of a dictionary. *)
Definition to_key (p : Predicate) : key := Pred (__repr__ p).

End Repr.

End PredicateRepr.

(* ===================================================================== *)
(** * training.py: BlockLearner.compound, Compounder, comparisons *)
(* ===================================================================== *)

Module Comparisons.
Import Predicates PredicateRepr Dict Py Counter.

(** What a generator does when it is run to its end: the values it yields
    and, if it stops on one, the exception. *)
Definition generator (A : Type) : Type := list A * option exn.

(** What [BlockLearner.compound] yields: a predicate, or a
    [CompoundPredicate] of two. *)
Inductive item :=
| Single (pred : Predicate)
| Compound (preds : list Predicate).

Section Compound.
Variable str_float : float → string.

(** The loop [for pred_a, pred_b in compound_predicates]: a combination
    that is not of two predicates cannot be unpacked, which raises
    [ValueError]. *)
Fixpoint compound_pairs (compound_predicates : list (list Predicate))
  : generator item :=
  match compound_predicates with
  | [] => ([], None)
  | [pred_a; pred_b] :: rest =>
      let '(yielded, e) := compound_pairs rest in
      (if compounds_with pred_a pred_b && compounds_with pred_b pred_a
       then Compound [pred_a; pred_b] :: yielded else yielded, e)
  | _ :: _ => ([], Some ValueError)
  end.

(** The loop [for i in range(2, compound_length + 1)], over the values of
    [i] that are left. *)
Fixpoint compound_lengths (simple_predicates : list Predicate)
    (lengths : list nat) : generator item :=
  match lengths with
  | [] => ([], None)
  | i :: lengths' =>
      match compound_pairs (combinations simple_predicates i) with
      | (yielded, None) =>
          let '(yielded', e) := compound_lengths simple_predicates lengths' in
          (yielded ++ yielded', e)
      | (yielded, Some e) => (yielded, Some e)
      end
  end.

(** [BlockLearner.compound(simple_predicates, compound_length)] *)
Definition compound (simple_predicates : list Predicate)
    (compound_length : nat) : generator item :=
  let simple_predicates :=
    sorted String.ltb (__repr__ str_float) simple_predicates in
  let '(yielded, e) :=
    compound_lengths simple_predicates (seq 2 (compound_length - 1)) in
  ((Single <$> simple_predicates) ++ yielded, e).

(** The key under which a yielded value is stored: the predicate, or the
    tuple of the predicates. *)
Definition item_key (x : item) : key :=
  match x with
  | Single pred => to_key str_float pred
  | Compound preds => CP (to_key str_float <$> preds)
  end.

(** [len(pred)]: 1 for a predicate, the length of a tuple. *)
Definition item_len (x : item) : nat :=
  match x with
  | Single pred => __len__ pred
  | Compound preds => length preds
  end.

End Compound.

(** ** Compounder *)

(** The attributes of a [Compounder] that [__call__] writes; [cover] is
    set once. *)
Record Compounder := {
  _cached_predicate : option (list key);
  _cached_cover : option Counter;
}.

(** [Compounder(cover)] *)
Definition Compounder_init : Compounder :=
  {| _cached_predicate := None; _cached_cover := None |}.

Section Call.
(** [self.cover]: the counters of the simple predicates. *)
Variable cover : dict Counter.

(** [Compounder.__call__], on the tuple read from its last item backwards:
    [b] is the last item and [a] the tuple of the others. The call on [a]
    is the recursive one. *)
Fixpoint call_rev (self : Compounder) (reversed : list key)
  : res (Compounder * Counter) :=
  match reversed with
  | [] => Raise IndexError
  | b :: reversed_a =>
      let a := rev reversed_a in
      match reversed_a with
      | [] => Raise ValueError
      | [a] =>
          a_cover ←! getitem cover a;
          b_cover ←! getitem cover b;
          Ok (self, mul a_cover b_cover)
      | _ :: _ :: _ =>
          if decide (Some a = _cached_predicate self) then
            b_cover ←! getitem cover b;
            a_cover ←! from_option TypeError (_cached_cover self);
            Ok (self, mul a_cover b_cover)
          else
            r ←! call_rev self reversed_a;
            let self := {| _cached_predicate := Some a;
                           _cached_cover := Some r.2 |} in
            b_cover ←! getitem cover b;
            Ok (self, mul r.2 b_cover)
      end
  end.

(** [compounder(compound_predicate)] *)
Definition call (self : Compounder) (compound_predicate : list key)
  : res (Compounder * Counter) :=
  call_rev self (rev compound_predicate).

End Call.

(** ** estimate and comparisons *)

(** The conversion of an int that [float * int] makes: [OverflowError] when
    the int is too large for a float. *)
Definition float_of_int (n : Z) : res float :=
  match PyFloat.of_int n with
  | S754_infinity _ => Raise OverflowError
  | x => Ok x
  end.

(** [estimate]: [self.r * comparisons.total] *)
Definition estimate (r : float) (comparisons : Counter) : res float :=
  total ←! float_of_int (total comparisons);
  Ok (PyFloat.mul r total).

Section Comparisons.
Variable str_float : float → string.
Variable r : float.

(** The body of the loop of [comparisons]. Only a tuple has a length above
    1; a predicate cannot be sliced as [Compounder.__call__] does. *)
Definition comparisons_step (simple_cover : dict Counter)
    (state : Compounder * dict float) (pred : item)
  : res (Compounder * dict float) :=
  let '(compounder, comparison_count) := state in
  if (1 <? item_len pred)%nat then
    match pred with
    | Compound preds =>
        c ←! call simple_cover compounder (to_key str_float <$> preds);
        e ←! estimate r c.2;
        Ok (c.1, dset comparison_count (item_key str_float pred) e)
    | Single _ => Raise TypeError
    end
  else
    counter ←! getitem simple_cover (item_key str_float pred);
    e ←! estimate r counter;
    Ok (compounder, dset comparison_count (item_key str_float pred) e).

(** [comparisons(predicates, simple_cover)]: the loop takes the values of
    the generator one by one, and meets its exception, if it has one, after
    the last of them. *)
Definition comparisons (predicates : generator item)
    (simple_cover : dict Counter) : res (dict float) :=
  state ←! foldM (comparisons_step simple_cover) (Compounder_init, [])
                 predicates.1;
  match predicates.2 with
  | Some e => Raise e
  | None => Ok state.2
  end.

End Comparisons.

End Comparisons.

(* ===================================================================== *)
(** * predicates.py: SearchPredicate *)
(* ===================================================================== *)

Module Search.

Section SearchPredicate.
Context {value : Type} `{Countable value}.
Context {doc : Type}.
(** [if column:] *)
Variable truthy : value → bool.
Variable preprocess : value → doc.

(** The attributes of a search predicate that [__call__], [freeze] and
    [reset] read or write. The cache maps a field value and the flag
    [target] to the block keys computed for them. *)
Record SearchPredicate := {
  field : string;
  threshold : float;
  index : option (@Canopy.Index doc);
  _cache : gmap (value * bool) (list string);
}.

Definition set_cache (self : SearchPredicate)
    (c : gmap (value * bool) (list string)) : SearchPredicate :=
  {| field := field self; threshold := threshold self; index := index self;
     _cache := c |}.

Definition set_index (self : SearchPredicate)
    (i : option (@Canopy.Index doc)) : SearchPredicate :=
  {| field := field self; threshold := threshold self; index := i;
     _cache := _cache self |}.

(** [[self.index._doc_to_id[doc]]] for a target record, the result of
    [self.index.search(doc, self.threshold)] otherwise. *)
Definition centers (idx : @Canopy.Index doc) (self : SearchPredicate)
    (d : doc) (target : bool) : res (list Z) :=
  if target then
    doc_id ←! from_option KeyError (Canopy._doc_to_id idx d);
    Ok [doc_id]
  else Ok (Canopy.search idx d (threshold self)).

(** [SearchPredicate.__call__]: the predicate after the call and what the
    call returns or raises. *)
Definition __call__ (self : SearchPredicate) (record : gmap string value)
    (target : bool) : SearchPredicate * res (list string) :=
  match record !! field self with
  | None => (self, Raise KeyError)
  | Some column =>
      if truthy column then
        match _cache self !! (column, target) with
        | Some cached => (self, Ok cached)
        | None =>
            let d := preprocess column in
            match index self with
            | None => (self, Raise AttributeError)
            | Some idx =>
                match centers idx self d target with
                | Raise e => (self, Raise e)
                | Ok centers =>
                    let result := pretty <$> centers in
                    (set_cache self
                       (<[(column, target) := result]> (_cache self)),
                     Ok result)
                end
            end
        end
      else (self, Ok [])
  end.

(** One of the dictionary comprehensions of [freeze],
    [{(record[self.field], target): self(record, target) for record in
    records}]: the predicate after the calls and the dictionary, from the
    entries made so far. *)
Fixpoint freeze_entries (self : SearchPredicate)
    (records : list (gmap string value)) (target : bool)
    (entries : gmap (value * bool) (list string))
  : res (SearchPredicate * gmap (value * bool) (list string)) :=
  match records with
  | [] => Ok (self, entries)
  | record :: records' =>
      column ←! from_option KeyError (record !! field self);
      match __call__ self record target with
      | (self, Ok keys) =>
          freeze_entries self records' target
            (<[(column, target) := keys]> entries)
      | (_, Raise e) => Raise e
      end
  end.

(** [freeze]. The first dictionary replaces the cache; the second is
    computed by calls that write to that new cache, and then updates it. *)
Definition freeze (self : SearchPredicate)
    (records_1 records_2 : list (gmap string value)) : res SearchPredicate :=
  r1 ←! freeze_entries self records_1 false ∅;
  let self := set_cache r1.1 r1.2 in
  r2 ←! freeze_entries self records_2 true ∅;
  let self := set_cache r2.1 (r2.2 ∪ _cache r2.1) in
  Ok (set_index self None).

(** [reset] *)
Definition reset (self : SearchPredicate) : SearchPredicate :=
  set_index (set_cache self ∅) None.

End SearchPredicate.

End Search.

(* ===================================================================== *)
(** * predicates.py: CompoundPredicate.__call__ *)
(* ===================================================================== *)

Module CompoundPredicate.
Import Dict.

(** [u':'.join(block_key)] *)
Fixpoint join_colon (block_key : list string) : string :=
  match block_key with
  | [] => EmptyString
  | [x] => x
  | x :: rest => x +:+ ":" +:+ join_colon rest
  end.

(** [itertools.product] of the lists of [predicate_keys], in the order
    Python yields the tuples: the last one changes fastest. *)
Fixpoint product (predicate_keys : list (list string)) : list (list string) :=
  match predicate_keys with
  | [] => [[]]
  | keys :: rest =>
      flat_map (λ k, cons k <$> product rest) keys
  end.

Section Call.
Context {record : Type}.
(** A call of one of the predicates of the tuple on the record, with the
    keyword arguments of the call: [target], or nothing. *)
Variable call : key → record → bool → res (list string).

(** [CompoundPredicate.__call__] *)
Definition __call__ (self : list key) (record_ : record) (target : bool)
  : res (list string) :=
  predicate_keys ←! mapM (λ predicate, call predicate record_ target) self;
  Ok (join_colon <$> product predicate_keys).

(** A call of any predicate: a compound predicate computes its keys from
    those of its parts. *)
Definition call_any (predicate : key) (record_ : record) (target : bool)
  : res (list string) :=
  match predicate with
  | CP items => __call__ items record_ target
  | Pred _ => call predicate record_ target
  end.

End Call.

End CompoundPredicate.

(* ===================================================================== *)
(** * labeler.py: BlockLearner.fit_transform and learn_predicates *)
(* ===================================================================== *)

Module Fit.
Import Dict Cover BranchBound.

(** [if label], for a label read from the array [y] of floats: every value
    but zero is true, a NaN too. *)
Definition truthy_label (label : float) : bool :=
  negb (PyFloat.eqb label (PyFloat.of_int 0)).

(** [[pair for label, pair in zip(y, pairs) if label]] *)
Definition dupes_of {record : Type} (y : list float)
    (pairs : list (record * record)) : list (record * record) :=
  (filter (λ lp, truthy_label lp.1 = true) (zip y pairs)).*2.

Section FitTransform.
Context {record : Type} `{EqDecision record}.
Variable call : key → record → bool → res (list string).
Variable set_iter : list key → list key.

(** The attributes of a [labeler.BlockLearner] that [fit_transform] reads
    or writes: those that [predict] and [candidate_scores] use, the dupes
    of the last learning, and the [training] learner in [block_learner]. *)
Record BlockLearner := {
  learner : Labeler.BlockLearner;
  _old_dupes : list (record * record);
  block_learner : BlockLearner.BlockLearner;
}.

(** [BlockLearner.__init__]: no predicates, no cached labels, no dupes. *)
Definition BlockLearner_init (block_learner : BlockLearner.BlockLearner)
  : BlockLearner :=
  {| learner := {| Labeler.current_predicates := [];
                   Labeler._cached_labels := None |};
     _old_dupes := [];
     block_learner := block_learner |}.

(** [fit_transform]: the learner after the call, unless the call raises. *)
Definition fit_transform (self : BlockLearner)
    (pairs : list (record * record)) (y : list float) : res BlockLearner :=
  let dupes := dupes_of y pairs in
  let new_dupes := filter (λ pair, pair ∉ _old_dupes self) dupes in
  labels ←! Labeler.predict call (learner self) new_dupes;
  let new_uncovered := negb (forallb (λ label, negb (label =? 0)) labels) in
  if new_uncovered then
    final ←! BlockLearner.learn call set_iter (block_learner self) dupes
               (PyFloat.of_int 1);
    Ok {| learner := {| Labeler.current_predicates := predicates_of final.1;
                        Labeler._cached_labels := None |};
          _old_dupes := dupes;
          block_learner := block_learner self |}
  else Ok self.

End FitTransform.

Section LearnPredicates.
Context {record : Type}.
Variable call : key → record → bool → res (list string).
Variable set_iter : list key → list key.
(** [hasattr(pred, 'index')] *)
Variable has_index : key → bool.

Definition set_predicates (self : BlockLearner.BlockLearner)
    (predicates : list key) : BlockLearner.BlockLearner :=
  {| BlockLearner.predicates := predicates;
     BlockLearner.comparison_count := BlockLearner.comparison_count self;
     BlockLearner.compound_length := BlockLearner.compound_length self |}.

(** [DisagreementLearner.learn_predicates], on the [training] learner of
    the blocker: that learner after the call, and what the call returns or
    raises. *)
Definition learn_predicates (block_learner : BlockLearner.BlockLearner)
    (y : list float) (pairs : list (record * record))
    (recall : float) (index_predicates : bool)
  : BlockLearner.BlockLearner * res (rules * bool) :=
  let dupes := dupes_of y pairs in
  if negb index_predicates then
    let old_preds := BlockLearner.predicates block_learner in
    let no_index_predicates :=
      filter (λ pred, has_index pred = false) old_preds in
    let block_learner := set_predicates block_learner no_index_predicates in
    match BlockLearner.learn call set_iter block_learner dupes recall with
    | Raise e => (block_learner, Raise e)
    | Ok learned_preds =>
        (set_predicates block_learner old_preds, Ok learned_preds)
    end
  else
    (block_learner,
     BlockLearner.learn call set_iter block_learner dupes recall).

End LearnPredicates.

End Fit.
(* ===================================================================== *)
(** * Notions used to state and prove the properties *)
(* ===================================================================== *)

Module FloatOrderDefs.

(** A float that is not a NaN has a place in the lexicographic order of
    triples of integers; the two zeros share theirs. *)
Definition rank (x : float) : Z * Z * Z :=
  match x with
  | S754_zero _ => (0, 0, 0)
  | S754_infinity false => (2, 0, 0)
  | S754_infinity true => (-2, 0, 0)
  | S754_nan => (0, 0, 0)
  | S754_finite false m e => (1, e, Zpos m)
  | S754_finite true m e => (-1, - e, Zneg m)
  end.

Definition lex_lt (x y : Z * Z * Z) : Prop :=
  x.1.1 < y.1.1
  ∨ (x.1.1 = y.1.1 ∧ (x.1.2 < y.1.2 ∨ (x.1.2 = y.1.2 ∧ x.2 < y.2))).

Definition lex_cmp (x y : Z * Z * Z) : comparison :=
  match x.1.1 ?= y.1.1 with
  | Eq => match x.1.2 ?= y.1.2 with
          | Eq => x.2 ?= y.2
          | c => c
          end
  | c => c
  end.

(** The sort keys of [dominators] whose float is not a NaN. *)
Definition valid_key (k : float * nat) : Prop := PyFloat.is_nan k.1 = false.

Definition key_lt (x y : float * nat) : Prop :=
  lex_lt (rank x.1) (rank y.1) ∨ (rank x.1 = rank y.1 ∧ (x.2 < y.2)%nat).

(** In a list sorted by [lt], [x] may stay in front of [y]. *)
Definition in_order {A K} (lt : K → K → bool) (x y : K * A) : Prop :=
  lt y.1 x.1 = false.

End FloatOrderDefs.

Module CoverAux.
Import Dict Py Cover.

(** [d[c]] for a key that is there. *)
Definition val (d : cover) (c : key) : gset nat := default ∅ (dget d c).

(** The compound of two predicates that [compound] makes: the tuple of the
    two in the order of their representations. *)
Definition pair_key (p q : key) : key :=
  if String.ltb (key_str p) (key_str q) then CP [p; q] else CP [q; p].

(** The sort key [dominators] gives [x]. *)
Definition skey (cost : dict float) (d : cover) (x : key) : float * nat :=
  (PyFloat.neg (default S754_nan (dget cost x)), size (val d x)).

(** [better_or_equal] of [dominators], for candidate [c] and the later
    predicate [o]. *)
Definition better (cost : dict float) (d : cover) (c o : key) : bool :=
  match dget d c, dget cost c, dget d o, dget cost o with
  | Some cm, Some cc, Some om, Some oc =>
      bool_decide (cm ⊆ om) && PyFloat.leb oc cc
  | _, _, _, _ => false
  end.

(** The candidates that no later one beats. *)
Fixpoint survivors (b : key → key → bool) (ordered : list key) : list key :=
  match ordered with
  | [] => []
  | c :: later =>
      if existsb (b c) later then survivors b later
      else c :: survivors b later
  end.

(** Both maps have the key. *)
Definition known (cost : dict float) (d : cover) (c : key) : Prop :=
  is_Some (dget d c) ∧ is_Some (dget cost c).

(** The keys with their sort keys, as [dominators] sorts them. *)
Definition sorted_rows (cost : dict float) (d : cover)
  : list (float * nat * key) :=
  sort_decorated tuple_lt ((λ x, (skey cost d x, x)) <$> dkeys d).

Definition ordered (cost : dict float) (d : cover) : list key :=
  (sorted_rows cost d).*2.

(** What [dominators] leaves of [d]. *)
Definition d1 (cost : dict float) (d : cover) : cover :=
  (λ c, (c, val d c)) <$> survivors (better cost d) (ordered cost d).

(** The cost map gives every key of the cover a cost that is a number. *)
Definition costs_defined (cost : dict float) (d : cover) : Prop :=
  ∀ k, k ∈ dkeys d →
       ∃ c, dget cost k = Some c ∧ PyFloat.is_nan c = false.

End CoverAux.

Module BranchBoundAux.
Import Dict Py Cover BranchBound.

(** The value [search] may return for a target and the cover it was first
    called with: that cover itself, or a tuple of predicates whose covers
    in it together hold at least [target] pairs. *)
Definition feasible (target : Z) (original : cover) (r : rules) : Prop :=
  r = Candidates original
  ∨ ∃ partial n, r = Tuple partial
                 ∧ covered (Some original) partial = Ok n
                 ∧ target ≤ Z.of_nat n.

(** A searcher past its first call. *)
Definition started (original : cover) (self : BranchBound) : Prop :=
  original_cover self = Some original
  ∧ ∃ r, cheapest self = Some r ∧ feasible (target self) original r.

(** Every one of these predicates has a [count]. *)
Definition counted (counts : dict float) (l : list key) : Prop :=
  ∀ k, k ∈ l → is_Some (dget counts k).

End BranchBoundAux.

Module LearnAux.

(** The least integer that is not below [x * n], for the exact value of
    the float [x]; [None] for an infinity or a NaN. *)
Definition ceil_mul (x : float) (n : Z) : option Z :=
  match x with
  | S754_zero _ => Some 0
  | S754_finite s m e =>
      let v := (if s then Zneg m else Zpos m) * n in
      Some (match e with
            | Z0 => v
            | Zpos p => v * 2 ^ Zpos p
            | Zneg p => - ((- v) / 2 ^ Zpos p)
            end)
  | _ => None
  end.

(** Every id in every set of the cover is below [n]. *)
Definition bounded (n : nat) (d : Cover.cover) : Prop :=
  ∀ v, v ∈ Dict.dvalues d → ∀ x, x ∈ v → (x < n)%nat.

End LearnAux.

Module LabelerAux.
Import Labeler.

(** [f] and [g] order the elements of [l] alike. *)
Definition same_order {A} (f g : A → float) (l : list A) : Prop :=
  ∀ a b, a ∈ l → b ∈ l →
         PyFloat.leb (f a) (f b) = PyFloat.leb (g a) (g b).

(** The regression scores of the candidates in the disagreement set. *)
Definition conflict_scores (probs : list (float * float)) : list float :=
  (filter (λ row, disagreement row = true) probs).*1.

End LabelerAux.


(* ===================================================================== *)
(** * The value of a double, and rounding to nearest *)
(* ===================================================================== *)

Module FloatValue.

(** The value of a finite double in units of [2^-1074], the smallest
    positive double; 0 for the zeros (and for what is not finite). *)
Definition units (x : float) : Z :=
  match x with
  | S754_finite s m e => cond_Zopp s (Zpos m * 2 ^ (e + 1074))
  | _ => 0
  end.

(** A zero, or a finite double in its one binary64 representation. *)
Definition finite64 (x : float) : bool :=
  match x with
  | S754_zero _ => true
  | S754_finite _ m e => bounded PyFloat.prec PyFloat.emax m e
  | _ => false
  end.

(** A double in the interval [0, 1]; 1 is [2^1074] units. *)
Definition in_unit_interval (x : float) : Prop :=
  finite64 x = true ∧ 0 ≤ units x ≤ 2 ^ 1074.




End FloatValue.

(* ===================================================================== *)
(** * More notions used to state and prove the properties *)
(* ===================================================================== *)

Module CoverAux2.
Import Dict Py Cover.

(** What the loop of [_cover] keeps: every entry is the coverage of one of
    the predicates seen, not empty; a predicate seen without an entry
    covers nothing. *)
Definition cover_inv {record : Type}
    (call : key → record → bool → res (list string))
    (pairs : list (record * record)) (seen : list key)
    (d : cover) : Prop :=
  wf d
  ∧ (∀ p s, dget d p = Some s →
            p ∈ seen ∧ s ≠ ∅ ∧ coverage_from call p 0 pairs = Ok s)
  ∧ (∀ p, p ∈ seen → dget d p = None →
          coverage_from call p 0 pairs = Ok ∅).

End CoverAux2.

Module PruneAux.
Import Dict Py Cover BranchBound.

(** The test of [remove_dominated] for the predicate [p]: the dominator
    costs no more, and covers every pair that [p] covers. *)
Definition dominates (counts : dict float) (coverage : cover)
    (dominator p : key) : bool :=
  match dget counts dominator, dget counts p,
        dget coverage dominator, dget coverage p with
  | Some dc, Some pc, Some dominant_cover, Some cover =>
      PyFloat.leb dc pc && bool_decide (cover ⊆ dominant_cover)
  | _, _, _, _ => false
  end.

End PruneAux.

Module LabelerAux2.
Import Dict Numpy Labeler.

Section Defs.
Context {record weights : Type}.
Variable call : key → record → bool → res (list string).
Variable predict_row : weights → list float → float.

(** The state [pop] is written for: the classifier holds a matrix with a
    row of distances for each candidate, and the labels the blocker has
    cached, if any, are one for each candidate. *)
Definition aligned (self : @DisagreementLearner record weights) : Prop :=
  (∃ rows, distances (classifier self) = Array rows
           ∧ length rows = length (candidates self))
  ∧ (∀ labels, _cached_labels (blocker self) = Some labels →
               length labels = length (candidates self)).

(** One [pop] for each draw, collecting the pairs returned. *)
Fixpoint pops (self : @DisagreementLearner record weights)
    (draws : list float)
  : res (@DisagreementLearner record weights * list (record * record)) :=
  match draws with
  | [] => Ok (self, [])
  | target :: draws' =>
      match pop call predict_row self target with
      | (self', Ok out) => r ←! pops self' draws'; Ok (r.1, out ++ r.2)
      | (_, Raise e) => Raise e
      end
  end.

End Defs.

End LabelerAux2.

Module ComparisonsAux.
Import Dict Py Counter Comparisons.

(** The product of the counters of the predicates of a tuple, read from
    its last item backwards, as [Compounder.__call__] computes it without
    its cache. *)
Fixpoint product_rev (cover : dict Counter) (reversed : list key)
  : res Counter :=
  match reversed with
  | [] => Raise IndexError
  | b :: reversed_a =>
      match reversed_a with
      | [] => Raise ValueError
      | [a] =>
          a_cover ←! getitem cover a;
          b_cover ←! getitem cover b;
          Ok (mul a_cover b_cover)
      | _ :: _ :: _ =>
          a_cover ←! product_rev cover reversed_a;
          b_cover ←! getitem cover b;
          Ok (mul a_cover b_cover)
      end
  end.

Definition product (cover : dict Counter) (compound_predicate : list key)
  : res Counter :=
  product_rev cover (rev compound_predicate).

(** The cache of a compounder holds the product of the tuple it names. *)
Definition consistent (cover : dict Counter) (self : Compounder) : Prop :=
  ∀ a, _cached_predicate self = Some a →
       ∃ c, _cached_cover self = Some c ∧ product cover a = Ok c.

(** The product of the counts of [k] in the counters of the predicates. *)
Definition count_product (cover : dict Counter) (preds : list key) (k : nat)
  : Z :=
  foldr Z.mul 1
    ((λ p, match dget cover p with
           | Some c => count c k
           | None => 0
           end) <$> preds).

(** A value of the generator whose predicates all have a counter. *)
Definition known (str_float : float → string) (cover : dict Counter)
    (x : item) : Prop :=
  match x with
  | Single p => PredicateRepr.to_key str_float p ∈ dkeys cover
  | Compound preds =>
      ∃ a b, preds = [a; b]
             ∧ PredicateRepr.to_key str_float a ∈ dkeys cover
             ∧ PredicateRepr.to_key str_float b ∈ dkeys cover
  end.

End ComparisonsAux.

Module CompoundAux.
Import Predicates.


End CompoundAux.

Module CompoundCallAux.
Import Dict Cover.

Definition colon : ascii := ":"%char.

(** No block key holds a colon. *)
Definition colon_free (keys : list string) : Prop :=
  ∀ k, k ∈ keys → colon ∉ list_ascii_of_string k.

End CompoundCallAux.

Module SoundAux.
Import Dict Cover.

(** A key made of the predicates of [preds]: one of them, or a tuple of
    simple ones of them. *)
Definition from_predicates (preds : list key) (k : key) : Prop :=
  match k with
  | Pred _ => k ∈ preds
  | CP items => ∀ q, q ∈ items → is_simple q = true ∧ q ∈ preds
  end.

Section Sound.
Context {record : Type}.
Variable call : key → record → bool → res (list string).

(** The predicate [k], or every part of the tuple [k], blocks the two
    records of pair [i] together. *)
Definition sound (pairs : list (record * record)) (k : key) (i : nat)
  : Prop :=
  ∃ records, pairs !! i = Some records
             ∧ match k with
               | Pred _ => blocks_together call k records = Ok true
               | CP items =>
                   ∀ q, q ∈ items → blocks_together call q records = Ok true
               end.

(** Every entry of the cover is made of the predicates and holds only
    pairs that its key blocks together. *)
Definition cover_sound (preds : list key) (pairs : list (record * record))
    (d : cover) : Prop :=
  ∀ k s, dget d k = Some s →
         from_predicates preds k ∧ ∀ i, i ∈ s → sound pairs k i.

End Sound.

End SoundAux.

Module SearchAux.
Import Search.

Section Agrees.
Context {value : Type} `{Countable value}.
Context {doc : Type}.
Variable truthy : value → bool.
Variable preprocess : value → doc.

(** The predicate [s] is [s0] after some calls: the same field, threshold
    and index, a cache that holds what the cache of [s0] holds, and whose
    entries are the answers that [s0] gives. *)
Definition agrees (s0 s : @SearchPredicate value _ _ doc) : Prop :=
  field s = field s0 ∧ threshold s = threshold s0 ∧ index s = index s0
  ∧ (∀ k v, _cache s0 !! k = Some v → _cache s !! k = Some v)
  ∧ (∀ c t v, _cache s !! (c, t) = Some v → truthy c = true →
              ∀ r : gmap string value,
                r !! field s0 = Some c →
                (__call__ truthy preprocess s0 r t).2 = Ok v).

(** The entries of a comprehension of [freeze] for the flag [target]. *)
Definition entries_of (s0 : @SearchPredicate value _ _ doc) (target : bool)
    (entries : gmap (value * bool) (list string)) : Prop :=
  ∀ c t v, entries !! (c, t) = Some v →
           t = target
           ∧ ∀ r : gmap string value,
               r !! field s0 = Some c →
               (__call__ truthy preprocess s0 r t).2 = Ok v.

End Agrees.

End SearchAux.
(* ===================================================================== *)
(** * Concrete inputs *)
(* ===================================================================== *)

Module CanopyExamples.
Import Canopy.

(** A predicate over string fields, indexed over three names. *)
Definition example_index : @Index string :=
  {| _doc_to_id := λ d,
       if decide (d = "john smith") then Some 0
       else if decide (d = "jon smith") then Some 1
       else if decide (d = "jane doe") then Some 2
       else None;
     search := λ d _,
       if decide (d = "john smith") then [0; 1]
       else if decide (d = "jon smith") then [0; 1]
       else if decide (d = "jane doe") then [2]
       else [] |}.

Definition example_predicate : @CanopyPredicate string _ _ string :=
  {| field := "name"; threshold := PyFloat.of_scaled 1 (-1);
     index := Some example_index; canopy := ∅; _cache := ∅ |}.

Definition nonempty (s : string) : bool := negb (String.eqb s EmptyString).

Definition named (s : string) : gmap string string := {[ "name" := s ]}.

End CanopyExamples.

Module CoverExamples.
Import Dict Cover.

Definition p : key := Pred "SimplePredicate: (wholeFieldPredicate, name)".
Definition q : key := Pred "SimplePredicate: (firstTokenPredicate, name)".
Definition r : key := Pred "SimplePredicate: (tokenFieldPredicate, city)".

(** Three predicates with costs 10, 5 and 5 and covers {1,2,3}, {1,2,3}
    and {4}. *)
Definition three_cover : cover :=
  [(p, {[1; 2; 3]}%nat : gset nat); (q, {[1; 2; 3]}%nat : gset nat);
   (r, {[4]}%nat : gset nat)].

Definition three_costs : dict float :=
  [(p, PyFloat.of_int 10); (q, PyFloat.of_int 5); (r, PyFloat.of_int 5)].

(** Two predicates that both cover pair 0. *)
Definition two_cover : cover :=
  [(Pred "a", {[0%nat]} : gset nat); (Pred "b", {[0%nat]} : gset nat)].

End CoverExamples.

Module LearnExamples.
Import Dict Cover BlockLearner.

(** Records with one field, and two predicates on it. *)
Definition whole : key := Pred "SimplePredicate: (wholeFieldPredicate, name)".
Definition three : key :=
  Pred "SimplePredicate: (sameThreeCharStartPredicate, name)".

Definition call (p : key) (r : gmap string string) (target : bool)
  : res (list string) :=
  match r !! "name" with
  | None => Raise KeyError
  | Some column =>
      if decide (column = EmptyString) then Ok []
      else if decide (p = whole) then Ok [column]
      else if decide (p = three) then Ok [substring 0 3 column]
      else Ok []
  end.

Definition named (s : string) : gmap string string := {[ "name" := s ]}.

(** Ten labelled matches: the first is an exact duplicate, the other nine
    differ in the last letter. *)
Definition matches : list (gmap string string * gmap string string) :=
  (named "smith", named "smith")
    :: replicate 9 (named "smith", named "smithe").

Definition learner : BlockLearner :=
  {| predicates := [whole; three];
     comparison_count := [(whole, PyFloat.of_int 1);
                          (three, PyFloat.of_int 100)];
     compound_length := 2 |}.

(** The float [0.10000000000000009], which is [900719925474100 / 2^53]. *)
Definition recall : float := PyFloat.of_scaled 900719925474100 (-53).

End LearnExamples.

Module LabelerExamples.
Import Dict Labeler.

(** A regression that reads the probability off the first distance. *)
Definition score_first (w : unit) (row : list float) : float :=
  default (PyFloat.of_int 0) (head row).

(** A distance matrix with one column. *)
Definition one_column (pairs : list (string * string)) : list (list float) :=
  (λ _, [PyFloat.of_scaled 1 (-1)]) <$> pairs.

(** No predicate is called in these examples. *)
Definition no_call (p : key) (r : string) (target : bool) : res (list string) :=
  Ok [].

Definition two_candidates : list (string * string) :=
  [("john smith", "jon smith"); ("jane doe", "jane d")].

(** The block learner has found both candidates covered. *)
Definition both_covered : @BlockLearner :=
  {| current_predicates := []; _cached_labels := Some [1; 1] |}.

(** The disagreement learner as its constructor leaves it. *)
Definition new_learner : @DisagreementLearner string unit :=
  _common_init one_column tt two_candidates both_covered.

(** The floats 0.25 and 0.25 + 2^-54, next to each other. *)
Definition quarter : float := PyFloat.of_scaled 1 (-2).
Definition quarter_up : float := PyFloat.of_scaled (2 ^ 52 + 1) (-54).


(** Two draws of the uniform distribution on [0, 1): 0.125 and 0.875. *)
Definition draw_low : float := PyFloat.of_scaled 1 (-3).
Definition draw_high : float := PyFloat.of_scaled 7 (-3).


(** Regression scores 0.9, 0.1 and 0.8 against block scores 0, 0 and 1. *)
Definition three_candidates : list (string * string) :=
  [("a", "a'"); ("b", "b'"); ("c", "c'")].

Definition one_conflict : @DisagreementLearner string unit :=
  {| candidates := three_candidates;
     classifier :=
       {| distances := Array [[PyFloat.of_scaled 8106479329266893 (-53)];
                              [PyFloat.of_scaled 7205759403792794 (-56)];
                              [PyFloat.of_scaled 7205759403792794 (-53)]];
          distance_matrix := [];
          rlr_weights := tt; y := [1; 0] |};
     blocker := {| current_predicates := [];
                   _cached_labels := Some [0; 0; 1] |} |}.

End LabelerExamples.


(* ===================================================================== *)
(** * More concrete inputs *)
(* ===================================================================== *)

Module ComparisonsExamples.
Import Predicates PredicateRepr Dict Counter Comparisons.

(** Three counters of pair ids. *)
Definition counters : dict Counter :=
  [(Pred "a", of_iterable [1; 2; 2]%nat);
   (Pred "b", of_iterable [2; 3]%nat);
   (Pred "c", of_iterable [2; 2; 5]%nat)].

(** The thresholds of these examples are all written [0.8]. *)
Definition str_float (x : float) : string := "0.8".

Definition first_token : pyfunc :=
  {| func_name := "firstTokenPredicate";
     func_compounds_with_same_field := None |}.

(** A simple cover of three predicates on two fields. *)
Definition simple_cover : list (Predicate * Counter) :=
  [(String_ wholeFieldPredicate "name", of_iterable [1; 2]%nat);
   (String_ first_token "name", of_iterable [1; 2; 2]%nat);
   (Exists_ "city", of_iterable [2; 3]%nat)].

End ComparisonsExamples.

Module FitExamples.
Import Dict Fit.

(** Predicates on the field [name], compounds included. *)
Definition call : key → gmap string string → bool → res (list string) :=
  CompoundPredicate.call_any LearnExamples.call.

(** A block learner just made, and ten pairs all marked as matches. *)
Definition new_learner : @Fit.BlockLearner (gmap string string) :=
  BlockLearner_init LearnExamples.learner.

Definition all_matches : list float := replicate 10 (PyFloat.of_int 1).

(** The index predicates of these examples: none but [three]. *)
Definition has_index (k : key) : bool := bool_decide (k = LearnExamples.three).

End FitExamples.

Module SearchExamples.
Import Search.

(** A search predicate on the field [name] with the index of
    [CanopyExamples], whose cache already holds an answer for one name as a
    record and for another as a target. *)
Definition example_predicate : @SearchPredicate string _ _ string :=
  {| field := "name"; threshold := PyFloat.of_scaled 1 (-1);
     index := Some CanopyExamples.example_index;
     _cache := {[ ("john smith", false) := ["7"];
                  ("jane doe", true) := ["99"] ]} |}.

Definition records_1 : list (gmap string string) :=
  [CanopyExamples.named "john smith"; CanopyExamples.named "jon smith"].

Definition records_2 : list (gmap string string) :=
  [CanopyExamples.named "jane doe"].

End SearchExamples.
(* ===================================================================== *)
(** * The order of floats, and of the sort keys made of them *)
(* ===================================================================== *)

Module FloatOrder.
Import FloatOrderDefs.

Lemma compare_rank (a b : float) :
  PyFloat.is_nan a = false → PyFloat.is_nan b = false →
  SFcompare a b = Some (lex_cmp (rank a) (rank b)).
Proof.
  destruct a as [sa|sa| |sa ma ea], b as [sb|sb| |sb mb eb];
    try discriminate; intros _ _;
    try (by destruct sa); try (by destruct sb); try (by destruct sa, sb).
  destruct sa, sb; try done; unfold SFcompare, lex_cmp, rank; simpl.
  rewrite Z.compare_opp, (Z.compare_antisym ea eb).
  destruct (ea ?= eb); done.
Qed.

Lemma lex_cmp_lt (x y : Z * Z * Z) : lex_cmp x y = Lt ↔ lex_lt x y.
Proof.
  destruct x as [[x1 x2] x3], y as [[y1 y2] y3].
  unfold lex_cmp, lex_lt; simpl.
  destruct (Z.compare_spec x1 y1), (Z.compare_spec x2 y2),
    (Z.compare_spec x3 y3); split; try done; try lia; intros _; lia.
Qed.

Lemma lex_cmp_eq (x y : Z * Z * Z) : lex_cmp x y = Eq ↔ x = y.
Proof.
  destruct x as [[x1 x2] x3], y as [[y1 y2] y3].
  unfold lex_cmp; simpl.
  destruct (Z.compare_spec x1 y1), (Z.compare_spec x2 y2),
    (Z.compare_spec x3 y3); split; try done; try congruence;
    intros [= ? ? ?]; lia.
Qed.

Lemma ltb_rank (a b : float) :
  PyFloat.is_nan a = false → PyFloat.is_nan b = false →
  PyFloat.ltb a b = true ↔ lex_lt (rank a) (rank b).
Proof.
  intros Ha Hb. unfold PyFloat.ltb, SFltb.
  rewrite (compare_rank a b Ha Hb), <- lex_cmp_lt.
  destruct (lex_cmp (rank a) (rank b)); split; done.
Qed.

Lemma eqb_rank (a b : float) :
  PyFloat.is_nan a = false → PyFloat.is_nan b = false →
  PyFloat.eqb a b = true ↔ rank a = rank b.
Proof.
  intros Ha Hb. unfold PyFloat.eqb, SFeqb.
  rewrite (compare_rank a b Ha Hb), <- lex_cmp_eq.
  destruct (lex_cmp (rank a) (rank b)); split; done.
Qed.

Lemma leb_rank (a b : float) :
  PyFloat.is_nan a = false → PyFloat.is_nan b = false →
  PyFloat.leb a b = true ↔ lex_lt (rank a) (rank b) ∨ rank a = rank b.
Proof.
  intros Ha Hb. unfold PyFloat.leb, SFleb.
  rewrite (compare_rank a b Ha Hb), <- lex_cmp_lt, <- lex_cmp_eq.
  destruct (lex_cmp (rank a) (rank b)); split; try done; auto.
  intros [?|?]; done.
Qed.

Lemma neg_not_nan (a : float) :
  PyFloat.is_nan a = false → PyFloat.is_nan (PyFloat.neg a) = false.
Proof. by destruct a. Qed.

Lemma tuple_lt_spec (x y : float * nat) :
  valid_key x → valid_key y → Py.tuple_lt x y = true ↔ key_lt x y.
Proof.
  intros Hx Hy. unfold Py.tuple_lt, key_lt.
  destruct (PyFloat.eqb x.1 y.1) eqn:E.
  - apply eqb_rank in E; [|done..]. rewrite Nat.ltb_lt.
    split; [auto|]. intros [Hlt|[_ ?]]; [|done].
    rewrite E in Hlt. unfold lex_lt in Hlt. lia.
  - rewrite ltb_rank by done.
    assert (rank x.1 ≠ rank y.1).
    { intros Heq. apply eqb_rank in Heq; [|done..]. congruence. }
    split; [auto|]. intros [?|[? _]]; done.
Qed.

Lemma triple_eq (a b c a' b' c' : Z) :
  (a, b, c) = (a', b', c') ↔ a = a' ∧ b = b' ∧ c = c'.
Proof. split; [by intros [= -> -> ->]|by intros (-> & -> & ->)]. Qed.

Lemma key_lt_asym (x y : float * nat) : key_lt x y → ¬ key_lt y x.
Proof.
  unfold key_lt, lex_lt.
  destruct (rank x.1) as [[x1 x2] x3], (rank y.1) as [[y1 y2] y3]; simpl.
  rewrite !triple_eq. lia.
Qed.

Lemma key_lt_negtrans (x y z : float * nat) :
  key_lt x z → key_lt x y ∨ key_lt y z.
Proof.
  unfold key_lt, lex_lt.
  destruct (rank x.1) as [[x1 x2] x3], (rank y.1) as [[y1 y2] y3],
    (rank z.1) as [[z1 z2] z3]; simpl.
  rewrite !triple_eq. lia.
Qed.

End FloatOrder.

(* ===================================================================== *)
(** * Properties of [sorted] *)
(* ===================================================================== *)

Module SortedFacts.
Import Py FloatOrderDefs.

Section Generic.
Context {A K : Type}.
Variable lt : K → K → bool.

Lemma insert_sorted_perm (x : K * A) (l : list (K * A)) :
  insert_sorted lt x l ≡ₚ x :: l.
Proof.
  induction l as [|y l IH]; simpl; [done|].
  destruct (lt y.1 x.1); [|done].
  rewrite IH. apply Permutation_swap.
Qed.

Lemma sort_decorated_perm (l : list (K * A)) : sort_decorated lt l ≡ₚ l.
Proof.
  induction l as [|x l IH]; simpl; [done|].
  by rewrite insert_sorted_perm, IH.
Qed.

(** Sorting a list that is in order changes nothing. *)
Lemma sort_decorated_sorted (l : list (K * A)) :
  StronglySorted (in_order lt) l → sort_decorated lt l = l.
Proof.
  induction 1 as [|x l Hl IH Hx]; simpl; [done|].
  rewrite IH. destruct l as [|y l]; simpl; [done|].
  apply Forall_cons in Hx as [Hxy _]. unfold in_order in Hxy.
  by rewrite Hxy.
Qed.

(** On keys that [lt] orders as a strict weak order, the result is in
    order. *)
Variable valid : K → Prop.
Hypothesis lt_asym :
  ∀ x y, valid x → valid y → lt x y = true → lt y x = false.
Hypothesis lt_negtrans :
  ∀ x y z, valid x → valid y → valid z →
    lt x z = true → lt x y = true ∨ lt y z = true.

Lemma insert_sorted_in_order (x : K * A) (l : list (K * A)) :
  valid x.1 → Forall (λ y, valid y.1) l →
  StronglySorted (in_order lt) l →
  StronglySorted (in_order lt) (insert_sorted lt x l).
Proof.
  intros Hx Hv Hl. induction Hl as [|y l Hl IH Hy]; simpl.
  - repeat constructor.
  - apply Forall_cons in Hv as [Hvy Hv].
    destruct (lt y.1 x.1) eqn:E.
    + constructor; [by apply IH|].
      rewrite insert_sorted_perm. constructor; [|done].
      unfold in_order. by apply lt_asym.
    + constructor; [by constructor|].
      constructor; [done|].
      rewrite Forall_forall in Hy, Hv. apply Forall_forall. intros z Hz.
      unfold in_order. destruct (lt z.1 x.1) eqn:Ez; [|done].
      destruct (lt_negtrans z.1 y.1 x.1) as [Hzy|Hyx]; auto.
      * specialize (Hy z Hz). unfold in_order in Hy. congruence.
      * congruence.
Qed.

Lemma sort_decorated_in_order (l : list (K * A)) :
  Forall (λ y, valid y.1) l → StronglySorted (in_order lt) (sort_decorated lt l).
Proof.
  induction l as [|x l IH]; intros Hv; simpl; [constructor|].
  apply Forall_cons in Hv as [Hx Hv].
  apply insert_sorted_in_order; [done| |by apply IH].
  by rewrite sort_decorated_perm.
Qed.

End Generic.

Lemma in_order_sublist {A K} (lt : K → K → bool) (l1 l2 : list (K * A)) :
  l1 `sublist_of` l2 →
  StronglySorted (in_order lt) l2 → StronglySorted (in_order lt) l1.
Proof.
  induction 1 as [|x l1 l2 Hsub IH|x l1 l2 Hsub IH]; intros Hs.
  - constructor.
  - apply StronglySorted_inv in Hs as [Hs Hx].
    constructor; [by apply IH|].
    rewrite Forall_forall in Hx |- *. intros y Hy. apply Hx.
    by eapply elem_of_sublist.
  - apply StronglySorted_inv in Hs as [Hs _]. by apply IH.
Qed.

(** The sort keys of [dominators], for costs that are not NaNs. *)
Lemma sort_keys_in_order {A} (l : list (float * nat * A)) :
  Forall (λ y, valid_key y.1) l →
  StronglySorted (in_order tuple_lt) (sort_decorated tuple_lt l).
Proof.
  apply (sort_decorated_in_order tuple_lt valid_key).
  - intros x y Hx Hy Hlt. apply (FloatOrder.tuple_lt_spec x y Hx Hy) in Hlt.
    destruct (tuple_lt y x) eqn:E; [|done].
    apply (FloatOrder.tuple_lt_spec y x Hy Hx) in E.
    by destruct (FloatOrder.key_lt_asym x y).
  - intros x y z Hx Hy Hz Hlt.
    apply (FloatOrder.tuple_lt_spec x z Hx Hz) in Hlt.
    destruct (FloatOrder.key_lt_negtrans x y z Hlt) as [?|?].
    + left. by apply FloatOrder.tuple_lt_spec.
    + right. by apply FloatOrder.tuple_lt_spec.
Qed.

End SortedFacts.
(* ===================================================================== *)
(** * Properties of predicates.py *)
(* ===================================================================== *)

Module PredicatesFacts.
Import Predicates.

Example exists_same_field :
  compounds_with (Exists_ "name") (Simple wholeFieldPredicate "name") = false.
Proof. reflexivity. Qed.

(** C6, as stated, fails: a TF-IDF canopy predicate on field [name]
    compounds with a simple predicate on the same field. *)
Lemma index_compounds_with_same_field_counterexample :
  ¬ (∀ p q : Predicate,
       is_index p = true → field q = field p → compounds_with p q = false).
Proof.
  intros H.
  specialize (H (Index TfidfTextCanopy (PyFloat.of_scaled 1 (-1)) "name")
                (Simple wholeFieldPredicate "name") eq_refl eq_refl).
  discriminate H.
Qed.

(** C6, amended: an index predicate [p] refuses to compound with [q]
    exactly when [q] is on the same field and of the same concrete class
    as [p]; with any other predicate, also one on the same field, it
    compounds. *)
Theorem index_compounds_with_iff (p q : Predicate) :
  is_index p = true →
  (compounds_with p q = false ↔
   field q = field p ∧ type_of q = type_of p).
Proof.
  destruct p as [f fld|f fld|fld|c t fld]; simpl; try discriminate.
  intros _. repeat case_decide; split; intros Hq;
    try discriminate; try tauto; try reflexivity.
Qed.

Lemma index_compounds_with_iff_witness :
  compounds_with (Index LevenshteinSearch (PyFloat.of_scaled 1 (-1)) "city")
                 (Index LevenshteinSearch (PyFloat.of_scaled 3 (-2)) "city")
    = false
  ↔ "city" = "city" ∧ LevenshteinSearchPredicate = LevenshteinSearchPredicate.
Proof.
  apply (index_compounds_with_iff
           (Index LevenshteinSearch (PyFloat.of_scaled 1 (-1)) "city")
           (Index LevenshteinSearch (PyFloat.of_scaled 3 (-2)) "city")).
  reflexivity.
Defined.

End PredicatesFacts.

(* ===================================================================== *)
(** * Properties of CanopyPredicate *)
(* ===================================================================== *)

Module CanopyFacts.
Import Canopy CanopyExamples.

Section Sticky.

Context {value : Type} `{Countable value} {doc : Type}.
Variable truthy : value → bool.
Variable preprocess : value → doc.

Abbreviation predicate := (@CanopyPredicate value _ _ doc).

Lemma assign_members_keeps (doc_id : Z) (members : list Z)
    (c : gmap Z (option Z)) (d : Z) (v : option Z) :
  c !! d = Some v → assign_members doc_id members c !! d = Some v.
Proof.
  unfold assign_members. revert c.
  induction members as [|m members IH]; intros c Hc; simpl; [done|].
  apply IH. destruct (c !! m) eqn:Hm; [done|].
  rewrite lookup_insert_ne; [done|]. intros ->. congruence.
Qed.

(** A member that had no entry is assigned to the new center. *)
Lemma assign_members_fresh (doc_id : Z) (members : list Z)
    (c : gmap Z (option Z)) (m : Z) :
  m ∈ members → c !! m = None →
  assign_members doc_id members c !! m = Some (Some doc_id).
Proof.
  unfold assign_members. revert c.
  induction members as [|m' members IH]; intros c Hin Hc; simpl.
  - by apply elem_of_nil in Hin.
  - destruct (decide (m = m')) as [->|Hne].
    + rewrite Hc. apply (assign_members_keeps doc_id members).
      by rewrite lookup_insert_eq.
    + apply elem_of_cons in Hin as [?|Hin]; [done|].
      apply IH; [done|]. destruct (c !! m'); [done|].
      by rewrite lookup_insert_ne.
Qed.

(** One call never changes an entry the canopy map already has. *)
Lemma call_keeps (self : predicate) (record : gmap string value)
    (d : Z) (v : option Z) :
  canopy self !! d = Some v →
  canopy (call truthy preprocess self record).1 !! d = Some v.
Proof.
  intros Hd. unfold call.
  destruct (record !! field self) as [column|]; [|done].
  destruct (truthy column); [|done].
  destruct (_cache self !! column); [done|].
  destruct (index self) as [idx|]; [|done].
  destruct (_doc_to_id idx (preprocess column)) as [doc_id|]; [|done].
  destruct (canopy self !! doc_id) eqn:Hid; [done|].
  assert (d ≠ doc_id) by (intros ->; congruence).
  destruct (search idx (preprocess column) (threshold self)) eqn:Hs; simpl;
    rewrite lookup_insert_ne by done.
  - done.
  - by apply (assign_members_keeps doc_id (z :: l)).
Qed.

Lemma calls_keep (records : list (gmap string value)) (self : predicate)
    (d : Z) (v : option Z) :
  canopy self !! d = Some v →
  canopy (calls truthy preprocess self records) !! d = Some v.
Proof.
  unfold calls. revert self.
  induction records as [|r records IH]; intros self Hd; simpl; [done|].
  apply IH. by apply call_keeps.
Qed.

(** C7: once the canopy map gives a document id [d] a center [c], no
    sequence of later calls of the predicate on records changes
    [canopy[d]]. *)
Theorem canopy_sticky (self : predicate)
    (records : list (gmap string value)) (d c : Z) :
  canopy self !! d = Some (Some c) →
  canopy (calls truthy preprocess self records) !! d = Some (Some c).
Proof. apply calls_keep. Qed.

(** The members of a freshly created canopy get its center, and keep it
    through every later call. *)
Lemma fresh_canopy_members_sticky (self : predicate)
    (record : gmap string value) (later : list (gmap string value))
    (column : value) (idx : Index) (doc_id m : Z) :
  record !! field self = Some column →
  truthy column = true →
  _cache self !! column = None →
  index self = Some idx →
  _doc_to_id idx (preprocess column) = Some doc_id →
  canopy self !! doc_id = None →
  m ∈ search idx (preprocess column) (threshold self) →
  canopy self !! m = None →
  canopy (calls truthy preprocess self (record :: later)) !! m
    = Some (Some doc_id).
Proof.
  intros Hr Ht Hc Hi Hd Hn Hm Hf.
  unfold calls. simpl. apply calls_keep.
  unfold call. rewrite Hr, Ht, Hc, Hi, Hd, Hn.
  destruct (search idx (preprocess column) (threshold self)) eqn:Hs.
  - by apply elem_of_nil in Hm.
  - simpl. destruct (decide (m = doc_id)) as [->|Hne].
    + by rewrite lookup_insert_eq.
    + rewrite lookup_insert_ne by done.
      by apply (assign_members_fresh doc_id (z :: l)).
Qed.

End Sticky.

Example canopy_scenario :
  let p1 := call nonempty id example_predicate (named "john smith") in
  let p2 := call nonempty id p1.1 (named "jon smith") in
  p1.2 = Ok ["0"%string] ∧ p2.2 = Ok ["0"%string].
Proof. vm_compute. done. Qed.

Lemma canopy_sticky_witness :
  canopy (calls nonempty id
            (call nonempty id example_predicate (named "john smith")).1
            [named "jon smith"; named "jane doe"]) !! 1
  = Some (Some 0).
Proof.
  apply (canopy_sticky nonempty id
           (call nonempty id example_predicate (named "john smith")).1
           [named "jon smith"; named "jane doe"] 1 0).
  vm_compute. reflexivity.
Defined.

End CanopyFacts.

(* ===================================================================== *)
(** * Properties of Counter *)
(* ===================================================================== *)

Module CounterFacts.
Import Counter.

Lemma foldr_add_perm (l1 l2 : list Z) :
  l1 ≡ₚ l2 → foldr Z.add 0 l1 = foldr Z.add 0 l2.
Proof. induction 1; simpl; lia. Qed.

Lemma sum_values_empty : sum_values ∅ = 0.
Proof. unfold sum_values. by rewrite map_to_list_empty. Qed.

Lemma sum_values_insert (d : gmap nat Z) (k : nat) (v : Z) :
  d !! k = None → sum_values (<[k := v]> d) = v + sum_values d.
Proof.
  intros Hk. unfold sum_values.
  rewrite (foldr_add_perm _ (((k, v) :: map_to_list d).*2)); [done|].
  apply fmap_Permutation. by apply map_to_list_insert.
Qed.

(** The sum of the values is the sum of the lookups over the key set. *)
Lemma sum_values_dom (d : gmap nat Z) :
  sum_values d = sum_over (λ k, default 0 (d !! k)) (dom d).
Proof.
  induction d as [|k v d Hk IH] using map_ind.
  - rewrite sum_values_empty. unfold sum_over.
    by rewrite dom_empty_L, elements_empty.
  - rewrite sum_values_insert by done. unfold sum_over.
    rewrite dom_insert_L.
    assert (Hnot : k ∉ dom d) by by apply not_elem_of_dom.
    rewrite (foldr_add_perm _
      ((λ k0, default 0 (<[k:=v]> d !! k0)) <$> (k :: elements (dom d)))).
    2:{ apply fmap_Permutation. by apply elements_union_singleton. }
    simpl. rewrite lookup_insert_eq. simpl. f_equal.
    rewrite IH. unfold sum_over. f_equal.
    apply list_fmap_ext. intros i k' Hk'.
    apply list_elem_of_lookup_2, elem_of_elements in Hk'.
    rewrite lookup_insert_ne; [done|]. intros ?; subst. done.
Qed.

(** The mapping of a product, whichever side is iterated. *)
Lemma mul_lookup (A B : Counter) (k : nat) :
  _d (mul A B) !! k =
    match _d A !! k, _d B !! k with
    | Some a, Some b => Some (a * b)
    | _, _ => None
    end.
Proof.
  unfold mul. destruct (decide (len A ≤ len B)%nat); simpl;
    rewrite map_lookup_imap;
    destruct (_d A !! k) as [a|], (_d B !! k) as [b|]; simpl; try done.
  f_equal. lia.
Qed.

Lemma mul_dom (A B : Counter) :
  dom (_d (mul A B)) = dom (_d A) ∩ dom (_d B).
Proof.
  apply set_eq. intros k.
  rewrite elem_of_intersection, !elem_of_dom, mul_lookup.
  destruct (_d A !! k), (_d B !! k); split;
    try (intros [[? ?] [? ?]]); try (intros [? ?]); try done; eauto.
Qed.

Lemma mul_total_of_mapping (A B : Counter) :
  total (mul A B) = sum_values (_d (mul A B)).
Proof. unfold mul. by destruct (decide (len A ≤ len B)%nat). Qed.

Lemma mul_comm (A B : Counter) : mul A B = mul B A.
Proof.
  assert (Hd : _d (mul A B) = _d (mul B A)).
  { apply map_eq. intros k. rewrite !mul_lookup.
    destruct (_d A !! k), (_d B !! k); try done. f_equal. lia. }
  pose proof (mul_total_of_mapping A B) as HAB.
  pose proof (mul_total_of_mapping B A) as HBA.
  destruct (mul A B) as [dab tab], (mul B A) as [dba tba]. simpl in *.
  subst. done.
Qed.

(** C3: the product [A * B] has the common keys of [A] and [B] as its key
    set, the product of the two counts at each common key, the sum of these
    products as its total, and [A * B] equals [B * A]. *)
Theorem counter_mul_spec (A B : Counter) :
  dom (_d (mul A B)) = dom (_d A) ∩ dom (_d B)
  ∧ (∀ k, k ∈ dom (_d A) ∩ dom (_d B) →
          _d (mul A B) !! k = Some (count A k * count B k))
  ∧ total (mul A B)
      = sum_over (λ k, count A k * count B k) (dom (_d A) ∩ dom (_d B))
  ∧ mul A B = mul B A
  ∧ eq (mul A B) (mul B A) = true.
Proof.
  split; [apply mul_dom|].
  split.
  { intros k Hk. apply elem_of_intersection in Hk as [[a Ha]%elem_of_dom
      [b Hb]%elem_of_dom].
    rewrite mul_lookup. unfold count. by rewrite Ha, Hb. }
  split.
  { rewrite mul_total_of_mapping, sum_values_dom, mul_dom.
    unfold sum_over. f_equal. apply list_fmap_ext. intros i k Hk.
    apply list_elem_of_lookup_2, elem_of_elements, elem_of_intersection in Hk
      as [[a Ha]%elem_of_dom [b Hb]%elem_of_dom].
    rewrite mul_lookup. unfold count. by rewrite Ha, Hb. }
  split; [apply mul_comm|].
  unfold eq. apply bool_decide_eq_true. by rewrite mul_comm.
Qed.

Example counter_mul_example :
  let A := of_iterable [1; 1; 2; 5]%nat in
  let B := of_iterable [1; 5; 5; 5; 7]%nat in
  _d (mul A B) = {[ 1%nat := 2; 5%nat := 3 ]} ∧ total (mul A B) = 5.
Proof. vm_compute. done. Qed.

End CounterFacts.

(* ===================================================================== *)
(** * Properties of dictionaries *)
(* ===================================================================== *)

Module DictFacts.
Import Dict.

Section Lookup.
Context {V : Type}.
Implicit Types (d : dict V) (k : key) (v : V).

Lemma dget_None d k : dget d k = None ↔ k ∉ dkeys d.
Proof.
  unfold dkeys. induction d as [|[k' v'] d IH]; simpl.
  - split; [intros _; apply not_elem_of_nil|done].
  - rewrite not_elem_of_cons. case_decide; subst.
    + split; [done|]. intros [? _]. done.
    + rewrite IH. split; [|tauto]. intros ?; split; [congruence|done].
Qed.

Lemma dget_is_Some d k : is_Some (dget d k) ↔ k ∈ dkeys d.
Proof.
  rewrite <- not_eq_None_Some, dget_None.
  split; [apply dec_stable|tauto].
Qed.

Lemma dget_elem_of d k v : dget d k = Some v → (k, v) ∈ d.
Proof.
  induction d as [|[k' v'] d IH]; simpl; [done|].
  case_decide; subst.
  - intros [= ->]. left.
  - intros ?. right. by apply IH.
Qed.

Lemma dget_dset_eq d k v : dget (dset d k v) k = Some v.
Proof.
  induction d as [|[k' v'] d IH]; simpl.
  - by rewrite decide_True.
  - case_decide; simpl; subst.
    + by rewrite decide_True.
    + by rewrite decide_False.
Qed.

Lemma dget_dset_ne d k k' v : k ≠ k' → dget (dset d k v) k' = dget d k'.
Proof.
  intros Hne. induction d as [|[k0 v0] d IH]; simpl.
  - by rewrite decide_False.
  - case_decide; simpl; subst.
    + by rewrite !decide_False.
    + by rewrite IH.
Qed.

Lemma dset_new d k v : dget d k = None → dset d k v = d ++ [(k, v)].
Proof.
  induction d as [|[k' v'] d IH]; simpl; [done|].
  case_decide; [done|]. intros ?. by rewrite IH.
Qed.

Lemma dkeys_dset_old d k v : is_Some (dget d k) → dkeys (dset d k v) = dkeys d.
Proof.
  unfold dkeys. induction d as [|[k' v'] d IH]; simpl.
  - by intros [? ?].
  - case_decide; simpl; [done|]. intros ?. f_equal. by apply IH.
Qed.

Lemma dkeys_dset_subseteq d k v : dkeys d ⊆ dkeys (dset d k v).
Proof.
  intros k' Hk'. apply dget_is_Some. apply dget_is_Some in Hk'.
  destruct (decide (k = k')) as [->|?].
  - by rewrite dget_dset_eq.
  - by rewrite dget_dset_ne.
Qed.

Lemma wf_dset d k v : wf d → wf (dset d k v).
Proof.
  unfold wf. intros Hd. destruct (dget d k) eqn:E.
  - by rewrite dkeys_dset_old.
  - rewrite dset_new by done. unfold dkeys. rewrite fmap_app. simpl.
    apply NoDup_app. split; [done|]. split; [|apply NoDup_singleton].
    intros k' Hk' ->%list_elem_of_singleton. by apply dget_None in E.
Qed.

(** A dictionary is the list of its keys with their values. *)
Lemma wf_by_keys d (f : key → V) :
  wf d → (∀ k v, dget d k = Some v → f k = v) →
  (λ k, (k, f k)) <$> dkeys d = d.
Proof.
  unfold wf, dkeys. induction d as [|[k v] d IH]; simpl; [done|].
  intros [Hk Hd]%NoDup_cons Hf. f_equal.
  - f_equal. apply Hf. by rewrite decide_True.
  - apply IH; [done|]. intros k' v' Hk'. apply Hf.
    rewrite decide_False; [done|]. intros ->.
    apply Hk. apply dget_is_Some. eauto.
Qed.

Lemma dget_by_keys (l : list key) (f : key → V) k :
  k ∈ l → dget ((λ k, (k, f k)) <$> l) k = Some (f k).
Proof.
  induction l as [|k' l IH]; simpl; [by intros ?%elem_of_nil|].
  intros Hk. case_decide; subst; [done|].
  apply IH. by apply elem_of_cons in Hk as [?|?].
Qed.

Lemma dkeys_by_keys (l : list key) (f : key → V) :
  dkeys ((λ k, (k, f k)) <$> l) = l.
Proof.
  unfold dkeys. rewrite <- list_fmap_compose. apply list_fmap_id.
Qed.

End Lookup.

Lemma mapM_ok {A B} (f : A → res B) (g : A → B) (l : list A) :
  (∀ x, x ∈ l → f x = Ok (g x)) → mapM f l = Ok (g <$> l).
Proof.
  induction l as [|x l IH]; intros Hf; simpl; [done|].
  rewrite Hf by left. simpl. rewrite IH; [done|].
  intros y Hy. apply Hf. by right.
Qed.

End DictFacts.

(* ===================================================================== *)
(** * Properties of Cover.dominators *)
(* ===================================================================== *)

Module DominatorsFacts.
Import Dict Py Cover CoverAux DictFacts FloatOrderDefs SortedFacts.

Lemma existsb_sublist {A} (f : A → bool) (l1 l2 : list A) :
  l1 `sublist_of` l2 → existsb f l1 = true → existsb f l2 = true.
Proof.
  induction 1 as [|x l1 l2 _ IH|x l1 l2 _ IH]; simpl; [done| |].
  - rewrite !orb_true_iff. intros [?|?]; auto.
  - rewrite orb_true_iff. auto.
Qed.

Lemma survivors_sublist (b : key → key → bool) (l : list key) :
  survivors b l `sublist_of` l.
Proof.
  induction l as [|c l IH]; simpl; [done|].
  destruct (existsb (b c) l); by constructor.
Qed.

(** Those that survive once survive again. *)
Lemma survivors_idem (b : key → key → bool) (l : list key) :
  survivors b (survivors b l) = survivors b l.
Proof.
  induction l as [|c l IH]; simpl; [done|].
  destruct (existsb (b c) l) eqn:E; [done|]. simpl.
  destruct (existsb (b c) (survivors b l)) eqn:E'.
  - apply (existsb_sublist _ _ l) in E'; [congruence|].
    apply survivors_sublist.
  - by rewrite IH.
Qed.

(** No survivor is beaten by one that comes after it. *)
Lemma survivors_unbeaten (b : key → key → bool) (l l1 l2 : list key)
    (c : key) :
  survivors b l = l1 ++ c :: l2 → existsb (b c) l2 = false.
Proof.
  revert l1. induction l as [|x l IH]; intros l1; simpl.
  - by destruct l1.
  - destruct (existsb (b x) l) eqn:E; [apply IH|].
    destruct l1 as [|y l1]; simpl.
    + intros [= Hx Hl]. subst.
      destruct (existsb (b c) (survivors b l)) eqn:E'; [|done].
      apply (existsb_sublist _ _ l) in E'; [congruence|].
      apply survivors_sublist.
    + intros [= Hx Hl]. by apply (IH l1).
Qed.

Lemma existsb_ext_in {A} (f g : A → bool) (l : list A) :
  (∀ x, x ∈ l → f x = g x) → existsb f l = existsb g l.
Proof.
  induction l as [|x l IH]; intros Hfg; simpl; [done|].
  rewrite Hfg by left. rewrite IH; [done|]. intros y Hy. apply Hfg. by right.
Qed.

Lemma survivors_ext (b b' : key → key → bool) (l : list key) :
  (∀ c o, c ∈ l → o ∈ l → b c o = b' c o) → survivors b l = survivors b' l.
Proof.
  induction l as [|c l IH]; intros Hb; simpl; [done|].
  rewrite (existsb_ext_in (b c) (b' c)).
  2:{ intros o Ho. apply Hb; [left|by right]. }
  rewrite IH; [done|]. intros c' o Hc' Ho. apply Hb; by right.
Qed.

Section Loop.
Variable cost : dict float.
Variable d : cover.

Local Abbreviation known := (CoverAux.known cost d).

Lemma dominated_ok (c : key) (cm : gset nat) (cc : float) (later : list key) :
  dget d c = Some cm → dget cost c = Some cc →
  (∀ o, o ∈ later → known o) →
  dominated cost d cm cc later = Ok (existsb (better cost d c) later).
Proof.
  intros Hcm Hcc. induction later as [|o later IH]; intros Hk; simpl; [done|].
  destruct (Hk o) as [[om Hom] [oc Hoc]]; [left|].
  unfold getitem. rewrite Hom, Hoc. simpl.
  unfold better at 1. rewrite Hcm, Hcc, Hom, Hoc.
  destruct (bool_decide (cm ⊆ om) && PyFloat.leb oc cc); simpl; [done|].
  apply IH. intros o' Ho'. apply Hk. by right.
Qed.

Lemma dominators_loop_ok (ordered : list key) (dominants : cover) :
  NoDup ordered →
  (∀ c, c ∈ ordered → known c) →
  (∀ c, c ∈ ordered → dget dominants c = None) →
  dominators_loop cost d ordered dominants
  = Ok (dominants
          ++ ((λ c, (c, val d c)) <$> survivors (better cost d) ordered)).
Proof.
  revert dominants.
  induction ordered as [|c later IH]; intros dominants Hnd Hk Hfresh; simpl.
  - by rewrite app_nil_r.
  - apply NoDup_cons in Hnd as [Hc Hnd].
    destruct (Hk c) as [[cm Hcm] [cc Hcc]]; [left|].
    unfold getitem. rewrite Hcm, Hcc. simpl.
    rewrite (dominated_ok c cm cc later Hcm Hcc).
    2:{ intros o Ho. apply Hk. by right. }
    simpl. destruct (existsb (better cost d c) later).
    + apply IH; [done| |].
      * intros o Ho. apply Hk. by right.
      * intros o Ho. apply Hfresh. by right.
    + rewrite IH; [|done| |].
      * rewrite dset_new by (apply Hfresh; left).
        rewrite <- app_assoc. simpl. unfold val. by rewrite Hcm.
      * intros o Ho. apply Hk. by right.
      * intros o Ho. rewrite dget_dset_ne by (intros ->; done).
        apply Hfresh. by right.
Qed.

End Loop.

Section Idempotent.
Variable cost : dict float.
Variable d : cover.
Hypothesis d_wf : wf d.
Hypothesis cost_ok : costs_defined cost d.

Local Abbreviation sorted_rows := (CoverAux.sorted_rows cost d).
Local Abbreviation ordered := (CoverAux.ordered cost d).
Local Abbreviation d1 := (CoverAux.d1 cost d).

Lemma sorted_rows_perm :
  sorted_rows ≡ₚ (λ x, (skey cost d x, x)) <$> dkeys d.
Proof. apply sort_decorated_perm. Qed.

Lemma ordered_perm : ordered ≡ₚ dkeys d.
Proof.
  unfold ordered. rewrite sorted_rows_perm, <- list_fmap_compose.
  by rewrite list_fmap_id.
Qed.

Lemma known_keys (c : key) : c ∈ dkeys d → CoverAux.known cost d c.
Proof.
  intros Hc. split; [by apply dget_is_Some|].
  destruct (cost_ok c Hc) as (x & -> & _). eauto.
Qed.

Lemma sort_key_ok (x : key) :
  x ∈ dkeys d → sort_key cost d x = Ok (skey cost d x).
Proof.
  intros [[m Hm] [c Hc]]%known_keys. unfold sort_key, skey, getitem, val.
  by rewrite Hm, Hc.
Qed.

Lemma dominators_first : dominators cost d = Ok d1.
Proof.
  unfold dominators.
  rewrite (mapM_ok _ (λ x, (skey cost d x, x))).
  2:{ intros x Hx. by rewrite sort_key_ok. }
  simpl. fold sorted_rows. fold ordered.
  rewrite dominators_loop_ok; [done| | |done].
  - rewrite ordered_perm. apply d_wf.
  - intros c Hc. apply known_keys. by rewrite <- ordered_perm.
Qed.

Lemma d1_keys : dkeys d1 = survivors (better cost d) ordered.
Proof. apply dkeys_by_keys. Qed.

Lemma d1_keys_sub : dkeys d1 `sublist_of` ordered.
Proof. rewrite d1_keys. apply survivors_sublist. Qed.

Lemma d1_keys_in (c : key) : c ∈ dkeys d1 → c ∈ dkeys d.
Proof.
  intros Hc. rewrite <- ordered_perm.
  eapply elem_of_sublist; [done|apply d1_keys_sub].
Qed.

Lemma d1_wf : wf d1.
Proof.
  unfold wf. apply (sublist_NoDup _ ordered); [|apply d1_keys_sub].
  rewrite ordered_perm. apply d_wf.
Qed.

Lemma d1_get (c : key) : c ∈ dkeys d1 → dget d1 c = dget d c.
Proof.
  intros Hc. pose proof (d1_keys_in c Hc) as Hd.
  apply dget_is_Some in Hd as [m Hm].
  unfold d1. rewrite dget_by_keys by (by rewrite <- d1_keys).
  unfold val. by rewrite Hm.
Qed.

Lemma d1_costs : costs_defined cost d1.
Proof. intros k Hk. apply cost_ok. by apply d1_keys_in. Qed.

Lemma d1_skey (x : key) : x ∈ dkeys d1 → skey cost d1 x = skey cost d x.
Proof. intros Hx. unfold skey, val. by rewrite d1_get. Qed.

Lemma d1_better (c o : key) :
  c ∈ dkeys d1 → o ∈ dkeys d1 → better cost d1 c o = better cost d c o.
Proof. intros Hc Ho. unfold better. by rewrite !d1_get. Qed.

Lemma sorted_rows_in_order : StronglySorted (in_order tuple_lt) sorted_rows.
Proof.
  apply sort_keys_in_order. apply Forall_forall. intros [k x] Hx.
  apply list_elem_of_fmap in Hx as (y & [= -> ->] & Hy).
  destruct (cost_ok y Hy) as (c & Hc & Hnan).
  unfold valid_key, skey. simpl. rewrite Hc. simpl.
  by destruct c.
Qed.

Lemma sorted_rows_shape :
  (λ x, (skey cost d x, x)) <$> ordered = sorted_rows.
Proof.
  unfold ordered. rewrite <- list_fmap_compose.
  rewrite <- (list_fmap_id sorted_rows) at 2.
  apply list_fmap_ext. intros i [k x] Hx. simpl.
  apply list_elem_of_lookup_2 in Hx. rewrite sorted_rows_perm in Hx.
  by apply list_elem_of_fmap in Hx as (y & [= -> ->] & _).
Qed.

(** The survivors are already in sorted order. *)
Lemma d1_sorted :
  sort_decorated tuple_lt ((λ x, (skey cost d1 x, x)) <$> dkeys d1)
  = (λ x, (skey cost d x, x)) <$> dkeys d1.
Proof.
  rewrite (list_fmap_ext (λ x, (skey cost d1 x, x))
             (λ x, (skey cost d x, x)) (dkeys d1)).
  2:{ intros i x Hx. rewrite d1_skey; [done|].
      by eapply list_elem_of_lookup_2. }
  apply sort_decorated_sorted.
  apply (in_order_sublist _ _ sorted_rows); [|apply sorted_rows_in_order].
  rewrite <- sorted_rows_shape. apply fmap_sublist, d1_keys_sub.
Qed.

End Idempotent.

Lemma dominators_second (cost : dict float) (d : cover) :
  wf d → costs_defined cost d →
  dominators cost (d1 cost d) = Ok (d1 cost d).
Proof.
  intros Hwf Hcost.
  rewrite (dominators_first cost (d1 cost d));
    [|by apply d1_wf|by apply d1_costs].
  f_equal. unfold d1 at 1. unfold ordered, sorted_rows.
  rewrite d1_sorted by done.
  rewrite <- list_fmap_compose, list_fmap_id.
  rewrite (survivors_ext _ (better cost d)).
  2:{ intros c o Hc Ho. by apply d1_better. }
  rewrite d1_keys, survivors_idem.
  rewrite <- (d1_keys cost d).
  apply wf_by_keys; [by apply d1_wf|].
  intros k v Hk. unfold val. by rewrite Hk.
Qed.

Lemma dominators_unbeaten (cost : dict float) (d : cover)
    (l1 l2 : list key) (c o : key) :
  wf d → costs_defined cost d →
  dkeys (d1 cost d) = l1 ++ c :: l2 → o ∈ l2 →
  better cost (d1 cost d) c o = false.
Proof.
  intros Hwf Hcost Hkeys Ho.
  assert (Hc : c ∈ dkeys (d1 cost d)).
  { rewrite Hkeys. apply elem_of_app. right. left. }
  assert (Ho' : o ∈ dkeys (d1 cost d)).
  { rewrite Hkeys. apply elem_of_app. right. by right. }
  rewrite d1_better by done.
  rewrite d1_keys in Hkeys. apply survivors_unbeaten in Hkeys.
  destruct (better cost d c o) eqn:E; [|done].
  assert (existsb (better cost d c) l2 = true); [|congruence].
  apply existsb_exists. exists o. split; [|done].
  by apply list_elem_of_In.
Qed.

(** C5: [dominators] is idempotent. For a cover and a cost map that gives
    each of its keys a cost (a number, not a NaN), [dominators] returns a
    cover, and applying it to that cover again, with the same costs,
    returns it unchanged; in it, no predicate is followed by one whose cover
    is a superset of its cover and whose cost is at most its cost. *)
Theorem dominators_idempotent (cost : dict float) (d : cover) :
  wf d → costs_defined cost d →
  ∃ d', dominators cost d = Ok d' ∧ dominators cost d' = Ok d'
        ∧ ∀ l1 l2 c o, dkeys d' = l1 ++ c :: l2 → o ∈ l2 →
                       better cost d' c o = false.
Proof.
  intros Hwf Hcost. exists (d1 cost d).
  split; [by apply dominators_first|].
  split; [by apply dominators_second|].
  intros l1 l2 c o. by apply dominators_unbeaten.
Qed.

Example dominators_three :
  dominators CoverExamples.three_costs CoverExamples.three_cover
  = Ok [(CoverExamples.r, {[4]}%nat : gset nat);
        (CoverExamples.q, {[1; 2; 3]}%nat : gset nat)].
Proof. vm_compute. reflexivity. Qed.

Lemma dominators_idempotent_witness :
  ∃ d', dominators CoverExamples.three_costs CoverExamples.three_cover = Ok d'
        ∧ dominators CoverExamples.three_costs d' = Ok d'
        ∧ ∀ l1 l2 c o, dkeys d' = l1 ++ c :: l2 → o ∈ l2 →
                       better CoverExamples.three_costs d' c o = false.
Proof.
  apply (dominators_idempotent CoverExamples.three_costs
           CoverExamples.three_cover).
  - apply (bool_decide_unpack _). vm_compute. reflexivity.
  - intros k Hk.
    repeat (apply elem_of_cons in Hk as [->|Hk]);
      [eexists; split; vm_compute; reflexivity ..|].
    by apply elem_of_nil in Hk.
Defined.

End DominatorsFacts.

(* ===================================================================== *)
(** * Properties of Cover.compound *)
(* ===================================================================== *)

Module CompoundFacts.
Import Dict Py Cover CoverAux DictFacts FloatOrderDefs SortedFacts.

(** ** The order of strings *)

Lemma string_ltb_lt (a b : string) :
  String.ltb a b = true ↔ String_as_OT.lt a b.
Proof.
  rewrite <- String_as_OT.cmp_lt. unfold String.ltb, String_as_OT.cmp.
  destruct (String.compare a b); split; done.
Qed.

Lemma string_ltb_asym (a b : string) :
  String.ltb a b = true → String.ltb b a = false.
Proof.
  unfold String.ltb. rewrite (String.compare_antisym b a).
  by destruct (String.compare a b).
Qed.

Lemma string_ltb_irrefl (a : string) : String.ltb a a = false.
Proof.
  destruct (String.ltb a a) eqn:E; [|done].
  by rewrite (string_ltb_asym a a E) in E.
Qed.

Lemma string_ltb_negtrans (a b c : string) :
  String.ltb a c = true → String.ltb a b = true ∨ String.ltb b c = true.
Proof.
  intros Hac. destruct (String.compare a b) eqn:E.
  - apply String.compare_eq_iff in E. subst. by right.
  - left. unfold String.ltb. by rewrite E.
  - right. apply string_ltb_lt.
    apply (String_as_OT.lt_trans b a c); [|by apply string_ltb_lt].
    apply String_as_OT.cmp_lt. unfold String_as_OT.cmp.
    rewrite String.compare_antisym, E. done.
Qed.

Lemma sorted_by_str_in_order (l : list key) :
  StronglySorted (in_order String.ltb)
    (sort_decorated String.ltb ((λ x, (key_str x, x)) <$> l)).
Proof.
  apply (sort_decorated_in_order String.ltb (λ _, True)).
  - intros x y _ _. apply string_ltb_asym.
  - intros x y z _ _ _. apply string_ltb_negtrans.
  - by apply Forall_forall.
Qed.

Lemma sorted_perm {A K} (lt : K → K → bool) (key : A → K) (l : list A) :
  sorted lt key l ≡ₚ l.
Proof.
  unfold sorted. rewrite sort_decorated_perm, <- list_fmap_compose.
  by rewrite list_fmap_id.
Qed.

(** In the list sorted by representation, the key with the smaller
    representation comes first. *)
Lemma sorted_by_str_before (l : list key) (p q : key) :
  p ∈ l → q ∈ l → String.ltb (key_str p) (key_str q) = true →
  ∃ l1 l2, sorted String.ltb key_str l = l1 ++ p :: l2 ∧ q ∈ l2.
Proof.
  intros Hp Hq Hlt.
  pose proof (sorted_by_str_in_order l) as Hs.
  pose proof (sort_decorated_perm String.ltb ((λ x, (key_str x, x)) <$> l))
    as Hperm.
  unfold sorted.
  set (rows := sort_decorated String.ltb ((λ x, (key_str x, x)) <$> l)) in *.
  assert (Hrow : ∀ r, r ∈ rows → r.1 = key_str r.2).
  { intros r Hr. rewrite Hperm in Hr.
    by apply list_elem_of_fmap in Hr as (x & -> & _). }
  assert (Hpr : (key_str p, p) ∈ rows).
  { rewrite Hperm. apply list_elem_of_fmap. eauto. }
  assert (Hqr : (key_str q, q) ∈ rows).
  { rewrite Hperm. apply list_elem_of_fmap. eauto. }
  apply list_elem_of_split in Hpr as (r1 & r2 & Hrows).
  rewrite Hrows in Hs, Hqr |- *.
  exists (r1.*2), (r2.*2). split; [by rewrite fmap_app|].
  apply elem_of_app in Hqr as [Hq1|Hq2].
  - apply StronglySorted_app in Hs as (Hs & _ & _).
    specialize (Hs _ _ Hq1 (list_elem_of_here _ _)).
    unfold in_order in Hs. simpl in Hs. congruence.
  - apply elem_of_cons in Hq2 as [[= Hstr Heq]|Hq2].
    + subst. by rewrite string_ltb_irrefl in Hlt.
    + by apply (list_elem_of_fmap_2 snd) in Hq2.
Qed.

(** ** Combinations of two *)

Lemma combinations_1 {A} (l : list A) :
  combinations l 1 = (λ y, [y]) <$> l.
Proof.
  induction l as [|x l IH]; simpl; [done|].
  rewrite IH. f_equal. by destruct l.
Qed.

Lemma combinations_2_cons {A} (x : A) (l : list A) :
  combinations (x :: l) 2 = ((λ y, [x; y]) <$> l) ++ combinations l 2.
Proof.
  simpl. f_equal. rewrite combinations_1, <- list_fmap_compose. done.
Qed.

Lemma combinations_2_elem {A} (l : list A) (c : list A) :
  c ∈ combinations l 2 → ∃ a b, c = [a; b] ∧ a ∈ l ∧ b ∈ l.
Proof.
  induction l as [|x l IH]; [by intros ?%elem_of_nil|].
  rewrite combinations_2_cons, elem_of_app.
  intros [(y & -> & Hy)%list_elem_of_fmap|Hc].
  - exists x, y. split; [done|]. split; [left|by right].
  - destruct (IH Hc) as (a & b & -> & Ha & Hb).
    exists a, b. split; [done|]. split; by right.
Qed.

Lemma combinations_2_NoDup {A} (l : list A) :
  NoDup l → NoDup (combinations l 2).
Proof.
  induction l as [|x l IH]; [intros _; simpl; constructor|].
  intros [Hx Hl]%NoDup_cons. rewrite combinations_2_cons.
  apply NoDup_app. split; [|split; [|by apply IH]].
  - apply NoDup_fmap_2; [|done]. by intros y z [= ->].
  - intros c (y & -> & Hy)%list_elem_of_fmap Hc.
    apply combinations_2_elem in Hc as (a & b & [= <- <-] & Ha & _). done.
Qed.

Lemma combinations_2_before {A} (l1 l2 : list A) (p q : A) :
  q ∈ l2 → [p; q] ∈ combinations (l1 ++ p :: l2) 2.
Proof.
  intros Hq. induction l1 as [|x l1 IH]; simpl app.
  - rewrite combinations_2_cons, elem_of_app. left.
    apply list_elem_of_fmap. eauto.
  - rewrite combinations_2_cons, elem_of_app. by right.
Qed.

(** ** The loop over the combinations *)

Lemma foldM_app {A B} (f : B → A → res B) (b : B) (l1 l2 : list A) :
  foldM f b (l1 ++ l2) = (b' ←! foldM f b l1; foldM f b' l2).
Proof.
  revert b. induction l1 as [|x l1 IH]; intros b; simpl; [done|].
  destruct (f b x); simpl; [apply IH|done].
Qed.

(** One step on a pair of keys of the cover: nothing is raised, the keys
    stay, and only the key of the pair itself can change. *)
Lemma compound_one_pair (d : cover) (a b : key) :
  a ∈ dkeys d → b ∈ dkeys d →
  compound_one d [a; b]
  = Ok (if decide (val d a ∩ val d b = ∅) then d
        else dset d (CP [a; b]) (val d a ∩ val d b)).
Proof.
  intros [ca Ha]%dget_is_Some [cb Hb]%dget_is_Some.
  unfold compound_one, getitem, val. simpl. by rewrite Ha, Hb.
Qed.

Lemma compound_loop (cs : list (list key)) (d : cover) :
  (∀ c, c ∈ cs → ∃ a b, c = [a; b] ∧ a ∈ dkeys d ∧ b ∈ dkeys d) →
  ∃ d', foldM compound_one d cs = Ok d'
        ∧ dkeys d ⊆ dkeys d'
        ∧ ∀ k, (∀ c, c ∈ cs → k ≠ CP c) → dget d' k = dget d k.
Proof.
  revert d. induction cs as [|c cs IH]; intros d Hcs; simpl.
  - exists d. done.
  - destruct (Hcs c) as (a & b & -> & Ha & Hb); [left|].
    rewrite compound_one_pair by done. simpl.
    set (d0 := if decide (val d a ∩ val d b = ∅) then d
               else dset d (CP [a; b]) (val d a ∩ val d b)).
    assert (Hsub : dkeys d ⊆ dkeys d0).
    { unfold d0. case_decide; [done|apply dkeys_dset_subseteq]. }
    assert (Hget : ∀ k, k ≠ CP [a; b] → dget d0 k = dget d k).
    { intros k Hk. unfold d0. case_decide; [done|].
      by rewrite dget_dset_ne. }
    destruct (IH d0) as (d' & Hd' & Hsub' & Hget').
    { intros c Hc. destruct (Hcs c) as (a' & b' & -> & Ha' & Hb');
        [by right|]. exists a', b'. auto. }
    exists d'. split; [done|]. split; [by etrans|].
    intros k Hk. rewrite Hget'.
    + apply Hget. apply Hk. left.
    + intros c Hc. apply Hk. by right.
Qed.

(** The cover after [compound(2)]. *)
Lemma compound_2_pair (d : cover) (p q : key) :
  wf d → is_simple p = true → is_simple q = true →
  p ∈ dkeys d → q ∈ dkeys d →
  String.ltb (key_str p) (key_str q) = true →
  ∃ d', compound 2 d = Ok d'
        ∧ dget d' (CP [p; q])
          = (if decide (val d p ∩ val d q = ∅) then dget d (CP [p; q])
             else Some (val d p ∩ val d q))
        ∧ ∀ s, is_simple s = true → dget d' s = dget d s.
Proof.
  intros Hwf Hp Hq Hpd Hqd Hlt. unfold compound. simpl.
  set (l := sorted String.ltb key_str (dkeys d)).
  assert (Hperm : l ≡ₚ dkeys d) by apply sorted_perm.
  destruct (sorted_by_str_before (dkeys d) p q Hpd Hqd Hlt)
    as (l1 & l2 & Hl & Hq2). fold l in Hl.
  assert (Hin : [p; q] ∈ combinations l 2).
  { rewrite Hl. by apply combinations_2_before. }
  assert (Hnd : NoDup (combinations l 2)).
  { apply combinations_2_NoDup. rewrite Hperm. apply Hwf. }
  assert (Hkeys : ∀ c, c ∈ combinations l 2 →
                       ∃ a b, c = [a; b] ∧ a ∈ dkeys d ∧ b ∈ dkeys d).
  { intros c (a & b & -> & Ha & Hb)%combinations_2_elem.
    exists a, b. by rewrite <- !Hperm. }
  apply list_elem_of_split in Hin as (cs1 & cs2 & Hcs).
  rewrite Hcs in Hnd, Hkeys |- *.
  apply NoDup_app in Hnd as (_ & Hnot1 & [Hnot2 _]%NoDup_cons).
  rewrite foldM_app.
  destruct (compound_loop cs1 d) as (da & -> & Hsuba & Hgeta).
  { intros c Hc. apply Hkeys, elem_of_app. by left. }
  simpl.
  assert (Hpa : p ∈ dkeys da) by by apply Hsuba.
  assert (Hqa : q ∈ dkeys da) by by apply Hsuba.
  rewrite compound_one_pair by done. simpl.
  assert (Hsimple : ∀ s c, is_simple s = true → s ≠ CP c)
    by (by intros [] c Hs).
  assert (Hvp : val da p = val d p).
  { unfold val. rewrite Hgeta; [done|]. intros c _. by apply Hsimple. }
  assert (Hvq : val da q = val d q).
  { unfold val. rewrite Hgeta; [done|]. intros c _. by apply Hsimple. }
  rewrite Hvp, Hvq.
  set (db := if decide (val d p ∩ val d q = ∅) then da
             else dset da (CP [p; q]) (val d p ∩ val d q)).
  destruct (compound_loop cs2 db) as (d' & -> & Hsubb & Hgetb).
  { intros c Hc. destruct (Hkeys c) as (a & b & -> & Ha & Hb).
    { apply elem_of_app. right. by right. }
    exists a, b. split; [done|].
    assert (dkeys da ⊆ dkeys db).
    { unfold db. case_decide; [done|apply dkeys_dset_subseteq]. }
    split; auto. }
  simpl. exists d'. split; [done|]. split.
  - rewrite Hgetb.
    2:{ intros c Hc [= <-]. done. }
    unfold db. case_decide.
    + apply Hgeta. intros c Hc [= <-]. by apply (Hnot1 [p; q]); [|left].
    + apply dget_dset_eq.
  - intros s Hs. rewrite Hgetb by (intros c _; by apply Hsimple).
    unfold db. case_decide.
    + apply Hgeta. intros c _. by apply Hsimple.
    + rewrite dget_dset_ne by (intros <-; done).
      apply Hgeta. intros c _. by apply Hsimple.
Qed.

(** Two simple predicates that differ have representations that differ,
    and one of the two sorts first. *)
Lemma simple_str_order (p q : key) :
  is_simple p = true → is_simple q = true → p ≠ q →
  String.ltb (key_str p) (key_str q) = true
  ∨ String.ltb (key_str q) (key_str p) = true.
Proof.
  destruct p as [r|], q as [s|]; try done. simpl. intros _ _ Hne.
  unfold String.ltb. rewrite (String.compare_antisym s r).
  destruct (String.compare r s) eqn:E; [|by left|by right].
  apply String.compare_eq_iff in E. congruence.
Qed.

(** [compound(2)] raises nothing on a cover. *)
Lemma compound_2_returns (d : cover) : ∃ d', compound 2 d = Ok d'.
Proof.
  unfold compound. simpl.
  set (l := sorted String.ltb key_str (dkeys d)).
  destruct (compound_loop (combinations l 2) d) as (d' & Hd' & _).
  { intros c (a & b & -> & Ha & Hb)%combinations_2_elem.
    exists a, b. unfold l in Ha, Hb. by rewrite sorted_perm in Ha, Hb. }
  exists d'. by rewrite Hd'.
Qed.

(** C4. After [compound(2)] on a cover of simple predicates, for every two
    distinct predicates [p] and [q] of the cover, the compound of the two
    (the tuple of [p] and [q] in the order of their representations) is a
    key if and only if [cover[p] ∩ cover[q]] is not empty, its cover is then
    that intersection, and the covers of the simple predicates are
    unchanged. *)
Theorem compound_2_correct (d : cover) :
  wf d → (∀ k, k ∈ dkeys d → is_simple k = true) →
  ∃ d', compound 2 d = Ok d'
        ∧ (∀ p q, p ∈ dkeys d → q ∈ dkeys d → p ≠ q →
                  (is_Some (dget d' (pair_key p q))
                   ↔ val d p ∩ val d q ≠ ∅)
                  ∧ (val d p ∩ val d q ≠ ∅ →
                     dget d' (pair_key p q) = Some (val d p ∩ val d q)))
        ∧ ∀ s, is_simple s = true → dget d' s = dget d s.
Proof.
  intros Hwf Hsimple. destruct (compound_2_returns d) as [d' Hd'].
  exists d'. split; [done|].
  assert (Hnew : ∀ c, dget d (CP c) = None).
  { intros c. apply dget_None. intros Hc. by apply Hsimple in Hc. }
  assert (Hpair : ∀ a b, a ∈ dkeys d → b ∈ dkeys d →
            String.ltb (key_str a) (key_str b) = true →
            dget d' (CP [a; b])
            = (if decide (val d a ∩ val d b = ∅) then None
               else Some (val d a ∩ val d b))
            ∧ ∀ s, is_simple s = true → dget d' s = dget d s).
  { intros a b Ha Hb Hlt.
    destruct (compound_2_pair d a b Hwf (Hsimple a Ha) (Hsimple b Hb)
                Ha Hb Hlt) as (d0 & Hd0 & Hab & Hs).
    rewrite Hd' in Hd0. injection Hd0 as <-.
    by rewrite Hab, Hnew. }
  split.
  - intros p q Hp Hq Hne.
    assert (Hkey : dget d' (pair_key p q)
                   = (if decide (val d p ∩ val d q = ∅) then None
                      else Some (val d p ∩ val d q))).
    { unfold pair_key.
      destruct (String.ltb (key_str p) (key_str q)) eqn:Hlt.
      - by apply Hpair.
      - destruct (simple_str_order p q (Hsimple p Hp) (Hsimple q Hq) Hne)
          as [Hpq|Hqp]; [congruence|].
        rewrite (comm_L (∩) (val d p) (val d q)).
        by apply Hpair. }
    rewrite Hkey. case_decide as Hempty.
    + split; [|done]. split; [by intros [? ?]|done].
    + split; [|done]. split; [done|eauto].
  - intros s Hs. clear Hpair. revert Hd'. unfold compound. simpl.
    set (sl := sorted String.ltb key_str (dkeys d)).
    destruct (compound_loop (combinations sl 2) d) as (d0 & Hd0 & _ & Hget).
    { intros c (x & y & -> & Hx & Hy)%combinations_2_elem.
      exists x, y. unfold sl in Hx, Hy. by rewrite sorted_perm in Hx, Hy. }
    rewrite Hd0. simpl. intros [= <-]. apply Hget. intros c _. by destruct s.
Qed.

Lemma compound_2_correct_witness :
  ∃ d', compound 2 CoverExamples.three_cover = Ok d'
        ∧ (∀ p q, p ∈ dkeys CoverExamples.three_cover →
                  q ∈ dkeys CoverExamples.three_cover → p ≠ q →
                  (is_Some (dget d' (pair_key p q))
                   ↔ val CoverExamples.three_cover p
                       ∩ val CoverExamples.three_cover q ≠ ∅)
                  ∧ (val CoverExamples.three_cover p
                       ∩ val CoverExamples.three_cover q ≠ ∅ →
                     dget d' (pair_key p q)
                     = Some (val CoverExamples.three_cover p
                               ∩ val CoverExamples.three_cover q)))
        ∧ ∀ s, is_simple s = true →
               dget d' s = dget CoverExamples.three_cover s.
Proof.
  apply (compound_2_correct CoverExamples.three_cover).
  - apply (bool_decide_unpack _). vm_compute. reflexivity.
  - apply Forall_forall. vm_compute. repeat constructor.
Defined.

Example compound_three :
  compound 2 CoverExamples.three_cover
  = Ok (CoverExamples.three_cover
          ++ [(CP [CoverExamples.q; CoverExamples.p],
               {[1; 2; 3]}%nat : gset nat)]).
Proof. vm_compute. reflexivity. Qed.

End CompoundFacts.

(* ===================================================================== *)
(** * Properties of BranchBound.search *)
(* ===================================================================== *)

Module BranchBoundFacts.
Import Dict Py Cover BranchBound BranchBoundAux DictFacts.

Lemma dkeys_ddel {V} (d : dict V) (k : key) : dkeys (ddel d k) ⊆ dkeys d.
Proof.
  unfold dkeys. induction d as [|[k' v'] d IH]; simpl; [done|].
  case_decide; simpl.
  - intros x Hx. by right.
  - intros x [->|Hx]%elem_of_cons; [left|right; by apply IH].
Qed.

Lemma getitem_ok {V} (d : dict V) (k : key) :
  k ∈ dkeys d → ∃ v, getitem d k = Ok v.
Proof.
  intros [v Hv]%dget_is_Some. exists v. unfold getitem. by rewrite Hv.
Qed.

Lemma set_union_ok (s : gset nat) (sets : list (gset nat)) :
  ∃ u, set_union (s :: sets) = Ok u.
Proof. simpl. eauto. Qed.

(** A loop whose steps keep an invariant and raise nothing ends, and keeps
    the invariant. *)
Lemma foldM_inv {A B} (f : B → A → res B) (P : B → Prop) (Q : A → Prop)
    (l : list A) (b : B) :
  (∀ b x, P b → Q x → ∃ b', f b x = Ok b' ∧ P b') →
  Forall Q l → P b → ∃ b', foldM f b l = Ok b' ∧ P b'.
Proof.
  intros Hf. revert b. induction l as [|x l IH]; intros b Hl Hb; simpl.
  - eauto.
  - apply Forall_cons in Hl as [Hx Hl].
    destruct (Hf b x Hb Hx) as (b' & -> & Hb'). simpl. by apply IH.
Qed.

Section Search.
Variable counts : dict float.

Lemma count_ok (p : key) :
  is_Some (dget counts p) → ∃ c, count counts p = Ok c.
Proof. intros [c Hc]. exists c. unfold count. by rewrite Hc. Qed.

Lemma mapM_getitem_ok (orig : cover) (l : list key) :
  l ⊆ dkeys orig →
  ∃ sets, mapM (getitem orig) l = Ok sets ∧ length sets = length l.
Proof.
  induction l as [|k l IH]; intros Hl; simpl; [by exists []|].
  destruct (getitem_ok orig k) as [v ->]; [apply Hl; left|].
  destruct IH as (sets & -> & Hlen); [intros x Hx; apply Hl; by right|].
  simpl. exists (v :: sets). by rewrite <- Hlen.
Qed.

Lemma covered_ok (orig : cover) (partial : list key) :
  partial ⊆ dkeys orig → ∃ n, covered (Some orig) partial = Ok n.
Proof.
  intros Hp. destruct partial as [|p partial]; simpl; [eauto|].
  destruct (mapM_getitem_ok orig (p :: partial) Hp) as (sets & Hs & Hlen).
  simpl in Hs. rewrite Hs. simpl.
  destruct sets as [|s sets]; [done|]. simpl. eauto.
Qed.

Lemma score_ok (partial : list key) :
  counted counts partial → ∃ s, score counts partial = Ok s.
Proof.
  unfold score. generalize (S754_zero false).
  induction partial as [|p partial IH]; intros acc Hc; simpl; [eauto|].
  destruct (count_ok p) as [c ->]; [apply Hc; left|]. simpl.
  apply IH. intros k Hk. apply Hc. by right.
Qed.

Lemma within_window_ok (window : float) (candidates : cover) :
  counted counts (dkeys candidates) →
  ∃ c, within_window counts window candidates = Ok c
       ∧ dkeys c ⊆ dkeys candidates.
Proof.
  unfold within_window. intros Hc.
  assert (Hgen : ∀ (l acc : cover),
    counted counts (dkeys l) →
    ∃ c, foldM (λ acc '(p, cover),
                  c ←! count counts p;
                  Ok (if PyFloat.ltb c window then dset acc p cover
                      else acc)) acc l = Ok c
         ∧ ∀ k, k ∈ dkeys c → k ∈ dkeys acc ∨ k ∈ dkeys l).
  { induction l as [|[p cv] l IH]; intros acc Hl; simpl; [eauto|].
    destruct (count_ok p) as [c ->]; [apply Hl; left|]. simpl.
    destruct (IH (if PyFloat.ltb c window then dset acc p cv else acc))
      as (c' & -> & Hk); [intros k Hk; apply Hl; by right|].
    exists c'. split; [done|]. intros k Hk'.
    destruct (Hk k Hk') as [Hacc|?]; [|right; by right].
    destruct (PyFloat.ltb c window); [|by left].
    apply dget_is_Some in Hacc.
    destruct (decide (p = k)) as [->|Hne]; [right; left|].
    rewrite dget_dset_ne in Hacc by done. left. by apply dget_is_Some. }
  destruct (Hgen candidates [] Hc) as (c & Hc' & Hk).
  exists c. split; [done|]. intros k Hk'.
  destruct (Hk k Hk') as [[]%elem_of_nil|?]; done.
Qed.

Lemma reachable_ok (c : cover) : ∃ n, reachable c = Ok n.
Proof. destruct c as [|[k v] c]; simpl; eauto. Qed.

Lemma order_by_ok (candidates : cover) (p : key) :
  p ∈ dkeys candidates → counted counts (dkeys candidates) →
  ∃ k, order_by counts candidates p = Ok k.
Proof.
  intros Hp Hc. unfold order_by.
  destruct (getitem_ok candidates p Hp) as [v ->].
  destruct (count_ok p (Hc p Hp)) as [c ->]. simpl. eauto.
Qed.

Lemma max_by_ok (candidates : cover) :
  candidates ≠ [] → counted counts (dkeys candidates) →
  ∃ best, max_by counts candidates = Ok best ∧ best ∈ dkeys candidates.
Proof.
  intros Hne Hc. unfold max_by.
  destruct (dkeys candidates) as [|first rest] eqn:Hkeys.
  { by destruct candidates. }
  assert (Hin : ∀ k, k ∈ first :: rest → k ∈ dkeys candidates)
    by (by rewrite Hkeys).
  destruct (order_by_ok candidates first) as [k0 ->];
    [apply Hin; left|by rewrite <- Hkeys in Hc|]. simpl.
  assert (Hgen : ∀ (l : list key) (acc : key * (nat * float)),
    l ⊆ dkeys candidates → acc.1 ∈ dkeys candidates →
    ∃ b, foldM (λ '(best, kbest) p,
                  k ←! order_by counts candidates p;
                  Ok (if tuple_gt k kbest then (p, k) else (best, kbest)))
               acc l = Ok b ∧ b.1 ∈ dkeys candidates).
  { induction l as [|p l IH]; intros [b kb] Hl Hb; simpl; [eauto|].
    destruct (order_by_ok candidates p) as [k ->];
      [apply Hl; left|by rewrite <- Hkeys in Hc|]. simpl.
    apply IH; [intros x Hx; apply Hl; by right|].
    destruct (tuple_gt k kb); simpl; [apply Hl; left|done]. }
  destruct (Hgen rest (first, k0)) as (b & -> & Hb).
  - intros x Hx. apply Hin. by right.
  - apply Hin. left.
  - simpl. exists b.1. by rewrite <- Hkeys.
Qed.

Lemma remove_dominated_ok (coverage : cover) (dominator : key) :
  dominator ∈ dkeys coverage → counted counts (dkeys coverage) →
  ∃ c, remove_dominated counts coverage dominator = Ok c
       ∧ dkeys c ⊆ dkeys coverage.
Proof.
  intros Hd Hc. unfold remove_dominated.
  destruct (getitem_ok coverage dominator Hd) as [dominant_cover ->]. simpl.
  destruct (count_ok dominator (Hc dominator Hd)) as [dc Hdc].
  apply (foldM_inv _ (λ acc, dkeys acc ⊆ dkeys coverage)
           (λ item, is_Some (dget counts item.1))); [| |done].
  - intros acc [p cv] Hacc Hp. rewrite Hdc. simpl.
    destruct (count_ok p Hp) as [pc ->]. simpl.
    eexists. split; [done|].
    destruct (_ && _); [|done]. etrans; [apply dkeys_ddel|done].
  - apply Forall_forall. intros [p cv] Hp. apply Hc.
    by apply (list_elem_of_fmap_2 fst) in Hp.
Qed.

Lemma uncovered_by_keys (coverage : cover) (covered : gset nat) :
  dkeys (uncovered_by coverage covered) ⊆ dkeys coverage.
Proof.
  unfold uncovered_by.
  assert (Hgen : ∀ (l acc : cover) k,
    k ∈ dkeys (foldl (λ remaining '(predicate, uncovered),
                        let still_uncovered := uncovered ∖ covered in
                        if decide (still_uncovered = ∅) then remaining
                        else dset remaining predicate still_uncovered)
                     acc l) →
    k ∈ dkeys acc ∨ k ∈ dkeys l).
  { induction l as [|[p cv] l IH]; intros acc k Hk; simpl in *; [by left|].
    destruct (IH _ _ Hk) as [Hacc|?]; [|right; by right].
    case_decide; [by left|].
    apply dget_is_Some in Hacc.
    destruct (decide (p = k)) as [->|Hne]; [right; left|].
    rewrite dget_dset_ne in Hacc by done. left. by apply dget_is_Some. }
  intros k Hk. destruct (Hgen coverage [] k Hk) as [[]%elem_of_nil|?]; done.
Qed.

Lemma started_set_calls (orig : cover) (self : BranchBound) (n : Z) :
  started orig self → started orig (set_calls self n).
Proof. by intros [Ho Hr]. Qed.

Lemma return_cheapest_started (orig : cover) (self : BranchBound) :
  started orig self →
  ∃ r, return_cheapest self = Ok (self, r) ∧ cheapest self = Some r.
Proof.
  intros [_ (r & Hr & _)]. exists r. unfold return_cheapest.
  by rewrite Hr.
Qed.

(** A call of [search] on a searcher past its first call returns, and
    leaves a feasible value in [cheapest]. *)
Lemma search_fuel_started (fuel : nat) :
  ∀ (self : BranchBound) (candidates : cover) (partial : list key)
    (orig : cover),
    calls self ≤ Z.of_nat fuel →
    started orig self →
    dkeys candidates ⊆ dkeys orig →
    partial ⊆ dkeys orig →
    counted counts (dkeys orig) →
    ∃ self' r,
      search_fuel counts fuel self candidates partial = Ok (self', r)
      ∧ cheapest self' = Some r
      ∧ started orig self'
      ∧ calls self' ≤ calls self
      ∧ target self' = target self.
Proof.
  induction fuel as [|fuel IH];
    intros self candidates partial orig Hfuel Hst Hcand Hpart Hcnt.
  - simpl. rewrite (proj2 (Z.leb_le _ _)) by lia.
    destruct (return_cheapest_started orig self Hst) as (r & -> & Hr).
    exists self, r. done.
  - simpl. destruct (calls self <=? 0) eqn:Hcalls.
    { destruct (return_cheapest_started orig self Hst) as (r & -> & Hr).
      exists self, r. done. }
    apply Z.leb_gt in Hcalls.
    assert (Hfirst : first_call self candidates = self).
    { unfold first_call. destruct Hst as [-> _]. done. }
    rewrite Hfirst.
    set (self1 := set_calls self (calls self - 1)).
    assert (Hst1 : started orig self1) by by apply started_set_calls.
    rewrite (proj1 Hst).
    destruct (covered_ok orig partial Hpart) as [n Hn]. rewrite Hn. simpl.
    destruct (score_ok partial) as [s ->].
    { intros k Hk. apply Hcnt. by apply Hpart. }
    simpl. destruct (target self <=? Z.of_nat n) eqn:Htarget.
    + apply Z.leb_le in Htarget.
      set (self2 := if PyFloat.ltb s (cheapest_score self)
                    then set_cheapest self1 partial s else self1).
      assert (Hst2 : started orig self2).
      { unfold self2. destruct (PyFloat.ltb s (cheapest_score self));
          [|done].
        split; [apply Hst|]. exists (Tuple partial). split; [done|].
        right. exists partial, n. simpl. auto. }
      destruct (return_cheapest_started orig self2 Hst2) as (r & -> & Hr).
      exists self2, r. split_and!; try done.
      * unfold self2, self1. destruct (PyFloat.ltb _ _); simpl; lia.
      * unfold self2, self1. by destruct (PyFloat.ltb _ _).
    + destruct (within_window_ok
                  (PyFloat.sub (cheapest_score self) s) candidates)
        as (cands & -> & Hsub).
      { intros k Hk. apply Hcnt. by apply Hcand. }
      simpl. destruct (reachable_ok cands) as [m ->]. simpl.
      assert (Hdone : ∃ self' r,
                return_cheapest self1 = Ok (self', r)
                ∧ cheapest self' = Some r ∧ started orig self'
                ∧ calls self' ≤ calls self ∧ target self' = target self).
      { destruct (return_cheapest_started orig self1 Hst1) as (r & -> & Hr).
        exists self1, r. split_and!; try done. unfold self1. simpl. lia. }
      destruct cands as [|c0 cands0] eqn:Hcands; [done|].
      assert (Hne : c0 :: cands0 ≠ []) by done.
      rewrite <- Hcands in *. clear Hcands.
      destruct (target self <=? Z.of_nat (m + n)); [|done].
      assert (Hcands_orig : dkeys cands ⊆ dkeys orig) by (by etrans).
      assert (Hcands_cnt : counted counts (dkeys cands)).
      { intros k Hk. apply Hcnt. by apply Hcands_orig. }
      destruct (max_by_ok cands) as (best & -> & Hbest);
        [done|done|].
      simpl.
      destruct (getitem_ok cands best Hbest) as [best_cover ->]. simpl.
      destruct (IH self1 (uncovered_by cands best_cover) (partial ++ [best])
                  orig) as (self3 & r3 & -> & _ & Hst3 & Hcalls3 & Htgt3);
        [simpl; lia|done| | |done|].
      { etrans; [apply uncovered_by_keys|done]. }
      { intros k [?|Hk]%elem_of_app; [auto|].
        apply list_elem_of_singleton in Hk as ->. auto. }
      simpl.
      destruct (remove_dominated_ok cands best Hbest Hcands_cnt)
        as (reduced & -> & Hred).
      simpl.
      destruct (IH self3 reduced partial orig)
        as (self4 & r4 & -> & _ & Hst4 & Hcalls4 & Htgt4);
        [simpl in *; lia|done| |done|done|].
      { by etrans. }
      simpl.
      destruct (return_cheapest_started orig self4 Hst4) as (r & -> & Hr).
      exists self4, r. split_and!; try done.
      * simpl in *. lia.
      * simpl in *. congruence.
Qed.

Lemma return_cheapest_inv (self self' : BranchBound) (r : rules) :
  return_cheapest self = Ok (self', r) → self' = self ∧ cheapest self = Some r.
Proof.
  unfold return_cheapest. destruct (cheapest self); simpl; [|done].
  by intros [= <- <-].
Qed.

(** Whatever a call of [search] on a searcher past its first call returns
    is what it leaves in [cheapest], and that is feasible: this needs no
    assumption on the candidates or on the counts. *)
Lemma search_fuel_returns (fuel : nat) :
  ∀ (self : BranchBound) (candidates : cover) (partial : list key)
    (orig : cover) (self' : BranchBound) (r : rules),
    started orig self →
    search_fuel counts fuel self candidates partial = Ok (self', r) →
    cheapest self' = Some r ∧ started orig self'
    ∧ target self' = target self.
Proof.
  induction fuel as [|fuel IH];
    intros self candidates partial orig self' r Hst Hs; simpl in Hs.
  - destruct (calls self <=? 0); [|done].
    by apply return_cheapest_inv in Hs as [-> Hr].
  - destruct (calls self <=? 0).
    { by apply return_cheapest_inv in Hs as [-> Hr]. }
    assert (Hfirst : first_call self candidates = self).
    { unfold first_call. destruct Hst as [-> _]. done. }
    rewrite Hfirst in Hs. clear Hfirst.
    set (self1 := set_calls self (calls self - 1)) in *.
    assert (Hst1 : started orig self1) by by apply started_set_calls.
    rewrite (proj1 Hst) in Hs.
    destruct (covered (Some orig) partial) as [n|] eqn:Hn; [|done].
    simpl in Hs.
    destruct (score counts partial) as [s|]; [|done]. simpl in Hs.
    destruct (target self <=? Z.of_nat n) eqn:Htarget.
    + apply Z.leb_le in Htarget.
      apply return_cheapest_inv in Hs as [-> Hr]. split; [done|].
      destruct (PyFloat.ltb s (cheapest_score self)); [|done].
      split; [|done]. split; [apply Hst|].
      exists (Tuple partial). split; [done|].
      right. exists partial, n. simpl. auto.
    + destruct (within_window counts _ candidates) as [cands|]; [|done].
      simpl in Hs. destruct (reachable cands) as [m|]; [|done].
      simpl in Hs.
      assert (Hdone : return_cheapest self1 = Ok (self', r) →
                cheapest self' = Some r ∧ started orig self'
                ∧ target self' = target self).
      { by intros [-> Hr]%return_cheapest_inv. }
      destruct cands as [|c0 cands0] eqn:Hcands; [by apply Hdone|].
      rewrite <- Hcands in *. clear Hcands.
      destruct (target self <=? Z.of_nat (m + n)); [|by apply Hdone].
      destruct (max_by counts cands) as [best|]; [|done]. simpl in Hs.
      destruct (getitem cands best) as [best_cover|]; [|done]. simpl in Hs.
      destruct (search_fuel counts fuel self1 _ _) as [[self3 r3]|] eqn:H3;
        [|done].
      simpl in Hs.
      destruct (IH _ _ _ orig _ _ Hst1 H3) as (_ & Hst3 & Htgt3).
      destruct (remove_dominated counts cands best) as [reduced|]; [|done].
      simpl in Hs.
      destruct (search_fuel counts fuel self3 _ _) as [[self4 r4]|] eqn:H4;
        [|done].
      simpl in Hs.
      destruct (IH _ _ _ orig _ _ Hst3 H4) as (_ & Hst4 & Htgt4).
      apply return_cheapest_inv in Hs as [-> Hr].
      split; [done|]. split; [done|]. simpl in *. congruence.
Qed.

(** The first call stores the candidates before anything else. *)
Lemma search_fuel_first_call (fuel : nat) (self : BranchBound)
    (candidates : cover) (partial : list key) :
  0 < calls self →
  search_fuel counts fuel self candidates partial
  = search_fuel counts fuel (first_call self candidates) candidates partial.
Proof.
  destruct self as [c t cs [o|] ch]; [done|]. simpl. intros Hc.
  destruct fuel as [|fuel]; simpl; by rewrite (proj2 (Z.leb_gt _ _) Hc).
Qed.

(** With calls left, a new searcher returns a feasible value. *)
Lemma search_new_feasible (target max_calls : Z) (candidates : cover) :
  0 < max_calls →
  counted counts (dkeys candidates) →
  ∃ self r,
    search counts (init target max_calls) candidates [] = Ok (self, r)
    ∧ feasible target candidates r.
Proof.
  intros Hcalls Hcnt. unfold search.
  rewrite search_fuel_first_call by done.
  destruct (search_fuel_started (Z.to_nat (calls (init target max_calls)))
              (first_call (init target max_calls) candidates)
              candidates [] candidates)
    as (self & r & -> & Hr & [_ (r' & Hr' & Hfeas)] & _ & Htgt);
    try done.
  - simpl. lia.
  - split; [done|]. exists (Candidates candidates). split; [done|by left].
  - intros k []%elem_of_nil.
  - exists self, r. split; [done|].
    rewrite Hr in Hr'. injection Hr' as <-. by rewrite Htgt in Hfeas.
Qed.

(** Without calls left, a new searcher has no [cheapest] to return. *)
Lemma search_new_no_calls (target max_calls : Z) (candidates : cover) :
  max_calls ≤ 0 →
  search counts (init target max_calls) candidates [] = Raise AttributeError.
Proof.
  intros Hcalls. unfold search.
  destruct (Z.to_nat _); simpl; by rewrite (proj2 (Z.leb_le _ _) Hcalls).
Qed.

(** Whatever a new searcher returns is feasible. *)
Lemma search_new_returns (target max_calls : Z) (candidates : cover)
    (self : BranchBound) (r : rules) :
  search counts (init target max_calls) candidates [] = Ok (self, r) →
  feasible target candidates r.
Proof.
  intros Hs.
  destruct (decide (0 < max_calls)) as [Hcalls|Hcalls].
  - unfold search in Hs. rewrite search_fuel_first_call in Hs by done.
    apply (search_fuel_returns _ _ _ _ candidates) in Hs
      as (Hr & [_ (r' & Hr' & Hfeas)] & Htgt).
    + rewrite Hr in Hr'. injection Hr' as <-. by rewrite Htgt in Hfeas.
    + split; [done|]. exists (Candidates candidates).
      split; [done|by left].
  - rewrite search_new_no_calls in Hs by lia. done.
Qed.

End Search.

(** C2: for every cover of candidates and every target, the value that
    [search] returns is the collection of candidates it was called with or
    a tuple of predicates whose covers in the original cover together hold
    at least [target] pairs; and with a positive number of calls, on
    candidates that carry a count, [search] does return. *)
Theorem search_feasible (counts : dict float) (target max_calls : Z)
    (candidates : cover) :
  (∀ self r,
     search counts (init target max_calls) candidates [] = Ok (self, r) →
     r = Candidates candidates
     ∨ ∃ partial n, r = Tuple partial
                    ∧ covered (Some candidates) partial = Ok n
                    ∧ target ≤ Z.of_nat n)
  ∧ (0 < max_calls → counted counts (dkeys candidates) →
     ∃ self r,
       search counts (init target max_calls) candidates [] = Ok (self, r)).
Proof.
  split.
  - apply search_new_returns.
  - intros Hcalls Hcnt.
    destruct (search_new_feasible counts target max_calls candidates
                Hcalls Hcnt) as (self & r & Hs & _).
    eauto.
Qed.

(** C9: on an empty set of candidates, for every target and every positive
    number of calls, [search] raises nothing and returns a value that
    holds no predicate. *)
Theorem search_empty (counts : dict float) (target max_calls : Z) :
  0 < max_calls →
  ∃ self r,
    search counts (init target max_calls) [] [] = Ok (self, r)
    ∧ predicates_of r = [].
Proof.
  intros Hcalls.
  destruct (search_new_feasible counts target max_calls [] Hcalls)
    as (self & r & Hs & Hfeas); [intros k []%elem_of_nil|].
  exists self, r. split; [done|].
  destruct Hfeas as [->|(partial & n & -> & Hn & _)]; [done|].
  destruct partial; [done|discriminate Hn].
Qed.

Lemma search_feasible_witness :
  (∀ self r,
     search CoverExamples.three_costs (init 4 2500)
       CoverExamples.three_cover [] = Ok (self, r) →
     r = Candidates CoverExamples.three_cover
     ∨ ∃ partial n, r = Tuple partial
                    ∧ covered (Some CoverExamples.three_cover) partial
                      = Ok n
                    ∧ 4 ≤ Z.of_nat n)
  ∧ ∃ self r,
      search CoverExamples.three_costs (init 4 2500)
        CoverExamples.three_cover [] = Ok (self, r).
Proof.
  destruct (search_feasible CoverExamples.three_costs 4 2500
              CoverExamples.three_cover) as [Hret Hex].
  split; [exact Hret|]. apply Hex.
  - lia.
  - intros k Hk.
    repeat (apply elem_of_cons in Hk as [->|Hk]);
      [eexists; vm_compute; reflexivity ..|].
    by apply elem_of_nil in Hk.
Defined.

Lemma search_empty_witness :
  ∃ self r,
    search CoverExamples.three_costs (init 3 2500) [] [] = Ok (self, r)
    ∧ predicates_of r = [].
Proof. apply (search_empty CoverExamples.three_costs 3 2500). lia. Defined.

(** All four pairs are wanted: the cheaper of the two predicates that cover
    pairs 1 to 3, and the one that covers pair 4. *)
Example search_three :
  (search CoverExamples.three_costs (init 4 2500)
     CoverExamples.three_cover []) = Ok
    ({| calls := 2495; target := 4;
        cheapest_score := PyFloat.of_int 10;
        original_cover := Some CoverExamples.three_cover;
        cheapest := Some (Tuple [CoverExamples.q; CoverExamples.r]) |},
     Tuple [CoverExamples.q; CoverExamples.r]).
Proof. vm_compute. reflexivity. Qed.

(** With a single call and no solution in one step, the candidates come
    back. *)
Example search_budget_cutoff :
  (search CoverExamples.three_costs (init 4 1)
     CoverExamples.three_cover []) = Ok
    ({| calls := 0; target := 4; cheapest_score := PyFloat.inf;
        original_cover := Some CoverExamples.three_cover;
        cheapest := Some (Candidates CoverExamples.three_cover) |},
     Candidates CoverExamples.three_cover).
Proof. vm_compute. reflexivity. Qed.

Example search_empty_positive_target :
  ∃ self, search [] (init 1 2500) [] [] = Ok (self, Candidates []).
Proof. eexists. vm_compute. reflexivity. Qed.

Example search_empty_zero_target :
  ∃ self, search [] (init 0 2500) [] [] = Ok (self, Tuple []).
Proof. eexists. vm_compute. reflexivity. Qed.

End BranchBoundFacts.

(* ===================================================================== *)
(** * Properties of BlockLearner.learn *)
(* ===================================================================== *)

Module LearnFacts.
Import Dict Py Cover BranchBound BranchBoundAux BlockLearner LearnAux.
Import DictFacts BranchBoundFacts.

(** ** Values of dictionaries *)

Lemma dvalues_dset {V} (d : dict V) (k : key) (v v' : V) :
  v' ∈ dvalues (dset d k v) → v' = v ∨ v' ∈ dvalues d.
Proof.
  unfold dvalues. induction d as [|[k0 v0] d IH]; simpl.
  - intros ->%list_elem_of_singleton. by left.
  - case_decide; simpl.
    + intros [->|?]%elem_of_cons; [by left|right; by right].
    + intros [->|Hv]%elem_of_cons; [right; left|].
      destruct (IH Hv) as [?|?]; [by left|right; by right].
Qed.

Lemma dget_dvalues {V} (d : dict V) (k : key) (v : V) :
  dget d k = Some v → v ∈ dvalues d.
Proof.
  intros Hk%dget_elem_of. by apply (list_elem_of_fmap_2 snd) in Hk.
Qed.

Lemma getitem_dvalues {V} (d : dict V) (k : key) (v : V) :
  getitem d k = Ok v → v ∈ dvalues d.
Proof.
  unfold getitem. destruct (dget d k) eqn:E; [|done].
  intros [= <-]. by eapply dget_dvalues.
Qed.

(** A loop that ends has kept what each of its steps keeps. *)
Lemma foldM_keeps {A B} (f : B → A → res B) (P : B → Prop)
    (l : list A) (b b' : B) :
  (∀ b x b', P b → f b x = Ok b' → P b') →
  P b → foldM f b l = Ok b' → P b'.
Proof.
  intros Hf. revert b. induction l as [|x l IH]; intros b Hb; simpl.
  - by intros [= <-].
  - destruct (f b x) as [b0|] eqn:E; [|done]. simpl.
    apply IH. by eapply Hf.
Qed.

Lemma bounded_dset (n : nat) (d : cover) (k : key) (v : gset nat) :
  bounded n d → (∀ x, x ∈ v → (x < n)%nat) → bounded n (dset d k v).
Proof.
  intros Hd Hv v' [->|?]%dvalues_dset; [done|by apply Hd].
Qed.

(** ** The cover of the matches has ids of matches only *)

Section Cover.
Context {record : Type}.
Variable call : key → record → bool → res (list string).

Lemma coverage_from_bounds (predicate : key) (pairs : list (record * record)) :
  ∀ (i : nat) (s : gset nat),
    coverage_from call predicate i pairs = Ok s →
    ∀ x, x ∈ s → (i ≤ x < i + length pairs)%nat.
Proof.
  induction pairs as [|pr pairs IH]; intros i s; simpl.
  - intros [= <-] x Hx. set_solver.
  - destruct (blocks_together call predicate pr) as [b|]; [|done]. simpl.
    destruct (coverage_from call predicate (S i) pairs) as [rest|] eqn:E;
      [|done].
    simpl. intros [= <-] x Hx.
    assert (Hrest : ∀ y, y ∈ rest → (S i ≤ y < S i + length pairs)%nat)
      by (by apply IH).
    destruct b.
    + apply elem_of_union in Hx as [->%elem_of_singleton|Hx]; [lia|].
      specialize (Hrest x Hx). lia.
    + specialize (Hrest x Hx). lia.
Qed.

Lemma of_predicates_bounded (predicates : list key)
    (pairs : list (record * record)) (d : cover) :
  of_predicates call predicates pairs = Ok d → bounded (length pairs) d.
Proof.
  unfold of_predicates, _cover.
  apply (foldM_keeps _ (bounded (length pairs))).
  - intros acc p acc' Hacc.
    destruct (coverage_from call p 0 pairs) as [s|] eqn:E; [|done]. simpl.
    intros [= <-]. case_decide; [done|].
    apply bounded_dset; [done|]. intros x Hx.
    apply (coverage_from_bounds p pairs 0 s E x) in Hx. lia.
  - intros v []%elem_of_nil.
Qed.

End Cover.

Lemma compound_one_bounded (n : nat) (d d' : cover) (cp : list key) :
  bounded n d → compound_one d cp = Ok d' → bounded n d'.
Proof.
  intros Hd. unfold compound_one.
  destruct (split_last cp) as [[a b]|]; [|done]. simpl.
  destruct (dget d _) as [cover_a|] eqn:Ha; [|by intros [= <-]].
  destruct (getitem d b) as [cover_b|]; [|done]. simpl.
  intros [= <-]. case_decide; [done|].
  apply bounded_dset; [done|]. intros x [Hx _]%elem_of_intersection.
  apply (Hd cover_a); [|done]. by eapply dget_dvalues.
Qed.

Lemma compound_bounded (n compound_length : nat) (d d' : cover) :
  bounded n d → compound compound_length d = Ok d' → bounded n d'.
Proof.
  intros Hd. unfold compound.
  apply (foldM_keeps _ (bounded n)); [|done].
  intros acc i acc' Hacc. apply (foldM_keeps _ (bounded n)); [|done].
  intros acc0 cp acc0'. apply compound_one_bounded.
Qed.

Lemma intersection_update_bounded {V} (set_iter : list key → list key)
    (n : nat) (other : dict V) (d d' : cover) :
  bounded n d → intersection_update set_iter other d = Ok d' → bounded n d'.
Proof.
  intros Hd. unfold intersection_update.
  apply (foldM_keeps _ (bounded n)).
  - intros acc k acc' Hacc.
    destruct (getitem d k) as [v|] eqn:E; [|done]. simpl. intros [= <-].
    apply bounded_dset; [done|]. apply Hd. by eapply getitem_dvalues.
  - intros v []%elem_of_nil.
Qed.

Lemma dominators_loop_bounded (n : nat) (cost : dict float) (d : cover)
    (ordered : list key) :
  bounded n d →
  ∀ acc d', bounded n acc →
            dominators_loop cost d ordered acc = Ok d' → bounded n d'.
Proof.
  intros Hd. induction ordered as [|c later IH]; intros acc d' Hacc; simpl.
  - by intros [= <-].
  - destruct (getitem d c) as [cm|] eqn:E; [|done]. simpl.
    destruct (getitem cost c) as [cc|]; [|done]. simpl.
    destruct (dominated cost d cm cc later) as [b|]; [|done]. simpl.
    apply IH. destruct b; [done|].
    apply bounded_dset; [done|]. apply Hd. by eapply getitem_dvalues.
Qed.

Lemma dominators_bounded (n : nat) (cost : dict float) (d d' : cover) :
  bounded n d → dominators cost d = Ok d' → bounded n d'.
Proof.
  intros Hd. unfold dominators.
  destruct (mapM _ (dkeys d)) as [decorated|]; [|done]. simpl.
  apply dominators_loop_bounded; [done|]. intros v []%elem_of_nil.
Qed.

(** ** Unions and counts *)

Lemma foldl_union_elem (s : gset nat) (rest : list (gset nat)) (x : nat) :
  x ∈ foldl (∪) s rest ↔ x ∈ s ∨ ∃ v, v ∈ rest ∧ x ∈ v.
Proof.
  revert s. induction rest as [|v rest IH]; intros s; simpl.
  - split; [by left|]. intros [?|(v & []%elem_of_nil & _)]. done.
  - rewrite IH, elem_of_union. split.
    + intros [[?|?]|(v' & Hv' & ?)]; [by left| |].
      * right. exists v. split; [left|done].
      * right. exists v'. split; [by right|done].
    + intros [?|(v' & [->|Hv']%elem_of_cons & ?)]; [by left; left| |].
      * left. by right.
      * right. eauto.
Qed.

Lemma set_union_elem (sets : list (gset nat)) (u : gset nat) (x : nat) :
  set_union sets = Ok u → x ∈ u ↔ ∃ v, v ∈ sets ∧ x ∈ v.
Proof.
  destruct sets as [|s rest]; simpl; [done|]. intros [= <-].
  rewrite foldl_union_elem. split.
  - intros [?|(v & ? & ?)].
    + exists s. split; [left|done].
    + exists v. split; [by right|done].
  - intros (v & [->|?]%elem_of_cons & ?); [by left|right; eauto].
Qed.

Lemma mapM_getitem_values (d : cover) (l : list key) (sets : list (gset nat)) :
  mapM (getitem d) l = Ok sets → ∀ v, v ∈ sets → v ∈ dvalues d.
Proof.
  revert sets. induction l as [|k l IH]; intros sets; simpl.
  - intros [= <-] v []%elem_of_nil.
  - destruct (getitem d k) as [s|] eqn:E; [|done]. simpl.
    destruct (mapM (getitem d) l) as [rest|]; [|done]. simpl.
    intros [= <-] v [->|Hv]%elem_of_cons.
    + by eapply getitem_dvalues.
    + by apply (IH rest).
Qed.

(** What a tuple of predicates covers is coverable. *)
Lemma covered_le_coverable (d : cover) (partial : list key)
    (coverable : gset nat) (n : nat) :
  covered (Some d) partial = Ok n →
  set_union (dvalues d) = Ok coverable →
  (n ≤ size coverable)%nat.
Proof.
  intros Hn Hc. destruct partial as [|p partial].
  { injection Hn as <-. lia. }
  unfold covered in Hn. cbn [from_option bind] in Hn.
  destruct (mapM (getitem d) (p :: partial)) as [sets|] eqn:E; [|done].
  cbn [bind] in Hn. destruct (set_union sets) as [u|] eqn:Hu; [|done].
  cbn [bind] in Hn. injection Hn as <-.
  apply subseteq_size. intros x Hx.
  apply (set_union_elem _ _ x Hu) in Hx as (v & Hv & Hx).
  apply (set_union_elem _ _ x Hc). exists v. split; [|done].
  by eapply mapM_getitem_values.
Qed.

Section Uncoverable.
Context {record : Type}.

(** The matches are the uncoverable ones and the ids in the union of the
    covers. *)
Lemma uncoverable_from_length (matches : list (record * record))
    (coverable : gset nat) :
  ∀ i : nat,
    (length (uncoverable_from i matches coverable)
     + size (filter (λ x, i ≤ x < i + length matches)%nat coverable)
     = length matches)%nat.
Proof.
  induction matches as [|pr matches IH]; intros i; simpl.
  - assert (Hempty : filter (λ x, i ≤ x < i + 0)%nat coverable = ∅).
    { apply set_eq. intros x. rewrite elem_of_filter, elem_of_empty. lia. }
    by rewrite Hempty, size_empty.
  - specialize (IH (S i)).
    assert (Hsplit : filter (λ x, i ≤ x < i + S (length matches))%nat coverable
              = (if decide (i ∈ coverable) then {[ i ]} else ∅)
                ∪ filter (λ x, S i ≤ x < S i + length matches)%nat coverable).
    { apply set_eq. intros x.
      rewrite elem_of_union, !elem_of_filter.
      case_decide; [rewrite elem_of_singleton|rewrite elem_of_empty].
      - split; [intros [? ?]|intros [->|[? ?]]].
        + destruct (decide (x = i)); [by left|right; split; [lia|done]].
        + split; [lia|done].
        + split; [lia|done].
      - split; [intros [? ?]|intros [[]|[? ?]]].
        + right. split; [|done]. destruct (decide (x = i)); [by subst|lia].
        + split; [lia|done]. }
    rewrite Hsplit, size_union.
    2:{ intros x Hx [? _]%elem_of_filter.
        case_decide; [apply elem_of_singleton in Hx; lia|set_solver]. }
    destruct (decide (i ∈ coverable)); simpl length.
    + rewrite size_singleton. lia.
    + rewrite size_empty. lia.
Qed.

Lemma uncoverable_length (matches : list (record * record))
    (coverable : gset nat) :
  (∀ x, x ∈ coverable → (x < length matches)%nat) →
  (length (uncoverable_from 0 matches coverable) + size coverable
   = length matches)%nat.
Proof.
  intros Hb. pose proof (uncoverable_from_length matches coverable 0) as Hl.
  assert (Hall : filter (λ x, 0 ≤ x < 0 + length matches)%nat coverable
                 = coverable).
  { apply set_eq. intros x. rewrite elem_of_filter.
    split; [tauto|]. intros Hx. split; [|done]. specialize (Hb x Hx). lia. }
  by rewrite Hall in Hl.
Qed.

End Uncoverable.

Section Learn.
Context {record : Type}.
Variable call : key → record → bool → res (list string).
Variable set_iter : list key → list key.

Lemma dupe_cover_bounded (self : BlockLearner)
    (matches : list (record * record)) (d : cover) :
  dupe_cover call set_iter self matches = Ok d → bounded (length matches) d.
Proof.
  unfold dupe_cover.
  destruct (of_predicates call _ matches) as [d0|] eqn:H0; [|done]. simpl.
  destruct (compound _ d0) as [d1|] eqn:H1; [|done]. simpl.
  destruct (intersection_update _ _ d1) as [d2|] eqn:H2; [|done]. simpl.
  intros H3.
  eapply dominators_bounded; [|done].
  eapply intersection_update_bounded; [|done].
  eapply compound_bounded; [|done].
  by eapply of_predicates_bounded.
Qed.

(** What [learn] guarantees when it returns a tuple of predicates: they
    cover, in the cover handed to the search, all matches but [epsilon], the
    integer the code computes from [recall] in double precision, when no
    warning is logged, and every coverable match when one is. *)
Lemma learn_covers (self : BlockLearner) (matches : list (record * record))
    (recall : float) (partial : list key) (warned : bool) :
  learn call set_iter self matches recall = Ok (Tuple partial, warned) →
  ∃ (d : cover) (coverable : gset nat) (epsilon : Z) (n : nat),
    dupe_cover call set_iter self matches = Ok d
    ∧ set_union (dvalues d) = Ok coverable
    ∧ epsilon_of recall (length matches) = Ok epsilon
    ∧ covered (Some d) partial = Ok n
    ∧ (size coverable ≤ length matches)%nat
    ∧ warned
      = bool_decide (epsilon < Z.of_nat (length matches - size coverable))
    ∧ (warned = false → Z.of_nat (length matches) - epsilon ≤ Z.of_nat n)
    ∧ (warned = true → n = size coverable).
Proof.
  unfold learn.
  destruct (dupe_cover call set_iter self matches) as [d|] eqn:Hd; [|done].
  simpl.
  destruct (set_union (dvalues d)) as [coverable|] eqn:Hc; [|done]. simpl.
  destruct (epsilon_of recall (length matches)) as [epsilon|] eqn:He;
    [|done].
  simpl.
  destruct (attach_counts _ d) as [counts|]; [|done]. simpl.
  destruct (search counts _ d []) as [[searcher r]|] eqn:Hs; [|done]. simpl.
  destruct r as [partial0|candidates0]; [|done]. simpl.
  intros [= -> <-].
  assert (Hbound : ∀ x, x ∈ coverable → (x < length matches)%nat).
  { intros x (v & Hv & Hx)%(set_union_elem _ _ x Hc).
    by apply (dupe_cover_bounded self matches d Hd v). }
  pose proof (uncoverable_length matches coverable Hbound) as Hlen.
  apply search_new_returns in Hs
    as [[=]|(partial' & n & [= <-] & Hn & Htarget)].
  pose proof (covered_le_coverable d partial coverable n Hn Hc) as Hle.
  exists d, coverable, epsilon, n. split_and!; try done.
  - lia.
  - apply bool_decide_ext. lia.
  - intros Hw. rewrite Hw in Htarget. apply bool_decide_eq_false in Hw. lia.
  - intros Hw. rewrite Hw in Htarget. lia.
Qed.

(** The bound of the specification holds whenever the [epsilon] computed in
    double precision is not above the exact [floor((1 - recall) * n)],
    that is [n - ceil(recall * n)], and [recall] is at most 1. *)
Lemma learn_recall_bound_exact (self : BlockLearner)
    (matches : list (record * record)) (recall : float)
    (partial : list key) (warned : bool) (epsilon needed : Z) :
  learn call set_iter self matches recall = Ok (Tuple partial, warned) →
  epsilon_of recall (length matches) = Ok epsilon →
  ceil_mul recall (Z.of_nat (length matches)) = Some needed →
  epsilon + needed ≤ Z.of_nat (length matches) →
  needed ≤ Z.of_nat (length matches) →
  ∃ (d : cover) (coverable : gset nat) (n : nat),
    dupe_cover call set_iter self matches = Ok d
    ∧ set_union (dvalues d) = Ok coverable
    ∧ covered (Some d) partial = Ok n
    ∧ needed - Z.of_nat (length matches - size coverable) ≤ Z.of_nat n.
Proof.
  intros Hl He Hneeded Heps Hone.
  destruct (learn_covers self matches recall partial warned Hl)
    as (d & coverable & eps & n & Hd & Hc & He' & Hn & Hsize & Hw & Hno & Hyes).
  rewrite He in He'. injection He' as <-.
  exists d, coverable, n. split_and!; try done.
  destruct warned.
  - rewrite (Hyes eq_refl). lia.
  - specialize (Hno eq_refl). lia.
Qed.

End Learn.

(** C1 fails on the code, by the rounding of [(1.0 - recall) * len(matches)]:
    with ten matches that are all coverable and [recall =
    0.10000000000000009], a float of (0, 1], [1.0 - recall] is exact and
    its product with 10 lies half a unit in the last place under 9, so it
    rounds to 9.0: [epsilon] is 9, the target is 1, no warning is logged,
    and [learn] returns one predicate that covers one match, while
    [ceil(recall * 10)] is 2. *)
Theorem learn_recall_shortfall :
  PyFloat.ltb (PyFloat.of_int 0) LearnExamples.recall = true
  ∧ PyFloat.leb LearnExamples.recall (PyFloat.of_int 1) = true
  ∧ length LearnExamples.matches = 10%nat
  ∧ epsilon_of LearnExamples.recall 10 = Ok 9
  ∧ ceil_mul LearnExamples.recall 10 = Some 2
  ∧ learn LearnExamples.call id LearnExamples.learner LearnExamples.matches
      LearnExamples.recall
    = Ok (Tuple [LearnExamples.whole], false)
  ∧ ∃ (d : cover) (coverable : gset nat),
      dupe_cover LearnExamples.call id LearnExamples.learner
        LearnExamples.matches = Ok d
      ∧ set_union (dvalues d) = Ok coverable
      ∧ size coverable = 10%nat
      ∧ covered (Some d) [LearnExamples.whole] = Ok 1%nat.
Proof.
  split_and!; try (vm_compute; reflexivity).
  destruct (dupe_cover LearnExamples.call id LearnExamples.learner
              LearnExamples.matches) as [d|] eqn:Hd;
    [|vm_compute in Hd; discriminate Hd].
  destruct (set_union (dvalues d)) as [coverable|] eqn:Hc.
  2:{ revert Hc. vm_compute in Hd. injection Hd as <-. vm_compute. done. }
  exists d, coverable. split_and!; try done.
  - revert Hc. vm_compute in Hd. injection Hd as <-.
    vm_compute. by intros [= <-].
  - vm_compute in Hd. injection Hd as <-. vm_compute. reflexivity.
Qed.

End LearnFacts.

(* ===================================================================== *)
(** * Subtraction of doubles: the exact difference, rounded to nearest *)
(* ===================================================================== *)

Module FloatFacts.
Import FloatValue.

(** ** Digits and shifts *)







(** ** Shifting right, with the two bits that record what was lost *)




(** ** A mantissa in its place *)





(** ** [binary_round] rounds the value to nearest *)





(** ** The double nearest to a value of at most 1 *)







(** ** The order of doubles is the order of their values *)





(** ** Subtraction *)





End FloatFacts.

(* ===================================================================== *)
(** * Properties of the learners' pop *)
(* ===================================================================== *)

Module LabelerFacts.
Import Dict Numpy Labeler LabelerAux.

(** ** argmax and the order of the values *)

Lemma leb_refl (x : float) : PyFloat.leb x x = negb (PyFloat.is_nan x).
Proof.
  destruct x as [s|s| |s m e]; try (by destruct s); [done|].
  unfold PyFloat.leb, SFleb, SFcompare.
  change (Pos.compare_cont Eq m m) with (Pos.compare m m).
  rewrite Z.compare_refl, Pos.compare_refl. by destruct s.
Qed.

Section SameOrder.
Context {A : Type}.
Variables f g : A → float.

Local Abbreviation same_order := (LabelerAux.same_order f g).

Lemma same_order_nan (l : list A) (a : A) :
  same_order l → a ∈ l → PyFloat.is_nan (f a) = PyFloat.is_nan (g a).
Proof.
  intros Hl Ha. specialize (Hl a a Ha Ha). rewrite !leb_refl in Hl.
  by destruct (PyFloat.is_nan (f a)), (PyFloat.is_nan (g a)).
Qed.

Lemma argmax_from_same_order (l rest : list A) (a : A) (max_ind : nat) :
  same_order l → a ∈ l → rest ⊆ l →
  ∀ i, argmax_from (f a) max_ind i (f <$> rest)
       = argmax_from (g a) max_ind i (g <$> rest).
Proof.
  intros Hl. revert a max_ind.
  induction rest as [|x rest IH]; intros a max_ind Ha Hrest i; simpl; [done|].
  assert (Hx : x ∈ l) by (apply Hrest; left).
  assert (Hrest' : rest ⊆ l) by (intros z Hz; apply Hrest; by right).
  rewrite (Hl x a Hx Ha), (same_order_nan l x Hl Hx).
  destruct (negb (PyFloat.leb (g x) (g a))); [|by apply IH].
  destruct (PyFloat.is_nan (g x)); [done|by apply IH].
Qed.

Lemma argmax_same_order (l : list A) :
  same_order l → argmax (f <$> l) = argmax (g <$> l).
Proof.
  intros Hl. destruct l as [|a l]; simpl; [done|]. f_equal.
  rewrite (same_order_nan (a :: l) a Hl) by left.
  destruct (PyFloat.is_nan (g a)); [done|].
  apply (argmax_from_same_order (a :: l)); [done|left|].
  intros z Hz. by right.
Qed.

End SameOrder.

Lemma argmax_from_bound (rest : list float) :
  ∀ (mp : float) (max_ind i : nat),
    (max_ind < i)%nat →
    (argmax_from mp max_ind i rest < i + length rest)%nat.
Proof.
  induction rest as [|x rest IH]; intros mp max_ind i Hi; simpl; [lia|].
  destruct (negb (PyFloat.leb x mp)).
  - destruct (PyFloat.is_nan x); [lia|].
    specialize (IH x i (S i)). lia.
  - specialize (IH mp max_ind (S i)). lia.
Qed.

Lemma argmax_lt (v : list float) (k : nat) :
  argmax v = Ok k → (k < length v)%nat.
Proof.
  destruct v as [|x rest]; simpl; [done|]. intros [= <-].
  destruct (PyFloat.is_nan x); [lia|].
  pose proof (argmax_from_bound rest x 0 1)%nat. lia.
Qed.

Lemma argmax_ok (v : list float) : v ≠ [] → ∃ k, argmax v = Ok k.
Proof. destruct v; [done|]. simpl. eauto. Qed.

Lemma conflicts_lt (probs : list (float * float)) (i : nat) :
  i ∈ conflicts probs → (i < length probs)%nat.
Proof.
  unfold conflicts. intros [_ Hi]%list_elem_of_filter.
  apply elem_of_seq in Hi. lia.
Qed.

Lemma conflict_scores_nonempty (probs : list (float * float)) :
  existsb disagreement probs = true → conflict_scores probs ≠ [].
Proof.
  unfold conflict_scores. induction probs as [|row probs IH]; simpl; [done|].
  rewrite filter_cons.
  destruct (decide (disagreement row = true)) as [Hd|Hd]; [done|].
  apply not_true_is_false in Hd. rewrite Hd. simpl. apply IH.
Qed.

Lemma mapM_length {A B} (f : A → res B) (l : list A) (l' : list B) :
  mapM f l = Ok l' → length l' = length l.
Proof.
  revert l'. induction l as [|x l IH]; intros l'; simpl.
  - by intros [= <-].
  - destruct (f x); [|done]. simpl.
    destruct (mapM f l) as [ys|]; [|done]. simpl.
    intros [= <-]. simpl. by rewrite (IH ys).
Qed.

Section Pop.
Context {record weights : Type}.
Variable call : key → record → bool → res (list string).
Variable predict_row : weights → list float → float.
Variable compute_distance_matrix : list (record * record) → list (list float).

Abbreviation learner := (@DisagreementLearner record weights).

(** ** The empty pool *)

Lemma pop_empty (self : learner) (target : float) :
  candidates self = [] →
  pop call predict_row self target = (self, Raise IndexError).
Proof. intros H. unfold pop. by rewrite H. Qed.

Lemma rlr_pop_empty (self : @RLRLearner weights) :
  rlr_pop (record := record) predict_row self [] = (self, [], Raise IndexError).
Proof. done. Qed.

(** ** A pool that is not empty, after the constructor *)

(** The classifier that [__init__] leaves hands the data model to
    [predict_proba]: no scores come back. *)
Lemma rlr_candidate_scores_init (w : weights)
    (pairs : list (record * record)) :
  rlr_candidate_scores predict_row
    (RLRLearner_init compute_distance_matrix w pairs) = Raise TypeError.
Proof. done. Qed.

Lemma pop_after_init (w : weights) (pairs : list (record * record))
    (b : BlockLearner) (target : float) :
  pairs ≠ [] →
  pop call predict_row (_common_init compute_distance_matrix w pairs b) target
  = (_common_init compute_distance_matrix w pairs b, Raise TypeError).
Proof. intros Hne. unfold pop. simpl. by destruct pairs. Qed.

Lemma rlr_pop_after_init (w : weights) (pairs : list (record * record)) :
  pairs ≠ [] →
  rlr_pop predict_row (RLRLearner_init compute_distance_matrix w pairs) pairs
  = (RLRLearner_init compute_distance_matrix w pairs, pairs, Raise TypeError).
Proof. intros Hne. unfold rlr_pop. simpl. by destruct pairs. Qed.

(** ** The draw and the index *)

Lemma conflicts_lookup (pre probs : list (float * float)) :
  mapM (λ i, from_option IndexError (fst <$> ((pre ++ probs) !! i)))
       (filter (λ i, default false (disagreement <$> ((pre ++ probs) !! i))
                     = true)
               (seq (length pre) (length probs)))
  = Ok (conflict_scores probs).
Proof.
  revert pre. induction probs as [|row probs IH]; intros pre; simpl; [done|].
  specialize (IH (pre ++ [row])).
  rewrite <- app_assoc, length_app in IH. simpl in IH.
  rewrite Nat.add_1_r in IH.
  unfold conflict_scores. rewrite !filter_cons.
  assert (Hrow : (pre ++ row :: probs) !! length pre = Some row).
  { by rewrite lookup_app_r, Nat.sub_diag by lia. }
  rewrite Hrow. simpl.
  destruct (decide (disagreement row = true)) as [Hd|Hd].
  - simpl. rewrite Hrow. simpl. rewrite IH. done.
  - apply IH.
Qed.

Lemma conflicts_scores (probs : list (float * float)) :
  mapM (λ i, from_option IndexError (fst <$> (probs !! i))) (conflicts probs)
  = Ok (conflict_scores probs).
Proof. apply (conflicts_lookup [] probs). Qed.

Lemma uncertain_index_same_order (probs : list (float * float))
    (u1 u2 : float) :
  same_order (λ s, PyFloat.sub s u1) (λ s, PyFloat.sub s u2)
    (conflict_scores probs) →
  uncertain_index probs u1 = uncertain_index probs u2.
Proof.
  intros Hord. unfold uncertain_index.
  destruct (existsb disagreement probs); [|done].
  rewrite conflicts_scores. simpl.
  by rewrite (argmax_same_order _ _ _ Hord).
Qed.

(** On scores for at least one candidate, an index of a candidate is
    chosen, whatever the draw. *)
Lemma uncertain_index_ok (probs : list (float * float)) (target : float) :
  probs ≠ [] →
  ∃ i, uncertain_index probs target = Ok i ∧ (i < length probs)%nat.
Proof.
  intros Hne. unfold uncertain_index.
  destruct (existsb disagreement probs) eqn:Hany.
  - pose proof (conflicts_scores probs) as Hs. rewrite Hs. simpl.
    apply mapM_length in Hs.
    destruct (argmax_ok ((λ s, PyFloat.sub s target)
                           <$> conflict_scores probs)) as [best Hbest].
    { intros Hnil%fmap_nil_inv. by apply conflict_scores_nonempty in Hany. }
    rewrite Hbest. simpl.
    apply argmax_lt in Hbest. rewrite length_fmap, Hs in Hbest.
    destruct (lookup_lt_is_Some_2 (conflicts probs) best Hbest) as [i Hi].
    rewrite Hi. simpl. exists i. split; [done|].
    apply conflicts_lt. by eapply list_elem_of_lookup_2.
  - destruct (argmax_ok (std2 <$> probs)) as [i Hi].
    { by intros Hnil%fmap_nil_inv. }
    exists i. split; [done|]. apply argmax_lt in Hi.
    by rewrite length_fmap in Hi.
Qed.

Lemma block_candidate_scores_cached (b b' : BlockLearner)
    (pairs : list (record * record)) (labels : list Z) :
  block_candidate_scores call b pairs = Ok (b', labels) →
  _cached_labels b' = Some labels.
Proof.
  unfold block_candidate_scores.
  destruct (_cached_labels b) as [cached|] eqn:Hc.
  - by intros [= <- <-].
  - destruct (predict call b pairs); [|done]. simpl. by intros [= <- <-].
Qed.

Lemma delete_row_ok {A} (arr : list A) (i : nat) :
  (i < length arr)%nat → delete_row arr i = Ok (delete i arr).
Proof.
  intros Hi. unfold delete_row.
  by destruct (Nat.ltb_spec i (length arr)); [|lia].
Qed.

Lemma rlr_remove_ok (c : @RLRLearner weights) (rows : list (list float))
    (i : nat) :
  distances c = Array rows → (i < length rows)%nat →
  rlr_remove c i = Ok (set_distances c (Array (delete i rows))).
Proof.
  intros Hrows Hi. unfold rlr_remove, numpy_delete.
  by rewrite Hrows, (delete_row_ok _ _ Hi).
Qed.

Lemma block_remove_ok (b : BlockLearner) (labels : list Z) (i : nat) :
  _cached_labels b = Some labels → (i < length labels)%nat →
  block_remove b i = Ok (set_cached_labels b (Some (delete i labels))).
Proof.
  intros Hl Hi. unfold block_remove.
  by rewrite Hl, (delete_row_ok _ _ Hi).
Qed.

(** With a matrix of distances in the classifier, one row for each
    candidate, and a label for each candidate, [pop] returns one of the
    candidates and takes it from the pool. *)
Lemma pop_returns_pair (self : learner) (target : float)
    (rows : list (list float)) (b : BlockLearner) (labels : list Z) :
  candidates self ≠ [] →
  distances (classifier self) = Array rows →
  length rows = length (candidates self) →
  block_candidate_scores call (blocker self) (candidates self)
    = Ok (b, labels) →
  length labels = length (candidates self) →
  ∃ (self' : learner) (uncertain_pair : record * record),
    pop call predict_row self target = (self', Ok [uncertain_pair])
    ∧ uncertain_pair ∈ candidates self
    ∧ S (length (candidates self')) = length (candidates self).
Proof.
  intros Hne Hrows Hlen Hb Hlabels.
  set (probs := zip (predict_row (rlr_weights (classifier self)) <$> rows)
                    (PyFloat.of_int <$> labels)).
  assert (Hprobs : length probs = length (candidates self)).
  { unfold probs. rewrite length_zip, !length_fmap. lia. }
  destruct (uncertain_index_ok probs target) as (i & Hidx & Hi).
  { intros Hnil. rewrite Hnil in Hprobs.
    by destruct (candidates self). }
  rewrite Hprobs in Hi.
  destruct (lookup_lt_is_Some_2 (candidates self) i Hi) as [pr Hpr].
  assert (Hcat : concatenate_columns
                   (predict_row (rlr_weights (classifier self)) <$> rows)
                   (PyFloat.of_int <$> labels) = Ok probs).
  { unfold concatenate_columns.
    by rewrite decide_True by (by rewrite !length_fmap, Hlen, Hlabels). }
  exists {| candidates := delete i (candidates self);
            classifier := set_distances (classifier self)
                            (Array (delete i rows));
            blocker := set_cached_labels b (Some (delete i labels)) |}, pr.
  split_and!.
  - unfold pop.
    destruct (candidates self) as [|c cs] eqn:Hc; [done|].
    unfold rlr_candidate_scores, predict_proba. rewrite Hrows, Hb.
    cbn [bind Labeler.candidates Labeler.classifier Labeler.blocker].
    rewrite Hcat. cbn [bind]. rewrite Hidx. cbn [bind].
    unfold list_pop. rewrite Hpr. cbn [bind].
    rewrite (rlr_remove_ok _ rows i Hrows) by lia.
    by rewrite (block_remove_ok b labels i
                  (block_candidate_scores_cached _ _ _ _ Hb)) by lia.
  - by eapply list_elem_of_lookup_2.
  - cbn [Labeler.candidates]. rewrite length_delete by eauto.
    apply lookup_lt_Some in Hpr. lia.
Qed.


End Pop.

(** C8 fails on the code past the empty pool. On an empty pool [pop]
    raises [IndexError] and changes nothing; but the classifier of a
    disagreement learner keeps the data model in [distances] and hands it
    to [predict_proba], so on the learner its constructor leaves, with two
    candidates, [pop] raises [TypeError] and returns no pair; so does
    [RLRLearner.pop]. *)
Theorem pop_raises_with_candidates :
  pop LabelerExamples.no_call LabelerExamples.score_first
    LabelerExamples.new_learner LabelerExamples.draw_low
  = (LabelerExamples.new_learner, Raise TypeError)
  ∧ candidates LabelerExamples.new_learner = LabelerExamples.two_candidates
  ∧ rlr_pop LabelerExamples.score_first
      (classifier LabelerExamples.new_learner)
      LabelerExamples.two_candidates
    = (classifier LabelerExamples.new_learner,
       LabelerExamples.two_candidates, Raise TypeError)
  ∧ pop LabelerExamples.no_call LabelerExamples.score_first
      {| candidates := []; classifier := classifier LabelerExamples.new_learner;
         blocker := LabelerExamples.both_covered |} LabelerExamples.draw_low
    = ({| candidates := [];
          classifier := classifier LabelerExamples.new_learner;
          blocker := LabelerExamples.both_covered |}, Raise IndexError).
Proof. split_and!; reflexivity. Qed.


(** The two scores of that learner, 0.25 and 0.25 + 2^-54, and the two
    draws are doubles in [0, 1]; the scores are [2^1020] units, that is
    [2^-54], apart. *)
Example close_scores_apart :
  FloatValue.in_unit_interval LabelerExamples.quarter
  ∧ FloatValue.in_unit_interval LabelerExamples.quarter_up
  ∧ FloatValue.in_unit_interval LabelerExamples.draw_low
  ∧ FloatValue.in_unit_interval LabelerExamples.draw_high
  ∧ FloatValue.units LabelerExamples.quarter_up
    - FloatValue.units LabelerExamples.quarter = 2 ^ 1020.
Proof.
  assert (Hunit : ∀ x,
            FloatValue.finite64 x = true →
            (0 <=? FloatValue.units x) = true →
            (FloatValue.units x <=? 2 ^ 1074) = true →
            FloatValue.in_unit_interval x).
  { intros x Hf H0 H1. split; [done|]. split; by apply Z.leb_le. }
  split_and!; [apply Hunit; vm_compute; reflexivity ..|].
  vm_compute. reflexivity.
Qed.





(** Regression scores 0.9, 0.1 and 0.8 against block scores 0, 0 and 1:
    only the first candidate is in the disagreement set, and [pop] returns
    it. *)
Example pop_one_conflict :
  (pop LabelerExamples.no_call LabelerExamples.score_first
     LabelerExamples.one_conflict LabelerExamples.draw_high).2
  = Ok [("a", "a'")].
Proof. reflexivity. Qed.

End LabelerFacts.

(* ===================================================================== *)
(** * More on Cover: construction, intersection_update, dominators *)
(* ===================================================================== *)

Module CoverProps.
Import Dict Py Cover CoverAux DictFacts FloatOrderDefs FloatOrder.
Import DominatorsFacts.

Lemma dget_ddel {V} (d : dict V) (k k' : key) :
  wf d → dget (ddel d k) k' = if decide (k = k') then None else dget d k'.
Proof.
  unfold wf, dkeys. induction d as [|[k0 v0] d IH]; simpl.
  - by case_decide.
  - intros [Hk0 Hd]%NoDup_cons.
    destruct (decide (k0 = k)) as [->|Hne].
    + destruct (decide (k = k')) as [<-|Hne'].
      * apply dget_None. done.
      * done.
    + simpl. destruct (decide (k0 = k')) as [->|Hne'].
      * by rewrite decide_False by congruence.
      * by apply IH.
Qed.

Lemma wf_ddel {V} (d : dict V) (k : key) : wf d → wf (ddel d k).
Proof.
  unfold wf, dkeys. induction d as [|[k0 v0] d IH]; simpl; [done|].
  intros [Hk0 Hd]%NoDup_cons. case_decide; [done|]. simpl.
  apply NoDup_cons. split; [|by apply IH].
  intros Hin. apply Hk0.
  by apply (BranchBoundFacts.dkeys_ddel d k).
Qed.

Lemma wf_elem_dget {V} (d : dict V) (k : key) (v : V) :
  wf d → (k, v) ∈ d → dget d k = Some v.
Proof.
  unfold wf, dkeys. induction d as [|[k0 v0] d IH]; simpl.
  - by intros _ ?%elem_of_nil.
  - intros [Hk0 Hd]%NoDup_cons [[= -> ->]|Hin]%elem_of_cons.
    + by rewrite decide_True.
    + rewrite decide_False; [by apply IH|]. intros ->. apply Hk0.
      by apply (list_elem_of_fmap_2 fst) in Hin.
Qed.

(** ** Cover(predicates, pairs) *)

Section Construction.
Context {record : Type}.
Variable call : key → record → bool → res (list string).

Lemma coverage_from_spec (p : key) (pairs : list (record * record)) :
  ∀ (i0 : nat) (s : gset nat),
    coverage_from call p i0 pairs = Ok s →
    ∀ i, i ∈ s ↔ ∃ j records, i = (i0 + j)%nat ∧ pairs !! j = Some records
                   ∧ blocks_together call p records = Ok true.
Proof.
  induction pairs as [|pr pairs IH]; intros i0 s; simpl.
  - intros [= <-] i. split; [set_solver|]. by intros (j & r & _ & ? & _).
  - destruct (blocks_together call p pr) as [b|] eqn:Hb; [|done]. simpl.
    destruct (coverage_from call p (S i0) pairs) as [rest|] eqn:E; [|done].
    simpl. intros [= <-] i. specialize (IH (S i0) rest E i).
    assert (Hrest : i ∈ rest ↔
              ∃ j records, i = (i0 + S j)%nat ∧ pairs !! j = Some records
                           ∧ blocks_together call p records = Ok true).
    { rewrite IH. split; intros (j & r & -> & ? & ?); exists j, r;
        split_and!; try done; lia. }
    split.
    + intros Hi.
      assert (Hcase : (i = i0 ∧ b = true) ∨ i ∈ rest).
      { destruct b; [|by right].
        apply elem_of_union in Hi as [->%elem_of_singleton|?]; auto. }
      destruct Hcase as [[-> ->]|Hi'].
      * exists O, pr. split_and!; [lia|done|done].
      * apply Hrest in Hi' as (j & r & -> & ? & ?).
        exists (S j), r. done.
    + intros ([|j] & r & -> & Hj & Hr); simpl in Hj.
      * injection Hj as <-. rewrite Hb in Hr. injection Hr as ->.
        apply elem_of_union_l, elem_of_singleton. lia.
      * assert (Hi : (i0 + S j)%nat ∈ rest) by (apply Hrest; eauto).
        destruct b; [by apply elem_of_union_r|done].
Qed.

Local Abbreviation cover_inv := (CoverAux2.cover_inv call).

Lemma cover_loop (pairs : list (record * record)) (predicates : list key) :
  ∀ (seen : list key) (d d' : cover),
    cover_inv pairs seen d →
    _cover call predicates pairs d = Ok d' →
    cover_inv pairs (seen ++ predicates) d'.
Proof.
  unfold _cover.
  induction predicates as [|p predicates IH]; intros seen d d' Hinv; simpl.
  - intros [= <-]. by rewrite app_nil_r.
  - destruct (coverage_from call p 0 pairs) as [s|] eqn:Hs; [|done]. simpl.
    intros Hrest.
    replace (seen ++ p :: predicates) with ((seen ++ [p]) ++ predicates)
      by (by rewrite <- app_assoc).
    eapply IH; [|exact Hrest].
    destruct Hinv as (Hwf & Hsome & Hnone).
    case_decide as Hempty.
    + subst s. split_and!; [done| |].
      * intros q s Hq. destruct (Hsome q s Hq) as (? & ? & ?).
        split_and!; try done. apply elem_of_app. by left.
      * intros q [Hq| ->%list_elem_of_singleton]%elem_of_app Hd; auto.
    + split_and!; [by apply wf_dset| |].
      * intros q s'. destruct (decide (p = q)) as [<-|Hne].
        -- rewrite dget_dset_eq. intros [= <-]. split_and!; try done.
           apply elem_of_app. right. left.
        -- rewrite dget_dset_ne by done. intros Hq.
           destruct (Hsome q s' Hq) as (? & ? & ?).
           split_and!; try done. apply elem_of_app. by left.
      * intros q Hq. destruct (decide (p = q)) as [<-|Hne].
        -- by rewrite dget_dset_eq.
        -- rewrite dget_dset_ne by done.
           apply elem_of_app in Hq as [Hq| ->%list_elem_of_singleton];
             [by apply Hnone|done].
Qed.

End Construction.

(** X1. [Cover(predicates, pairs)] maps each of the predicates that blocks
    at least one of the pairs together, and no other key, to the set of the
    indices of the pairs it blocks together: the pairs whose two records
    it gives a common block key. *)
Theorem cover_init_spec {record : Type}
    (call : key → record → bool → res (list string))
    (predicates : list key) (pairs : list (record * record)) (d : cover) :
  of_predicates call predicates pairs = Ok d →
  wf d
  ∧ (∀ p, p ∈ dkeys d → p ∈ predicates ∧ val d p ≠ ∅)
  ∧ (∀ p i, p ∈ predicates →
            i ∈ val d p ↔
            ∃ records, pairs !! i = Some records
                       ∧ blocks_together call p records = Ok true).
Proof.
  intros Hd.
  destruct (cover_loop call pairs predicates [] [] d) as (Hwf & Hsome & Hnone);
    [|exact Hd|].
  { split_and!; [apply NoDup_nil_2|done|by intros p []%elem_of_nil]. }
  split_and!; [done| |].
  - intros p [s Hs]%dget_is_Some. destruct (Hsome p s Hs) as (? & ? & ?).
    unfold val. by rewrite Hs.
  - intros p i Hp. unfold val.
    destruct (dget d p) as [s|] eqn:Hs; simpl.
    + destruct (Hsome p s Hs) as (_ & _ & Hc).
      rewrite (coverage_from_spec call p pairs 0 s Hc i).
      split; [intros (j & r & -> & ? & ?)|intros (r & ? & ?)]; eauto.
    + specialize (Hnone p Hp Hs).
      pose proof (coverage_from_spec call p pairs 0 ∅ Hnone i) as Hi.
      split; [set_solver|]. intros (r & ? & ?).
      apply Hi. eauto.
Qed.

Lemma cover_init_spec_witness :
  ∃ d, of_predicates LearnExamples.call
         [LearnExamples.whole; LearnExamples.three] LearnExamples.matches
       = Ok d
       ∧ wf d
       ∧ (∀ p, p ∈ dkeys d →
               p ∈ [LearnExamples.whole; LearnExamples.three] ∧ val d p ≠ ∅)
       ∧ (∀ p i, p ∈ [LearnExamples.whole; LearnExamples.three] →
                 i ∈ val d p ↔
                 ∃ records, LearnExamples.matches !! i = Some records
                            ∧ blocks_together LearnExamples.call p records
                              = Ok true).
Proof.
  eexists. split; [vm_compute; reflexivity|].
  apply (cover_init_spec LearnExamples.call
           [LearnExamples.whole; LearnExamples.three] LearnExamples.matches).
  vm_compute. reflexivity.
Defined.

(** ** intersection_update *)

Section IntersectionUpdate.
Context {V : Type}.
Variable set_iter : list key → list key.
(** Iterating over a set visits each of its elements once. *)
Hypothesis set_iter_perm : ∀ l, set_iter l ≡ₚ l.

Lemma intersection_loop (d : cover) (l : list key) :
  ∀ acc : cover,
    wf acc → l ⊆ dkeys d →
    ∃ d', foldM (λ acc k, v ←! getitem d k; Ok (dset acc k v)) acc l = Ok d'
          ∧ wf d'
          ∧ ∀ k, dget d' k = if decide (k ∈ l) then dget d k else dget acc k.
Proof.
  induction l as [|k l IH]; intros acc Hwf Hl; simpl.
  - exists acc. by split_and!.
  - destruct (BranchBoundFacts.getitem_ok d k) as [v Hv]; [apply Hl; left|].
    rewrite Hv. simpl.
    destruct (IH (dset acc k v)) as (d' & -> & Hwf' & Hget).
    { by apply wf_dset. }
    { intros x Hx. apply Hl. by right. }
    exists d'. split_and!; try done. intros k'. rewrite Hget.
    destruct (decide (k' ∈ l)) as [Hin|Hnin].
    + rewrite decide_True by (by right). done.
    + destruct (decide (k = k')) as [<-|Hne].
      * rewrite decide_True by left. rewrite dget_dset_eq.
        unfold getitem in Hv. destruct (dget d k); [|done].
        simpl in Hv. by injection Hv as ->.
      * rewrite dget_dset_ne by done.
        rewrite decide_False; [done|].
        intros [?|?]%elem_of_cons; congruence.
Qed.

End IntersectionUpdate.

(** X2. [intersection_update(other)] never raises; it keeps the keys that
    [other] has too, each with the cover it had, and drops the others. *)
Theorem intersection_update_spec {V : Type} (set_iter : list key → list key)
    (other : dict V) (d : cover) :
  (∀ l, set_iter l ≡ₚ l) →
  ∃ d', intersection_update set_iter other d = Ok d'
        ∧ wf d'
        ∧ ∀ k, dget d' k = if contains other k then dget d k else None.
Proof.
  intros Hperm. unfold intersection_update.
  set (common := filter (λ k, contains other k = true) (dkeys d)).
  destruct (intersection_loop d (set_iter common) [])
    as (d' & Hd' & Hwf & Hget).
  { apply NoDup_nil_2. }
  { intros k Hk. rewrite Hperm in Hk.
    by apply list_elem_of_filter in Hk as [_ ?]. }
  exists d'. split_and!; try done. intros k. rewrite Hget.
  destruct (contains other k) eqn:Hc.
  - destruct (decide (k ∈ set_iter common)) as [Hin|Hnin]; [done|].
    simpl. symmetry. apply dget_None. intros Hk. apply Hnin.
    rewrite Hperm. by apply list_elem_of_filter.
  - rewrite decide_False; [done|]. rewrite Hperm.
    intros [? _]%list_elem_of_filter. congruence.
Qed.

Lemma intersection_update_spec_witness :
  ∃ d', intersection_update id CoverExamples.three_costs
          CoverExamples.three_cover = Ok d'
        ∧ wf d'
        ∧ ∀ k, dget d' k = if contains CoverExamples.three_costs k
                           then dget CoverExamples.three_cover k else None.
Proof.
  apply (intersection_update_spec id CoverExamples.three_costs
           CoverExamples.three_cover).
  intros l. reflexivity.
Defined.

(** ** dominators loses no coverage *)

Lemma leb_trans (a b c : float) :
  PyFloat.leb a b = true → PyFloat.leb b c = true → PyFloat.leb a c = true.
Proof.
  intros Hab Hbc.
  assert (Ha : PyFloat.is_nan a = false) by (by destruct a).
  assert (Hb : PyFloat.is_nan b = false) by (by destruct a, b).
  assert (Hc : PyFloat.is_nan c = false) by (by destruct b, c).
  apply leb_rank in Hab; [|done..]. apply leb_rank in Hbc; [|done..].
  apply leb_rank; [done..|].
  destruct (rank a) as [[a1 a2] a3], (rank b) as [[b1 b2] b3],
    (rank c) as [[c1 c2] c3].
  unfold lex_lt in *; simpl in *.
  rewrite triple_eq in *. lia.
Qed.

(** Whoever is beaten is beaten by a survivor. *)
Lemma survivors_beat (b : key → key → bool) (l : list key) :
  (∀ x y z, b x y = true → b y z = true → b x z = true) →
  ∀ c, c ∈ l → c ∈ survivors b l
               ∨ ∃ o, o ∈ survivors b l ∧ b c o = true.
Proof.
  intros Htrans. induction l as [|x l IH]; intros c Hc.
  - by apply elem_of_nil in Hc.
  - simpl. destruct (existsb (b x) l) eqn:E.
    + apply elem_of_cons in Hc as [->|Hc]; [|by apply IH].
      right. apply existsb_exists in E as (o & Ho%list_elem_of_In & Hxo).
      destruct (IH o Ho) as [?|(o' & ? & ?)]; eauto.
    + apply elem_of_cons in Hc as [->|Hc]; [left; left|].
      destruct (IH c Hc) as [?|(o & ? & ?)].
      * left. by right.
      * right. exists o. split; [by right|done].
Qed.

Lemma better_trans (cost : dict float) (d : cover) (x y z : key) :
  better cost d x y = true → better cost d y z = true →
  better cost d x z = true.
Proof.
  unfold better.
  destruct (dget d x) as [xm|], (dget cost x) as [xc|],
    (dget d y) as [ym|], (dget cost y) as [yc|],
    (dget d z) as [zm|], (dget cost z) as [zc|]; try done.
  intros [H1 H2]%andb_true_iff [H3 H4]%andb_true_iff.
  apply bool_decide_eq_true in H1, H3.
  apply andb_true_iff. split.
  - apply bool_decide_eq_true. set_solver.
  - by eapply leb_trans.
Qed.

(** X3. [dominators] returns a part of the cover, each predicate kept with
    its cover; every predicate of the cover, kept or not, has a kept one
    that covers at least the same pairs at a cost that is not higher. So no
    pair that was covered is lost. *)
Theorem dominators_keeps_coverage (cost : dict float) (d : cover) :
  wf d → costs_defined cost d →
  ∃ d', dominators cost d = Ok d'
        ∧ (∀ k v, dget d' k = Some v → dget d k = Some v)
        ∧ (∀ c, c ∈ dkeys d →
                ∃ o, o ∈ dkeys d' ∧ val d c ⊆ val d' o
                     ∧ better cost d c o = true)
        ∧ (∀ i, (∃ v, v ∈ dvalues d ∧ i ∈ v)
                ↔ (∃ v, v ∈ dvalues d' ∧ i ∈ v)).
Proof.
  intros Hwf Hcost. exists (d1 cost d).
  assert (Hsub : ∀ k v, dget (d1 cost d) k = Some v → dget d k = Some v).
  { intros k v Hk.
    assert (Hin : k ∈ dkeys (d1 cost d)) by (apply dget_is_Some; eauto).
    by rewrite <- (d1_get cost) by done. }
  assert (Hdom : ∀ c, c ∈ dkeys d →
            ∃ o, o ∈ dkeys (d1 cost d) ∧ val d c ⊆ val (d1 cost d) o
                 ∧ better cost d c o = true).
  { intros c Hc.
    assert (Hself : better cost d c c = true).
    { destruct (known_keys cost d Hcost c Hc) as [[m Hm] _].
      destruct (Hcost c Hc) as (cc & Hcc & Hnan).
      unfold better. rewrite Hm, Hcc.
      apply andb_true_iff. split; [by apply bool_decide_eq_true|].
      rewrite LabelerFacts.leb_refl. by rewrite Hnan. }
    assert (Hc' : c ∈ ordered cost d) by (by rewrite ordered_perm).
    destruct (survivors_beat (better cost d) (ordered cost d)
                (better_trans cost d) c Hc') as [Hs|(o & Hs & Hb)].
    - exists c. rewrite d1_keys. split_and!; try done.
      unfold val at 2. rewrite (d1_get cost) by (by rewrite ?d1_keys). done.
    - exists o. rewrite d1_keys. split_and!; try done.
      unfold val at 2. rewrite (d1_get cost) by (by rewrite ?d1_keys).
      fold (val d o). revert Hb. unfold better, val.
      destruct (dget d c), (dget cost c), (dget d o), (dget cost o);
        try done.
      intros [H1 _]%andb_true_iff. by apply bool_decide_eq_true in H1. }
  split_and!; [by apply dominators_first|done|done|].
  intros i. split.
  - intros (v & Hv & Hi).
    apply list_elem_of_fmap in Hv as ([c v'] & -> & Hcv). simpl in Hi.
    assert (Hc : c ∈ dkeys d) by (by apply (list_elem_of_fmap_2 fst) in Hcv).
    assert (Hget : dget d c = Some v') by (by apply wf_elem_dget).
    destruct (Hdom c Hc) as (o & Ho & Hsubset & _).
    apply dget_is_Some in Ho as [om Hom].
    exists om. split; [by eapply LearnFacts.dget_dvalues|].
    unfold val in Hsubset. rewrite Hget, Hom in Hsubset. simpl in Hsubset.
    by apply Hsubset.
  - intros (v & Hv & Hi).
    apply list_elem_of_fmap in Hv as ([c v'] & -> & Hcv). simpl in Hi.
    exists v'. split; [|done].
    eapply LearnFacts.dget_dvalues. apply Hsub.
    apply wf_elem_dget; [by apply d1_wf|done].
Qed.

Lemma dominators_keeps_coverage_witness :
  ∃ d', dominators CoverExamples.three_costs CoverExamples.three_cover = Ok d'
        ∧ (∀ k v, dget d' k = Some v →
                  dget CoverExamples.three_cover k = Some v)
        ∧ (∀ c, c ∈ dkeys CoverExamples.three_cover →
                ∃ o, o ∈ dkeys d'
                     ∧ val CoverExamples.three_cover c ⊆ val d' o
                     ∧ better CoverExamples.three_costs
                         CoverExamples.three_cover c o = true)
        ∧ (∀ i, (∃ v, v ∈ dvalues CoverExamples.three_cover ∧ i ∈ v)
                ↔ (∃ v, v ∈ dvalues d' ∧ i ∈ v)).
Proof.
  apply (dominators_keeps_coverage CoverExamples.three_costs
           CoverExamples.three_cover).
  - apply (bool_decide_unpack _). vm_compute. reflexivity.
  - intros k Hk.
    repeat (apply elem_of_cons in Hk as [->|Hk]);
      [eexists; split; vm_compute; reflexivity ..|].
    by apply elem_of_nil in Hk.
Defined.

End CoverProps.

(* ===================================================================== *)
(** * More on BranchBound: the helpers of search, and its budget *)
(* ===================================================================== *)

Module SearchProps.
Import Dict Py Cover CoverAux BranchBound BranchBoundAux PruneAux.
Import DictFacts BranchBoundFacts CoverProps.

(** ** uncovered_by *)

Lemma uncovered_by_loop (covered : gset nat) (l : cover) :
  ∀ acc : cover,
    wf acc → NoDup (dkeys l) →
    let r := foldl (λ remaining '(predicate, uncovered),
                      let still_uncovered := uncovered ∖ covered in
                      if decide (still_uncovered = ∅) then remaining
                      else dset remaining predicate still_uncovered)
                   acc l in
    wf r
    ∧ ∀ p, dget r p =
           match dget l p with
           | Some u => if decide (u ∖ covered = ∅) then dget acc p
                       else Some (u ∖ covered)
           | None => dget acc p
           end.
Proof.
  induction l as [|[p0 u0] l IH]; intros acc Hwf Hnd; simpl; [done|].
  apply NoDup_cons in Hnd as [Hp0 Hnd].
  assert (Hl : dget l p0 = None) by (by apply dget_None).
  destruct (decide (u0 ∖ covered = ∅)) as [He|He].
  - destruct (IH acc) as [Hwf' Hget]; [done|done|].
    split; [done|]. intros p. rewrite Hget.
    destruct (decide (p0 = p)) as [<-|Hne]; [|done].
    rewrite Hl. by rewrite decide_True.
  - destruct (IH (dset acc p0 (u0 ∖ covered))) as [Hwf' Hget];
      [by apply wf_dset|done|].
    split; [done|]. intros p. rewrite Hget.
    destruct (decide (p0 = p)) as [<-|Hne].
    + rewrite Hl, dget_dset_eq. by rewrite decide_False.
    + by rewrite dget_dset_ne.
Qed.

(** X4. [uncovered_by(coverage, covered)] keeps the predicates that cover
    a pair outside [covered], each with the pairs of its cover that are
    outside [covered]: no set of the result is empty or meets [covered],
    and the predicate whose cover is [covered] is not in it. *)
Theorem uncovered_by_spec (coverage : cover) (covered : gset nat) :
  wf coverage →
  wf (uncovered_by coverage covered)
  ∧ (∀ p, dget (uncovered_by coverage covered) p =
          match dget coverage p with
          | Some u => if decide (u ⊆ covered) then None
                      else Some (u ∖ covered)
          | None => None
          end)
  ∧ (∀ p u, dget (uncovered_by coverage covered) p = Some u →
            u ≠ ∅ ∧ u ## covered)
  ∧ (∀ best, dget coverage best = Some covered →
             best ∉ dkeys (uncovered_by coverage covered)).
Proof.
  intros Hwf. unfold uncovered_by.
  destruct (uncovered_by_loop covered coverage []) as [Hwf' Hget];
    [apply NoDup_nil_2|done|].
  simpl in Hwf', Hget.
  assert (Hspec : ∀ p,
            dget (foldl (λ remaining '(predicate, uncovered),
                           let still_uncovered := uncovered ∖ covered in
                           if decide (still_uncovered = ∅) then remaining
                           else dset remaining predicate still_uncovered)
                        [] coverage) p =
            match dget coverage p with
            | Some u => if decide (u ⊆ covered) then None
                        else Some (u ∖ covered)
            | None => None
            end).
  { intros p. rewrite Hget. destruct (dget coverage p) as [u|]; [|done].
    destruct (decide (u ∖ covered = ∅)) as [He|He].
    - rewrite decide_True; [done|]. set_solver.
    - rewrite decide_False; [done|]. set_solver. }
  split_and!; [done|done| |].
  - intros p u. rewrite Hspec. destruct (dget coverage p) as [u0|]; [|done].
    case_decide as Hsub; [done|]. intros [= <-]. split; [|set_solver].
    intros He. apply Hsub. set_solver.
  - intros best Hbest Hin. apply dget_is_Some in Hin as [u Hu].
    rewrite Hspec, Hbest in Hu. by rewrite decide_True in Hu.
Qed.

Lemma uncovered_by_spec_witness :
  wf (uncovered_by CoverExamples.three_cover ({[1; 2; 3]}%nat : gset nat))
  ∧ (∀ p, dget (uncovered_by CoverExamples.three_cover
                  ({[1; 2; 3]}%nat : gset nat)) p =
          match dget CoverExamples.three_cover p with
          | Some u => if decide (u ⊆ ({[1; 2; 3]}%nat : gset nat)) then None
                      else Some (u ∖ ({[1; 2; 3]}%nat : gset nat))
          | None => None
          end)
  ∧ (∀ p u, dget (uncovered_by CoverExamples.three_cover
                    ({[1; 2; 3]}%nat : gset nat)) p = Some u →
            u ≠ ∅ ∧ u ## ({[1; 2; 3]}%nat : gset nat))
  ∧ (∀ best, dget CoverExamples.three_cover best
             = Some ({[1; 2; 3]}%nat : gset nat) →
             best ∉ dkeys (uncovered_by CoverExamples.three_cover
                             ({[1; 2; 3]}%nat : gset nat))).
Proof.
  apply (uncovered_by_spec CoverExamples.three_cover
           ({[1; 2; 3]}%nat : gset nat)).
  apply (bool_decide_unpack _). vm_compute. reflexivity.
Defined.

(** ** remove_dominated *)

Section Counts.
Variable counts : dict float.

Lemma remove_dominated_loop (coverage : cover) (dominator : key)
    (dominant_cover : gset nat) (dc : float) (l : cover) :
  dget coverage dominator = Some dominant_cover →
  dget counts dominator = Some dc →
  ∀ acc : cover,
    wf acc → NoDup (dkeys l) →
    (∀ p cv, (p, cv) ∈ l →
             dget coverage p = Some cv ∧ is_Some (dget counts p)) →
    ∃ r, foldM (λ coverage '(pred, cover),
                  dc ←! count counts dominator;
                  pc ←! count counts pred;
                  Ok (if PyFloat.leb dc pc
                         && bool_decide (cover ⊆ dominant_cover)
                      then ddel coverage pred else coverage))
               acc l = Ok r
         ∧ wf r
         ∧ ∀ p, dget r p =
                if bool_decide (p ∈ dkeys l)
                   && dominates counts coverage dominator p
                then None else dget acc p.
Proof.
  intros Hdom Hdc.
  induction l as [|[p0 cv0] l IH]; intros acc Hwf Hnd Hl; simpl.
  - exists acc. by split_and!.
  - apply NoDup_cons in Hnd as [Hp0 Hnd].
    unfold count at 1. rewrite Hdc. simpl.
    destruct (Hl p0 cv0) as [Hcv0 [pc Hpc]]; [left|].
    unfold count at 1. rewrite Hpc. simpl.
    set (cond := PyFloat.leb dc pc && bool_decide (cv0 ⊆ dominant_cover)).
    assert (Hcond : dominates counts coverage dominator p0 = cond).
    { unfold dominates. by rewrite Hdc, Hpc, Hdom, Hcv0. }
    destruct (IH (if cond then ddel acc p0 else acc))
      as (r & -> & Hwf' & Hget); [|done| |].
    { destruct cond; [by apply wf_ddel|done]. }
    { intros p cv Hp. apply Hl. by right. }
    exists r. split_and!; try done. intros p. rewrite Hget.
    destruct (decide (p0 = p)) as [<-|Hne].
    + rewrite (bool_decide_eq_false_2 (p0 ∈ dkeys l)) by done.
      rewrite (bool_decide_eq_true_2 (p0 ∈ p0 :: dkeys l)) by left.
      simpl. rewrite Hcond. destruct cond; [|done].
      rewrite dget_ddel by done. by rewrite decide_True.
    + assert (Hsame : bool_decide (p ∈ p0 :: dkeys l)
                      = bool_decide (p ∈ dkeys l)).
      { apply bool_decide_ext. rewrite elem_of_cons. naive_solver. }
      rewrite Hsame.
      destruct (bool_decide (p ∈ dkeys l)
                && dominates counts coverage dominator p); [done|].
      destruct cond; [|done].
      rewrite dget_ddel by done. by rewrite decide_False.
Qed.

End Counts.

(** X5. [remove_dominated(coverage, dominator)] deletes the predicates whose
    count is not below the dominator's and whose cover lies within the
    dominator's cover, and no other; the rest keep their covers. The
    dominator itself is deleted whenever its count is a number, so the
    result is smaller than [coverage]. *)
Theorem remove_dominated_spec (counts : dict float) (coverage : cover)
    (dominator : key) :
  wf coverage → dominator ∈ dkeys coverage →
  counted counts (dkeys coverage) →
  ∃ reduced,
    remove_dominated counts coverage dominator = Ok reduced
    ∧ wf reduced
    ∧ (∀ p, dget reduced p =
            if dominates counts coverage dominator p then None
            else dget coverage p)
    ∧ (∀ dc, dget counts dominator = Some dc → PyFloat.is_nan dc = false →
             (dominator ∉ dkeys reduced)
             ∧ (length reduced < length coverage)%nat).
Proof.
  intros Hwf Hd Hcnt. unfold remove_dominated.
  destruct (proj2 (dget_is_Some coverage dominator) Hd)
    as [dominant_cover Hdom].
  destruct (Hcnt dominator Hd) as [dc Hdc].
  unfold getitem. rewrite Hdom. simpl.
  destruct (remove_dominated_loop counts coverage dominator dominant_cover dc
              coverage Hdom Hdc coverage) as (r & Hr & Hwf' & Hget);
    [done|done| |].
  { intros p cv Hp. split; [by apply wf_elem_dget|].
    apply Hcnt. by apply (list_elem_of_fmap_2 fst) in Hp. }
  exists r. split; [exact Hr|].
  assert (Hspec : ∀ p, dget r p =
                       if dominates counts coverage dominator p then None
                       else dget coverage p).
  { intros p. rewrite Hget.
    destruct (decide (p ∈ dkeys coverage)) as [Hin|Hnin].
    - by rewrite bool_decide_eq_true_2.
    - rewrite bool_decide_eq_false_2 by done. simpl.
      apply dget_None in Hnin. rewrite Hnin. by destruct (dominates _ _ _ _). }
  split_and!; [done|done|].
  intros dc' Hdc' Hnan. rewrite Hdc in Hdc'. injection Hdc' as <-.
  assert (Hgone : dominator ∉ dkeys r).
  { apply dget_None. rewrite Hspec. unfold dominates.
    rewrite Hdc, Hdom. rewrite LabelerFacts.leb_refl, Hnan. simpl.
    by rewrite bool_decide_eq_true_2. }
  split; [done|].
  assert (Hsub : dkeys r ⊆ dkeys coverage).
  { intros p [v Hv]%dget_is_Some. rewrite Hspec in Hv.
    destruct (dominates _ _ _ _); [done|]. apply dget_is_Some. eauto. }
  assert (Hlen : (length (dominator :: dkeys r) ≤ length (dkeys coverage))%nat).
  { apply submseteq_length, NoDup_submseteq.
    - apply NoDup_cons. done.
    - intros p [->|Hp]%elem_of_cons; [done|by apply Hsub]. }
  unfold dkeys in Hlen. simpl in Hlen. rewrite !length_fmap in Hlen. lia.
Qed.

Lemma remove_dominated_spec_witness :
  ∃ reduced,
    remove_dominated CoverExamples.three_costs CoverExamples.three_cover
      CoverExamples.q = Ok reduced
    ∧ wf reduced
    ∧ (∀ p, dget reduced p =
            if dominates CoverExamples.three_costs CoverExamples.three_cover
                 CoverExamples.q p
            then None else dget CoverExamples.three_cover p)
    ∧ (∀ dc, dget CoverExamples.three_costs CoverExamples.q = Some dc →
             PyFloat.is_nan dc = false →
             (CoverExamples.q ∉ dkeys reduced)
             ∧ (length reduced < length CoverExamples.three_cover)%nat).
Proof.
  apply (remove_dominated_spec CoverExamples.three_costs
           CoverExamples.three_cover CoverExamples.q).
  - apply (bool_decide_unpack _). vm_compute. reflexivity.
  - apply (bool_decide_unpack _). vm_compute. reflexivity.
  - intros k Hk.
    repeat (apply elem_of_cons in Hk as [->|Hk]);
      [eexists; vm_compute; reflexivity ..|].
    by apply elem_of_nil in Hk.
Defined.

(** ** The budget of calls *)

Section Budget.
Variable counts : dict float.

Lemma search_fuel_calls (fuel : nat) :
  ∀ (self : BranchBound) (candidates : cover) (partial : list key)
    (self' : BranchBound) (r : rules),
    search_fuel counts fuel self candidates partial = Ok (self', r) →
    (calls self ≤ 0 ∧ self' = self)
    ∨ (0 < calls self ∧ 0 ≤ calls self' ≤ calls self - 1).
Proof.
  induction fuel as [|fuel IH]; intros self candidates partial self' r; simpl.
  - destruct (calls self <=? 0) eqn:Hcalls; [|done].
    apply Z.leb_le in Hcalls. intros [-> _]%return_cheapest_inv. by left.
  - destruct (calls self <=? 0) eqn:Hcalls.
    { apply Z.leb_le in Hcalls. intros [-> _]%return_cheapest_inv. by left. }
    apply Z.leb_gt in Hcalls. intros Hs. right. split; [done|].
    revert Hs.
    assert (Hc0 : calls (first_call self candidates) = calls self).
    { unfold first_call. by destruct (original_cover self). }
    set (self0 := first_call self candidates) in *.
    destruct (covered _ partial) as [n|]; [|done]. simpl.
    destruct (score counts partial) as [s|]; [|done]. simpl.
    destruct (target self0 <=? Z.of_nat n).
    { intros [-> _]%return_cheapest_inv.
      destruct (PyFloat.ltb s (cheapest_score self0)); simpl; lia. }
    destruct (within_window counts _ candidates) as [cands|]; [|done]. simpl.
    destruct (reachable cands) as [m|]; [|done]. simpl.
    destruct cands as [|c0 cands0].
    { intros [-> _]%return_cheapest_inv. simpl. lia. }
    destruct (target self0 <=? Z.of_nat (m + n)).
    2:{ intros [-> _]%return_cheapest_inv. simpl. lia. }
    destruct (max_by counts (c0 :: cands0)) as [best|]; [|done]. simpl.
    destruct (getitem (c0 :: cands0) best) as [best_cover|]; [|done]. simpl.
    destruct (search_fuel counts fuel _ _ (partial ++ [best]))
      as [[self3 r3]|] eqn:H3; [|done]. simpl.
    destruct (remove_dominated counts (c0 :: cands0) best) as [reduced|];
      [|done]. simpl.
    destruct (search_fuel counts fuel self3 reduced partial)
      as [[self4 r4]|] eqn:H4; [|done]. simpl.
    intros [-> _]%return_cheapest_inv.
    apply IH in H3. apply IH in H4.
    assert (H3' : 0 ≤ calls self3 ≤ calls self - 1).
    { destruct H3 as [[? ->]|[? ?]]; simpl in *; lia. }
    destruct H4 as [[? ->]|[? ?]]; lia.
Qed.

End Budget.

(** X6. [search] keeps to its budget: a call on a searcher with a positive
    number of calls left runs the body at least once and leaves a number
    of calls that is not negative; with no call left it changes nothing. *)
Theorem search_calls_budget (counts : dict float) (self : BranchBound)
    (candidates : cover) (partial : list key) (self' : BranchBound)
    (r : rules) :
  search counts self candidates partial = Ok (self', r) →
  (calls self ≤ 0 ∧ self' = self)
  ∨ (0 < calls self ∧ 0 ≤ calls self' ≤ calls self - 1).
Proof. apply search_fuel_calls. Qed.

Lemma search_calls_budget_witness :
  ∃ self' r,
    search CoverExamples.three_costs (init 3 2500) CoverExamples.three_cover []
    = Ok (self', r)
    ∧ ((calls (init 3 2500) ≤ 0 ∧ self' = init 3 2500)
       ∨ (0 < calls (init 3 2500)
          ∧ 0 ≤ calls self' ≤ calls (init 3 2500) - 1)).
Proof.
  destruct (search CoverExamples.three_costs (init 3 2500)
              CoverExamples.three_cover []) as [[self' r]|] eqn:Hs;
    [|vm_compute in Hs; discriminate Hs].
  exists self', r. split; [reflexivity|].
  exact (search_calls_budget CoverExamples.three_costs (init 3 2500)
           CoverExamples.three_cover [] self' r Hs).
Defined.

End SearchProps.

(* ===================================================================== *)
(** * More on BlockLearner.learn *)
(* ===================================================================== *)

Module LearnProps.
Import Dict Py Cover CoverAux BranchBound BranchBoundAux BlockLearner.
Import DictFacts BranchBoundFacts LearnFacts CoverProps.

(** [int((1.0 - 1.0) * n)] is 0 whenever it is a number. *)
Lemma epsilon_of_one (n : nat) (epsilon : Z) :
  epsilon_of (PyFloat.of_int 1) n = Ok epsilon → epsilon = 0.
Proof.
  unfold epsilon_of.
  replace (PyFloat.sub (PyFloat.of_int 1) (PyFloat.of_int 1))
    with (S754_zero false) by (vm_compute; reflexivity).
  destruct (PyFloat.of_int (Z.of_nat n)) as [s|s| |s m e]; simpl;
    try done; by intros [= <-].
Qed.

(** The pairs that a tuple of predicates covers. *)
Lemma covered_union (d : cover) (partial : list key) (n : nat) :
  covered (Some d) partial = Ok n →
  ∃ u : gset nat,
    size u = n
    ∧ ∀ i, i ∈ u ↔ ∃ p, p ∈ partial ∧ i ∈ val d p.
Proof.
  destruct partial as [|p0 partial].
  { intros [= <-]. exists ∅. split; [apply size_empty|].
    intros i. split; [set_solver|]. by intros (p & ?%elem_of_nil & _). }
  unfold covered. cbn [from_option bind].
  destruct (mapM (getitem d) (p0 :: partial)) as [sets|] eqn:E; [|done].
  cbn [bind]. destruct (set_union sets) as [u|] eqn:Hu; [|done].
  cbn [bind]. intros [= <-]. exists u. split; [done|].
  intros i. rewrite (set_union_elem _ _ i Hu).
  revert E. generalize (p0 :: partial). clear.
  intros l. revert sets. induction l as [|k l IH]; intros sets; simpl.
  - intros [= <-]. split; [by intros (v & ?%elem_of_nil & _)|].
    by intros (p & ?%elem_of_nil & _).
  - unfold getitem at 1. destruct (dget d k) as [s|] eqn:Hk; [|done]. simpl.
    destruct (mapM (getitem d) l) as [rest|]; [|done]. simpl.
    intros [= <-]. specialize (IH rest eq_refl). split.
    + intros (v & [->|Hv]%elem_of_cons & Hi).
      * exists k. split; [left|]. unfold val. by rewrite Hk.
      * destruct (proj1 IH) as (p & ? & ?); [eauto|].
        exists p. split; [by right|done].
    + intros (p & [->|Hp]%elem_of_cons & Hi).
      * exists s. split; [left|]. unfold val in Hi. by rewrite Hk in Hi.
      * destruct (proj2 IH) as (v & ? & ?); [eauto|].
        exists v. split; [by right|done].
Qed.

Section Learn.
Context {record : Type}.
Variable call : key → record → bool → res (list string).
Variable set_iter : list key → list key.

(** The cover handed to the search has no key twice. *)
Lemma dupe_cover_wf (self : BlockLearner) (matches : list (record * record))
    (d : cover) :
  dupe_cover call set_iter self matches = Ok d → wf d.
Proof.
  unfold dupe_cover.
  destruct (of_predicates _ _ _) as [d0|]; [|done]. simpl.
  destruct (compound _ d0) as [d1|]; [|done]. simpl.
  destruct (intersection_update _ _ d1) as [d2|]; [|done]. simpl.
  unfold dominators.
  destruct (mapM _ _) as [dec|]; [|done]. simpl.
  generalize ((sort_decorated tuple_lt dec).*2).
  assert (Hgen : ∀ (l : list key) (acc : cover),
            wf acc → dominators_loop (comparison_count self) d2 l acc
                     = Ok d → wf d).
  { induction l as [|c l IH]; intros acc Hacc; simpl.
    - by intros [= <-].
    - destruct (getitem d2 c) as [cm|]; [|done]. simpl.
      destruct (getitem _ c) as [cc|]; [|done]. simpl.
      destruct (dominated _ _ _ _ _) as [dom|]; [|done]. simpl.
      apply IH. destruct dom; [done|by apply wf_dset]. }
  intros l. apply Hgen. apply NoDup_nil_2.
Qed.

Lemma learn_inv (self : BlockLearner) (matches : list (record * record))
    (recall : float) (r : rules) (warned : bool) :
  learn call set_iter self matches recall = Ok (r, warned) →
  ∃ (d : cover) (coverable : gset nat) (epsilon : Z),
    dupe_cover call set_iter self matches = Ok d
    ∧ set_union (dvalues d) = Ok coverable
    ∧ epsilon_of recall (length matches) = Ok epsilon
    ∧ (size coverable ≤ length matches)%nat
    ∧ warned
      = bool_decide (epsilon < Z.of_nat (length matches - size coverable))
    ∧ feasible
        (Z.of_nat (size coverable)
         - (if warned then 0
            else epsilon - Z.of_nat (length matches - size coverable)))
        d r.
Proof.
  unfold learn.
  destruct (dupe_cover call set_iter self matches) as [d|] eqn:Hd; [|done].
  simpl.
  destruct (set_union (dvalues d)) as [coverable|] eqn:Hc; [|done]. simpl.
  destruct (epsilon_of recall (length matches)) as [epsilon|] eqn:He;
    [|done].
  simpl.
  destruct (attach_counts _ d) as [counts|]; [|done]. simpl.
  destruct (search counts _ d []) as [[searcher r']|] eqn:Hs; [|done]. simpl.
  destruct (len_rules r') as [n_rules|]; [|done]. simpl.
  intros [= -> <-].
  assert (Hbound : ∀ x, x ∈ coverable → (x < length matches)%nat).
  { intros x (v & Hv & Hx)%(set_union_elem _ _ x Hc).
    by apply (dupe_cover_bounded call set_iter self matches d Hd v). }
  pose proof (uncoverable_length matches coverable Hbound) as Hlen.
  apply search_new_returns in Hs.
  exists d, coverable, epsilon.
  assert (Hu : length (uncoverable_from 0 matches coverable)
               = (length matches - size coverable)%nat) by lia.
  rewrite Hu in Hs |- *. split_and!; try done. lia.
Qed.

End Learn.

(** The rules learnt with [recall=1.0] cover what the cover covers. *)
Lemma learn_full_recall_cover {record : Type}
    (call : key → record → bool → res (list string))
    (set_iter : list key → list key)
    (self : BlockLearner) (matches : list (record * record))
    (r : rules) (warned : bool) :
  learn call set_iter self matches (PyFloat.of_int 1) = Ok (r, warned) →
  ∃ d : cover,
    dupe_cover call set_iter self matches = Ok d
    ∧ predicates_of r ⊆ dkeys d
    ∧ ∀ k i, i ∈ val d k → ∃ p, p ∈ predicates_of r ∧ i ∈ val d p.
Proof.
  intros Hl.
  destruct (learn_inv call set_iter self matches _ r warned Hl)
    as (d & coverable & eps & Hd & Hc & He & Hsize & Hw & Hfeas).
  apply epsilon_of_one in He as ->.
  exists d. split; [done|].
  assert (Hcov : ∀ k i, i ∈ val d k → i ∈ coverable).
  { intros k i Hi. apply (set_union_elem _ _ i Hc).
    unfold val in Hi. destruct (dget d k) as [v|] eqn:Hv; [|set_solver].
    exists v. split; [by eapply dget_dvalues|done]. }
  destruct Hfeas as [->|(partial & n & -> & Hn & Htarget)].
  - split; [done|]. intros k i Hi. simpl.
    unfold val in Hi. destruct (dget d k) as [v|] eqn:Hv; [|set_solver].
    exists k. split; [apply dget_is_Some; eauto|].
    unfold val. by rewrite Hv.
  - simpl. split.
    + intros p Hp. destruct partial as [|p0 partial];
        [by apply elem_of_nil in Hp|].
      unfold covered in Hn. cbn [from_option bind] in Hn.
      destruct (mapM (getitem d) (p0 :: partial)) as [sets|] eqn:E; [|done].
      clear Hn. revert sets E Hp. generalize (p0 :: partial). clear.
      induction l as [|q l IH]; intros sets; simpl;
        [by intros _ ?%elem_of_nil|].
      unfold getitem at 1. destruct (dget d q) as [v|] eqn:Hq; [|done].
      simpl. destruct (mapM (getitem d) l) as [rest|]; [|done].
      intros _ [->|Hp]%elem_of_cons.
      * apply dget_is_Some. eauto.
      * by apply (IH rest).
    + intros k i Hi.
      destruct (covered_union d partial n Hn) as (u & Hu & Hmem).
      pose proof (covered_le_coverable d partial coverable n Hn Hc) as Hle.
      assert (Hsub : u ⊆ coverable).
      { intros x Hx. apply Hmem in Hx as (p & Hp & Hx). by eapply Hcov. }
      assert (Heq : u = coverable).
      { apply set_subseteq_size_eq; [done|].
        rewrite Hu. destruct warned; lia. }
      apply Hmem. rewrite Heq. by eapply Hcov.
Qed.

(** X7. With [recall=1.0], as the labeler calls it, whatever [learn]
    returns covers every match that some predicate of the cover covers:
    each coverable match is in the cover of one of the predicates
    returned; and the warning is logged exactly when a match is covered by
    no predicate. *)
Theorem learn_full_recall {record : Type}
    (call : key → record → bool → res (list string))
    (set_iter : list key → list key)
    (self : BlockLearner) (matches : list (record * record))
    (r : rules) (warned : bool) :
  learn call set_iter self matches (PyFloat.of_int 1) = Ok (r, warned) →
  ∃ (d : cover) (coverable : gset nat),
    dupe_cover call set_iter self matches = Ok d
    ∧ set_union (dvalues d) = Ok coverable
    ∧ (∀ i, i ∈ coverable → ∃ p, p ∈ predicates_of r ∧ i ∈ val d p)
    ∧ warned = bool_decide (size coverable < length matches)%nat.
Proof.
  intros Hl.
  destruct (learn_inv call set_iter self matches _ r warned Hl)
    as (d & coverable & eps & Hd & Hc & He & Hsize & Hw & Hfeas).
  apply epsilon_of_one in He as ->.
  exists d, coverable. split_and!; try done.
  - intros i Hi. destruct Hfeas as [->|(partial & n & -> & Hn & Htarget)].
    + simpl. apply (set_union_elem _ _ i Hc) in Hi as (v & Hv & Hi).
      apply list_elem_of_fmap in Hv as ([p v'] & -> & Hpv).
      exists p. split; [by apply (list_elem_of_fmap_2 fst) in Hpv|].
      unfold val.
      by rewrite (wf_elem_dget d p v'
                    (dupe_cover_wf call set_iter self matches d Hd) Hpv).
    + simpl. destruct (covered_union d partial n Hn) as (u & Hu & Hmem).
      pose proof (covered_le_coverable d partial coverable n Hn Hc) as Hle.
      assert (Hsub : u ⊆ coverable).
      { intros x Hx. apply Hmem in Hx as (p & Hp & Hx).
        apply (set_union_elem _ _ x Hc).
        unfold val in Hx. destruct (dget d p) as [v|] eqn:Hv; [|set_solver].
        exists v. split; [by eapply dget_dvalues|done]. }
      assert (Heq : u = coverable).
      { apply set_subseteq_size_eq; [done|].
        rewrite Hu. destruct warned; lia. }
      apply Hmem. by rewrite Heq.
  - rewrite Hw. apply bool_decide_ext. lia.
Qed.

Lemma learn_full_recall_witness :
  ∃ (r : rules) (warned : bool) (d : cover) (coverable : gset nat),
    learn LearnExamples.call id LearnExamples.learner LearnExamples.matches
      (PyFloat.of_int 1) = Ok (r, warned)
    ∧ dupe_cover LearnExamples.call id LearnExamples.learner
        LearnExamples.matches = Ok d
    ∧ set_union (dvalues d) = Ok coverable
    ∧ (∀ i, i ∈ coverable → ∃ p, p ∈ predicates_of r ∧ i ∈ val d p)
    ∧ warned = bool_decide (size coverable < length LearnExamples.matches)%nat.
Proof.
  destruct (learn LearnExamples.call id LearnExamples.learner
              LearnExamples.matches (PyFloat.of_int 1))
    as [[r warned]|] eqn:Hl; [|vm_compute in Hl; discriminate Hl].
  exists r, warned.
  destruct (learn_full_recall LearnExamples.call id LearnExamples.learner
              LearnExamples.matches r warned Hl) as (d & coverable & H).
  exists d, coverable. split; [reflexivity|exact H].
Defined.

(** X8. When no predicate blocks any of the matches together, and so in
    particular on an empty list of matches, [learn] raises [TypeError]:
    the cover is empty and [set.union] gets no argument. *)
Theorem learn_nothing_covered {record : Type}
    (call : key → record → bool → res (list string))
    (set_iter : list key → list key)
    (self : BlockLearner) (matches : list (record * record))
    (recall : float) :
  set_iter [] = [] →
  (∀ p records, p ∈ predicates self → records ∈ matches →
                blocks_together call p records = Ok false) →
  learn call set_iter self matches recall = Raise TypeError.
Proof.
  intros Hiter Hnone.
  assert (Hcov : ∀ p, p ∈ predicates self →
                      ∀ i, coverage_from call p i matches = Ok ∅).
  { intros p Hp. revert Hnone. generalize matches.
    induction matches0 as [|pr ms IH]; intros Hnone i; simpl; [done|].
    rewrite (Hnone p pr Hp) by left. simpl.
    rewrite IH; [done|]. intros q rs Hq Hrs. apply Hnone; [done|by right]. }
  assert (Hd0 : of_predicates call (predicates self) matches = Ok []).
  { unfold of_predicates, _cover. revert Hcov. generalize (predicates self).
    induction l as [|p l IH]; intros Hcov; simpl; [done|].
    rewrite (Hcov p) by left. simpl. rewrite decide_True by done.
    apply IH. intros q Hq. apply Hcov. by right. }
  unfold learn, dupe_cover. rewrite Hd0. simpl.
  assert (Hcompound : compound (compound_length self) [] = Ok []).
  { unfold compound. simpl.
    assert (Hgen : ∀ (len start : nat), (1 ≤ start)%nat →
              foldM (λ d i, foldM compound_one d (combinations [] i))
                    [] (seq start len) = Ok []).
    { induction len as [|len IH]; intros start Hs; simpl; [done|].
      destruct start as [|start]; [lia|]. simpl. apply IH. lia. }
    apply Hgen. lia. }
  rewrite Hcompound. simpl.
  unfold intersection_update. simpl. rewrite filter_nil, Hiter. simpl. done.
Qed.

Lemma learn_nothing_covered_witness :
  learn LearnExamples.call id LearnExamples.learner [] LearnExamples.recall
  = Raise TypeError.
Proof.
  apply (learn_nothing_covered LearnExamples.call id LearnExamples.learner
           [] LearnExamples.recall).
  - reflexivity.
  - intros p records _ Hr. by apply elem_of_nil in Hr.
Defined.

End LearnProps.

(* ===================================================================== *)
(** * More on the learners of labeler.py *)
(* ===================================================================== *)

Module LabelerProps.
Import Dict Numpy Cover Labeler LabelerAux LabelerAux2.
Import FloatOrderDefs FloatOrder LabelerFacts CoverProps.

(** ** predict *)

Section Predict.
Context {record : Type}.
Variable call : key → record → bool → res (list string).

Lemma blocks_together_true (p : key) (records : record * record) :
  blocks_together call p records = Ok true ↔
  ∃ keys keys_2, call p records.1 false = Ok keys
                 ∧ call p records.2 true = Ok keys_2
                 ∧ ∃ k, k ∈ keys ∧ k ∈ keys_2.
Proof.
  unfold blocks_together.
  destruct (call p records.1 false) as [keys|]; simpl.
  2:{ split; [done|]. by intros (? & ? & ? & _). }
  destruct (call p records.2 true) as [keys_2|]; simpl.
  2:{ split; [done|]. by intros (? & ? & _ & ? & _). }
  split.
  - intros [= H%bool_decide_eq_true]. exists keys, keys_2.
    split_and!; try done. by apply Exists_exists in H.
  - intros (? & ? & [= <-] & [= <-] & Hk). f_equal.
    apply bool_decide_eq_true. by apply Exists_exists.
Qed.

Lemma predict_one_spec (predicates : list key) (records : record * record)
    (label : Z) :
  predict_one call predicates records = Ok label →
  (label = 0 ∨ label = 1)
  ∧ (label = 1 ↔ ∃ p, p ∈ predicates
                      ∧ blocks_together call p records = Ok true).
Proof.
  induction predicates as [|p predicates IH]; simpl.
  - intros [= <-]. split; [by left|]. split; [done|].
    by intros (p & ?%elem_of_nil & _).
  - destruct (call p records.1 false) as [keys|] eqn:Hk; [|done]. simpl.
    assert (Hnext : predict_one call predicates records = Ok label →
              blocks_together call p records ≠ Ok true →
              (label = 0 ∨ label = 1)
              ∧ (label = 1 ↔ ∃ q, q ∈ p :: predicates
                                  ∧ blocks_together call q records = Ok true)).
    { intros Hl Hp. destruct (IH Hl) as [H01 Hiff]. split; [done|].
      rewrite Hiff. split.
      - intros (q & ? & ?). exists q. split; [by right|done].
      - intros (q & [->|Hq]%elem_of_cons & Hb); [done|eauto]. }
    destruct keys as [|k0 keys].
    { intros Hl. apply Hnext; [done|].
      rewrite blocks_together_true. rewrite Hk.
      intros (? & ? & [= <-] & _ & k & ?%elem_of_nil & _). done. }
    destruct (call p records.2 true) as [keys_2|] eqn:Hk2; [|done]. simpl.
    case_bool_decide as Hex.
    + intros [= <-]. split; [by right|]. split; [|done]. intros _.
      exists p. split; [left|]. apply blocks_together_true.
      rewrite Hk, Hk2. eexists _, _. split_and!; try done.
      apply Exists_exists in Hex as (k & ? & ?). eauto.
    + intros Hl. apply Hnext; [done|].
      rewrite blocks_together_true. rewrite Hk, Hk2.
      intros (? & ? & [= <-] & [= <-] & k & ? & ?).
      apply Hex, Exists_exists. eauto.
Qed.

End Predict.

(** X9. [predict] gives each candidate pair one label, 0 or 1, and the
    label is 1 exactly when one of the current predicates blocks the two
    records together, as [Cover] counts a pair covered. With no current
    predicate every label is 0. *)
Theorem predict_spec {record : Type}
    (call : key → record → bool → res (list string))
    (self : BlockLearner) (candidates : list (record * record))
    (labels : list Z) :
  predict call self candidates = Ok labels →
  length labels = length candidates
  ∧ ∀ i label records,
      labels !! i = Some label → candidates !! i = Some records →
      (label = 0 ∨ label = 1)
      ∧ (label = 1 ↔ ∃ p, p ∈ current_predicates self
                          ∧ blocks_together call p records = Ok true).
Proof.
  unfold predict. intros Hl. split; [by eapply mapM_length|].
  revert labels Hl. induction candidates as [|c cs IH]; intros labels; simpl.
  - by intros [= <-] i label records ?.
  - destruct (predict_one call _ c) as [l|] eqn:Hone; [|done]. simpl.
    destruct (mapM _ cs) as [ls|]; [|done]. simpl.
    intros [= <-] [|i] label records; simpl.
    + intros [= <-] [= <-]. by apply predict_one_spec.
    + by apply IH.
Qed.

Lemma predict_spec_witness :
  ∃ labels,
    predict LearnExamples.call
      {| current_predicates := [LearnExamples.whole];
         _cached_labels := None |} LearnExamples.matches = Ok labels
    ∧ length labels = length LearnExamples.matches
    ∧ ∀ i label records,
        labels !! i = Some label →
        LearnExamples.matches !! i = Some records →
        (label = 0 ∨ label = 1)
        ∧ (label = 1 ↔ ∃ p, p ∈ [LearnExamples.whole]
                            ∧ blocks_together LearnExamples.call p records
                              = Ok true).
Proof.
  eexists. split; [vm_compute; reflexivity|].
  apply (predict_spec LearnExamples.call
           {| current_predicates := [LearnExamples.whole];
              _cached_labels := None |} LearnExamples.matches).
  vm_compute. reflexivity.
Defined.

(** ** Successive pops *)

Section Pops.
Context {record weights : Type}.
Variable call : key → record → bool → res (list string).
Variable predict_row : weights → list float → float.
(** The predicates raise nothing on these records. *)
Hypothesis call_ok : ∀ p r target, ∃ keys, call p r target = Ok keys.

Local Abbreviation learner := (@DisagreementLearner record weights).
Local Abbreviation aligned := (@LabelerAux2.aligned record weights).

Lemma predict_one_ok (predicates : list key) (records : record * record) :
  ∃ label, predict_one call predicates records = Ok label.
Proof.
  induction predicates as [|p predicates IH]; simpl; [eauto|].
  destruct (call_ok p records.1 false) as [keys ->]. simpl.
  destruct keys as [|k keys]; [done|].
  destruct (call_ok p records.2 true) as [keys_2 ->]. simpl.
  case_bool_decide; [eauto|done].
Qed.

Lemma predict_ok (b : BlockLearner) (pairs : list (record * record)) :
  ∃ labels, predict call b pairs = Ok labels.
Proof.
  unfold predict. induction pairs as [|c cs IH]; simpl; [eauto|].
  destruct (predict_one_ok (current_predicates b) c) as [l ->]. simpl.
  destruct IH as [ls ->]. simpl. eauto.
Qed.

Lemma block_candidate_scores_ok (self : learner) :
  aligned self →
  ∃ b labels,
    block_candidate_scores call (blocker self) (candidates self)
    = Ok (b, labels)
    ∧ _cached_labels b = Some labels
    ∧ length labels = length (candidates self).
Proof.
  intros [_ Hlabels]. unfold block_candidate_scores.
  destruct (_cached_labels (blocker self)) as [labels|] eqn:Hc.
  - exists (blocker self), labels. split_and!; [done|done|by apply Hlabels].
  - destruct (predict_ok (blocker self) (candidates self)) as [labels Hp].
    rewrite Hp. simpl. eexists _, labels. split_and!; [done|done|].
    by eapply mapM_length.
Qed.

Lemma pop_step (self : learner) (target : float) :
  aligned self → candidates self ≠ [] →
  ∃ (i : nat) (uncertain_pair : record * record) (self' : learner),
    pop call predict_row self target = (self', Ok [uncertain_pair])
    ∧ candidates self !! i = Some uncertain_pair
    ∧ candidates self' = delete i (candidates self)
    ∧ aligned self'.
Proof.
  intros Hal Hne.
  destruct (block_candidate_scores_ok self Hal)
    as (b & labels & Hb & Hcached & Hlabels).
  destruct Hal as [(rows & Hrows & Hlen) _].
  set (probs := zip (predict_row (rlr_weights (classifier self)) <$> rows)
                    (PyFloat.of_int <$> labels)).
  assert (Hprobs : length probs = length (candidates self)).
  { unfold probs. rewrite length_zip, !length_fmap. lia. }
  destruct (uncertain_index_ok probs target) as (i & Hidx & Hi).
  { intros Hnil. rewrite Hnil in Hprobs.
    by destruct (candidates self). }
  rewrite Hprobs in Hi.
  destruct (lookup_lt_is_Some_2 (candidates self) i Hi) as [pr Hpr].
  assert (Hcat : concatenate_columns
                   (predict_row (rlr_weights (classifier self)) <$> rows)
                   (PyFloat.of_int <$> labels) = Ok probs).
  { unfold concatenate_columns.
    by rewrite decide_True by (by rewrite !length_fmap, Hlen, Hlabels). }
  exists i, pr,
    {| candidates := delete i (candidates self);
       classifier := set_distances (classifier self) (Array (delete i rows));
       blocker := set_cached_labels b (Some (delete i labels)) |}.
  split_and!; [|done|done|].
  - unfold pop.
    destruct (candidates self) as [|c cs] eqn:Hc; [done|].
    unfold rlr_candidate_scores, predict_proba. rewrite Hrows, Hb.
    cbn [bind Labeler.candidates Labeler.classifier Labeler.blocker].
    rewrite Hcat. cbn [bind]. rewrite Hidx. cbn [bind].
    unfold list_pop. rewrite Hpr. cbn [bind].
    rewrite (rlr_remove_ok _ rows i Hrows) by lia.
    by rewrite (block_remove_ok b labels i Hcached) by lia.
  - split; simpl.
    + exists (delete i rows). split; [done|].
      rewrite !length_delete; [lia|eauto|].
      apply lookup_lt_is_Some_2. lia.
    + intros labels' [= <-].
      rewrite !length_delete; [lia|eauto|].
      apply lookup_lt_is_Some_2. lia.
Qed.

Lemma pops_all (draws : list float) :
  ∀ self : learner,
    aligned self → length draws = length (candidates self) →
    ∃ (self' : learner) (out : list (record * record)),
      pops call predict_row self draws = Ok (self', out)
      ∧ out ≡ₚ candidates self
      ∧ candidates self' = [].
Proof.
  induction draws as [|target draws IH]; intros self Hal Hlen; simpl.
  - exists self, []. destruct (candidates self); [done|done].
  - destruct (pop_step self target Hal) as (i & pr & self1 & -> & Hi & Hc & Hal1).
    { by destruct (candidates self). }
    destruct (IH self1 Hal1) as (self' & out & -> & Hperm & Hnil).
    { rewrite Hc, length_delete by eauto. simpl in Hlen. lia. }
    simpl. exists self', (pr :: out). split_and!; [done| |done].
    rewrite Hperm, Hc. symmetry. by apply delete_Permutation.
Qed.

End Pops.

(** X10. On a learner whose classifier holds a row of distances for each
    candidate (and whose cached labels, if any, are one for each), with
    predicates that raise nothing, as many calls of [pop] as there are
    candidates all return a pair, whatever the draws; the pairs returned
    are the candidates, each once; the pool is then empty, and one more
    [pop] raises [IndexError]. *)
Theorem pops_exhaust {record weights : Type}
    (call : key → record → bool → res (list string))
    (predict_row : weights → list float → float)
    (self : @DisagreementLearner record weights) (draws : list float) :
  (∀ p r target, ∃ keys, call p r target = Ok keys) →
  LabelerAux2.aligned self →
  length draws = length (candidates self) →
  ∃ (self' : @DisagreementLearner record weights)
    (out : list (record * record)),
    pops call predict_row self draws = Ok (self', out)
    ∧ out ≡ₚ candidates self
    ∧ candidates self' = []
    ∧ ∀ target, pop call predict_row self' target = (self', Raise IndexError).
Proof.
  intros Hcall Hal Hlen.
  destruct (pops_all call predict_row Hcall draws self Hal Hlen)
    as (self' & out & Hp & Hperm & Hnil).
  exists self', out. split_and!; try done.
  intros target. by apply pop_empty.
Qed.

Lemma pops_exhaust_witness :
  ∃ (self' : @DisagreementLearner string unit) (out : list (string * string)),
    pops LabelerExamples.no_call LabelerExamples.score_first
      LabelerExamples.one_conflict
      [LabelerExamples.draw_low; LabelerExamples.draw_high;
       LabelerExamples.draw_low] = Ok (self', out)
    ∧ out ≡ₚ candidates LabelerExamples.one_conflict
    ∧ candidates self' = []
    ∧ ∀ target, pop LabelerExamples.no_call LabelerExamples.score_first
                  self' target = (self', Raise IndexError).
Proof.
  apply (pops_exhaust LabelerExamples.no_call LabelerExamples.score_first
           LabelerExamples.one_conflict
           [LabelerExamples.draw_low; LabelerExamples.draw_high;
            LabelerExamples.draw_low]).
  - intros p r target. by exists [].
  - split.
    + eexists. split; reflexivity.
    + intros labels [= <-]. reflexivity.
  - reflexivity.
Defined.

End LabelerProps.

(* ===================================================================== *)
(** * Properties of BlockLearner.compound, Compounder and comparisons *)
(* ===================================================================== *)

Module ComparisonsProps.
Import Predicates PredicateRepr Dict Py Counter Comparisons ComparisonsAux.
Import DictFacts CounterFacts CompoundFacts CompoundAux.

(** ** The generator of compound predicates *)

Lemma compound_pairs_2 (l : list Predicate) :
  ∃ yielded,
    compound_pairs (combinations l 2) = (yielded, None)
    ∧ ∀ x, x ∈ yielded →
           ∃ a b, x = Compound [a; b] ∧ [a; b] ∈ combinations l 2
                  ∧ compounds_with a b = true ∧ compounds_with b a = true.
Proof.
  assert (Hgen : ∀ cs : list (list Predicate),
            (∀ c, c ∈ cs → ∃ a b, c = [a; b]) →
            ∃ yielded,
              compound_pairs cs = (yielded, None)
              ∧ ∀ x, x ∈ yielded →
                     ∃ a b, x = Compound [a; b] ∧ [a; b] ∈ cs
                            ∧ compounds_with a b = true
                            ∧ compounds_with b a = true).
  { induction cs as [|c cs IH]; intros Hcs; simpl.
    - exists []. split; [done|]. by intros x ?%elem_of_nil.
    - destruct (Hcs c) as (a & b & ->); [left|].
      destruct IH as (ys & -> & Hys).
      { intros c Hc. apply Hcs. by right. }
      eexists. split; [done|]. intros x Hx.
      destruct (compounds_with a b && compounds_with b a) eqn:Hab.
      + apply elem_of_cons in Hx as [->|Hx].
        * apply andb_true_iff in Hab as [? ?].
          exists a, b. split_and!; try done. left.
        * destruct (Hys x Hx) as (a' & b' & ? & ? & ? & ?).
          exists a', b'. split_and!; try done. by right.
      + destruct (Hys x Hx) as (a' & b' & ? & ? & ? & ?).
        exists a', b'. split_and!; try done. by right. }
  apply Hgen. intros c (a & b & -> & _)%combinations_2_elem. eauto.
Qed.





Lemma compound_generator_parts (str_float : float → string)
    (simple_predicates : list Predicate) (compound_length : nat) :
  (∀ p, p ∈ simple_predicates →
        Single p ∈ (compound str_float simple_predicates compound_length).1)
  ∧ (∀ x, x ∈ (compound str_float simple_predicates compound_length).1 →
          (∃ p, x = Single p ∧ p ∈ simple_predicates)
          ∨ (∃ a b, x = Compound [a; b]
                    ∧ a ∈ simple_predicates ∧ b ∈ simple_predicates))
  ∧ ((compound_length ≤ 2)%nat →
     (compound str_float simple_predicates compound_length).2 = None).
Proof.
  unfold compound.
  set (l := sorted String.ltb (__repr__ str_float) simple_predicates).
  assert (Hperm : l ≡ₚ simple_predicates) by apply sorted_perm.
  assert (Hsub : ∀ (m : list Predicate) j c, c ∈ combinations m j → c ⊆ m).
  { induction m as [|y m IHm]; intros [|j] c; simpl.
    - intros ->%list_elem_of_singleton. done.
    - by intros ?%elem_of_nil.
    - intros ->%list_elem_of_singleton. by intros z ?%elem_of_nil.
    - intros [Hc|Hc]%elem_of_app.
      + apply list_elem_of_fmap in Hc as (c' & -> & Hc').
        intros z [->|Hz]%elem_of_cons; [left|right].
        by apply (IHm j c').
      + intros z Hz. right. by apply (IHm (S j) c). }
  split_and!.
  - intros p Hp.
    destruct (compound_lengths l _) as [yielded e]. simpl.
    apply elem_of_app. left. apply list_elem_of_fmap_2. by rewrite Hperm.
  - intros x.
    destruct (compound_lengths l (seq 2 (compound_length - 1)))
      as [yielded e] eqn:Hg. simpl.
    intros [Hx|Hx]%elem_of_app.
    + left. apply list_elem_of_fmap in Hx as (p & -> & Hp).
      exists p. split; [done|]. by rewrite <- Hperm.
    + right. revert yielded e Hg x Hx.
      induction (seq 2 (compound_length - 1)) as [|i lengths IH];
        intros yielded e; simpl.
      * by intros [= <- <-] x ?%elem_of_nil.
      * assert (Hpairs : ∀ cs y, y ∈ (compound_pairs cs).1 →
                  ∃ a b, y = Compound [a; b] ∧ [a; b] ∈ cs).
        { induction cs as [|c cs IHcs]; intros y; simpl.
          - by intros ?%elem_of_nil.
          - destruct c as [|a [|b [|z c]]]; simpl;
              try (by intros ?%elem_of_nil).
            destruct (compound_pairs cs) as [ys e0]. simpl in *.
            destruct (compounds_with a b && compounds_with b a); simpl.
            + intros [->|Hy]%elem_of_cons.
              * exists a, b. split; [done|left].
              * destruct (IHcs y Hy) as (a' & b' & ? & ?).
                exists a', b'. split; [done|by right].
            + intros Hy. destruct (IHcs y Hy) as (a' & b' & ? & ?).
              exists a', b'. split; [done|by right]. }
        destruct (compound_pairs (combinations l i)) as [ys [e0|]] eqn:Hp.
        -- intros [= <- <-] x Hx.
           destruct (Hpairs (combinations l i) x) as (a & b & -> & Hc).
           { by rewrite Hp. }
           exists a, b. rewrite <- !Hperm.
           split_and!; [done|apply (Hsub l i _ Hc); left|].
           apply (Hsub l i _ Hc). right. left.
        -- destruct (compound_lengths l lengths) as [ys' e'] eqn:Hl.
           intros [= <- <-] x [Hx|Hx]%elem_of_app.
           ++ destruct (Hpairs (combinations l i) x) as (a & b & -> & Hc).
              { by rewrite Hp. }
              exists a, b. rewrite <- !Hperm.
              split_and!; [done|apply (Hsub l i _ Hc); left|].
              apply (Hsub l i _ Hc). right. left.
           ++ by apply (IH ys' e').
  - intros Hn.
    assert (Hcases : (compound_length - 1 = 0 ∨ compound_length - 1 = 1)%nat)
      by lia.
    destruct Hcases as [-> | ->]; simpl; [done|].
    by destruct (compound_pairs_2 l) as (ys & -> & _).
Qed.


(** ** Compounder *)

Lemma count_mul (A B : Counter) (k : nat) :
  count (mul A B) k = count A k * count B k.
Proof.
  unfold count. rewrite mul_lookup.
  destruct (_d A !! k), (_d B !! k); simpl; lia.
Qed.

Lemma foldr_mul_perm (l1 l2 : list Z) :
  l1 ≡ₚ l2 → foldr Z.mul 1 l1 = foldr Z.mul 1 l2.
Proof. induction 1; simpl; lia. Qed.

Section Call.
Variable cover : dict Counter.

Local Abbreviation consistent := (ComparisonsAux.consistent cover).

Lemma call_rev_long (self : Compounder) (b a1 a2 : key) (rest : list key) :
  call_rev cover self (b :: a1 :: a2 :: rest) =
  let a := rev (a1 :: a2 :: rest) in
  if decide (Some a = _cached_predicate self) then
    b_cover ←! getitem cover b;
    a_cover ←! from_option TypeError (_cached_cover self);
    Ok (self, mul a_cover b_cover)
  else
    r ←! call_rev cover self (a1 :: a2 :: rest);
    b_cover ←! getitem cover b;
    Ok ({| _cached_predicate := Some a; _cached_cover := Some r.2 |},
        mul r.2 b_cover).
Proof. reflexivity. Qed.

Lemma product_rev_long (b a1 a2 : key) (rest : list key) :
  product_rev cover (b :: a1 :: a2 :: rest) =
  (a_cover ←! product_rev cover (a1 :: a2 :: rest);
   b_cover ←! getitem cover b;
   Ok (mul a_cover b_cover)).
Proof. reflexivity. Qed.

Lemma call_rev_product (reversed : list key) :
  ∀ self : Compounder,
    consistent self →
    match call_rev cover self reversed with
    | Ok (self', c) => consistent self' ∧ product_rev cover reversed = Ok c
    | Raise e => product_rev cover reversed = Raise e
    end.
Proof.
  induction reversed as [|b reversed_a IH]; intros self Hself; [done|].
  destruct reversed_a as [|a1 [|a2 rest]].
  - done.
  - simpl. destruct (getitem cover a1) as [ca|]; simpl; [|done].
    destruct (getitem cover b) as [cb|]; simpl; done.
  - rewrite call_rev_long, product_rev_long. cbv zeta.
    destruct (decide (Some (rev (a1 :: a2 :: rest)) = _cached_predicate self))
      as [Hhit|Hmiss].
    + destruct (Hself _ (eq_sym Hhit)) as (c & Hc & Hprod).
      unfold product in Hprod. rewrite rev_involutive in Hprod.
      rewrite Hc, Hprod. cbn [bind from_option].
      destruct (getitem cover b) as [cb|]; cbn [bind]; done.
    + specialize (IH self Hself).
      destruct (call_rev cover self (a1 :: a2 :: rest)) as [[self' c]|e].
      * destruct IH as [_ Hprod]. rewrite Hprod. cbn [bind].
        destruct (getitem cover b) as [cb|]; cbn [bind]; [|done].
        split; [|done]. intros a Ha. cbn [_cached_predicate] in Ha.
        assert (Ha' : a = rev (a1 :: a2 :: rest)) by congruence.
        exists c. split; [done|].
        unfold product. rewrite Ha'. by rewrite rev_involutive.
      * by rewrite IH.
Qed.

Lemma product_rev_count (reversed : list key) :
  ∀ c, product_rev cover reversed = Ok c →
       ∀ k, count c k = count_product cover reversed k.
Proof.
  induction reversed as [|b reversed_a IH]; intros c; [done|].
  destruct reversed_a as [|a1 [|a2 rest]].
  - done.
  - simpl. unfold getitem, count_product. simpl.
    destruct (dget cover a1) as [ca|]; simpl; [|done].
    destruct (dget cover b) as [cb|]; simpl; [|done].
    intros [= <-] k. rewrite count_mul. lia.
  - rewrite product_rev_long.
    destruct (product_rev cover (a1 :: a2 :: rest)) as [ca|] eqn:Ha;
      cbn [bind]; [|done].
    unfold getitem. destruct (dget cover b) as [cb|] eqn:Hb; cbn; [|done].
    intros [= <-] k. rewrite count_mul, (IH ca eq_refl k).
    unfold count_product. cbn [fmap list_fmap foldr]. rewrite Hb. lia.
Qed.

End Call.

(** X12. A [Compounder] returns for a tuple of predicates what it would
    compute without its cache, the product of the counters of the
    predicates (each pair id counted as many times as the product of its
    counts), and raises what that computation raises; the cache it leaves
    again holds the product of the tuple it names. *)
Theorem compounder_call_spec (cover : dict Counter) (self : Compounder)
    (compound_predicate : list key) :
  consistent cover self →
  match call cover self compound_predicate with
  | Ok (self', c) =>
      consistent cover self'
      ∧ product cover compound_predicate = Ok c
      ∧ ∀ k, count c k = count_product cover compound_predicate k
  | Raise e => product cover compound_predicate = Raise e
  end.
Proof.
  intros Hself. unfold call, product.
  pose proof (call_rev_product cover (rev compound_predicate) self Hself) as H.
  destruct (call_rev cover self (rev compound_predicate)) as [[self' c]|e];
    [|done].
  destruct H as [Hcons Hprod]. split_and!; try done.
  intros k. rewrite (product_rev_count cover _ c Hprod k).
  unfold count_product. apply foldr_mul_perm, fmap_Permutation.
  symmetry. apply Permutation_rev.
Qed.

Lemma compounder_call_spec_witness :
  match call ComparisonsExamples.counters Compounder_init
          [Pred "a"; Pred "b"; Pred "c"] with
  | Ok (self', c) =>
      consistent ComparisonsExamples.counters self'
      ∧ product ComparisonsExamples.counters [Pred "a"; Pred "b"; Pred "c"]
        = Ok c
      ∧ ∀ k, count c k
             = count_product ComparisonsExamples.counters
                 [Pred "a"; Pred "b"; Pred "c"] k
  | Raise e =>
      product ComparisonsExamples.counters [Pred "a"; Pred "b"; Pred "c"]
      = Raise e
  end.
Proof.
  apply (compounder_call_spec ComparisonsExamples.counters Compounder_init
           [Pred "a"; Pred "b"; Pred "c"]).
  intros a Ha. discriminate Ha.
Defined.

(** ** comparisons *)

Lemma estimate_cases (r : float) (c : Counter) :
  estimate r c = Ok (PyFloat.mul r (PyFloat.of_int (total c)))
  ∨ estimate r c = Raise OverflowError.
Proof.
  unfold estimate, float_of_int.
  destruct (PyFloat.of_int (total c)); simpl; auto.
Qed.

Section Comparisons.
Variable str_float : float → string.
Variable r : float.
Variable cover : dict Counter.

Local Abbreviation key_of := (to_key str_float).

Local Abbreviation known := (ComparisonsAux.known str_float cover).

Lemma comparisons_step_cases (state : Compounder * dict float) (x : item) :
  known x →
  (∃ compounder e,
     comparisons_step str_float r cover state x
     = Ok (compounder, dset state.2 (item_key str_float x) e)
     ∧ ∀ p c, x = Single p → dget cover (key_of p) = Some c →
              e = PyFloat.mul r (PyFloat.of_int (total c)))
  ∨ comparisons_step str_float r cover state x = Raise OverflowError.
Proof.
  destruct state as [compounder cc]. destruct x as [p|preds]; simpl.
  - intros [c Hc]%dget_is_Some. unfold getitem, item_key.
    rewrite Hc. simpl.
    destruct (estimate_cases r c) as [-> | ->]; simpl; [|by right].
    left. eexists _, _. split; [done|].
    intros p' c' [= <-] Hc'. congruence.
  - intros (a & b & -> & [ca Ha]%dget_is_Some & [cb Hb]%dget_is_Some).
    simpl. unfold call. simpl. unfold getitem. rewrite Ha, Hb. simpl.
    destruct (estimate_cases r (mul ca cb)) as [-> | ->]; simpl;
      [|by right].
    left. eexists _, _. split; [done|]. done.
Qed.

Lemma comparisons_loop (l : list item) :
  ∀ state : Compounder * dict float,
    Forall known l →
    match foldM (comparisons_step str_float r cover) state l with
    | Ok state' =>
        (∀ k, is_Some (dget state.2 k) → is_Some (dget state'.2 k))
        ∧ (∀ x, x ∈ l → is_Some (dget state'.2 (item_key str_float x)))
        ∧ (∀ p c e, dget cover (key_of p) = Some c →
                    dget state'.2 (key_of p) = Some e →
                    dget state.2 (key_of p) = Some e
                    ∨ e = PyFloat.mul r (PyFloat.of_int (total c)))
    | Raise e => e = OverflowError
    end.
Proof.
  induction l as [|x l IH]; intros state Hl; simpl.
  - split_and!; [done| |by left]. by intros x ?%elem_of_nil.
  - apply Forall_cons in Hl as [Hx Hl].
    destruct (comparisons_step_cases state x Hx)
      as [(compounder & e & -> & He)| ->]; [|done].
    simpl. specialize (IH (compounder, dset state.2 (item_key str_float x) e) Hl).
    destruct (foldM _ _ l) as [state'|]; [|done]. simpl in IH.
    destruct IH as (Hkeep & Hall & Hval). split_and!.
    + intros k Hk. apply Hkeep.
      destruct (decide (item_key str_float x = k)) as [<-|Hne].
      * by rewrite dget_dset_eq.
      * by rewrite dget_dset_ne.
    + intros y [->|Hy]%elem_of_cons; [|by apply Hall].
      apply Hkeep. by rewrite dget_dset_eq.
    + intros p c e' Hc He'.
      destruct (Hval p c e' Hc He') as [Hold|?]; [|by right].
      destruct (decide (item_key str_float x = key_of p)) as [Heq|Hne].
      * rewrite Heq, dget_dset_eq in Hold. injection Hold as <-.
        right. destruct x as [q|preds]; [|done].
        apply (He q c); [done|]. simpl in Heq. by rewrite Heq.
      * rewrite dget_dset_ne in Hold by done. by left.
Qed.

End Comparisons.

(** X13. [comparisons], on what [compound] yields with
    [compound_length] 2 from the keys of a simple cover, raises no
    [KeyError]: every predicate and every compound yielded has its
    counters in the cover. It returns a dictionary with an estimate for
    each of them, [r * total] for a simple predicate, unless the
    conversion of a total to a float raises [OverflowError]. *)
Theorem comparisons_total (str_float : float → string) (r : float)
    (simple_cover : list (Predicate * Counter)) :
  match
    comparisons str_float r (compound str_float simple_cover.*1 2)
      (prod_map (to_key str_float) id <$> simple_cover)
  with
  | Ok comparison_count =>
      (∀ x, x ∈ (compound str_float simple_cover.*1 2).1 →
            is_Some (dget comparison_count (item_key str_float x)))
      ∧ (∀ p c, dget (prod_map (to_key str_float) id <$> simple_cover)
                  (to_key str_float p) = Some c →
                p ∈ simple_cover.*1 →
                dget comparison_count (to_key str_float p)
                = Some (PyFloat.mul r (PyFloat.of_int (total c))))
  | Raise e => e = OverflowError
  end.
Proof.
  set (cover := prod_map (to_key str_float) id <$> simple_cover).
  set (g := compound str_float simple_cover.*1 2).
  assert (Hkeys : ∀ p, p ∈ simple_cover.*1 → to_key str_float p ∈ dkeys cover).
  { intros p Hp. unfold dkeys, cover. rewrite <- list_fmap_compose.
    apply list_elem_of_fmap in Hp as ([p' c] & -> & Hpc).
    apply list_elem_of_fmap. by exists (p', c). }
  destruct (compound_generator_parts str_float simple_cover.*1 2)
    as (Hsingle & Hitems & Hnone).
  fold g in Hsingle, Hitems, Hnone.
  unfold comparisons. rewrite Hnone by lia.
  pose proof (comparisons_loop str_float r cover g.1 (Compounder_init, [])) as H.
  destruct (foldM _ _ g.1) as [state|e]; simpl.
  2:{ apply H. apply Forall_forall. intros x Hx.
      destruct (Hitems x Hx) as [(p & -> & Hp)|(a & b & -> & Ha & Hb)];
        simpl; [by apply Hkeys|].
      exists a, b. split_and!; [done|by apply Hkeys..]. }
  destruct H as (_ & Hall & Hval).
  { apply Forall_forall. intros x Hx.
    destruct (Hitems x Hx) as [(p & -> & Hp)|(a & b & -> & Ha & Hb)];
      simpl; [by apply Hkeys|].
    exists a, b. split_and!; [done|by apply Hkeys..]. }
  split; [done|]. intros p c Hc Hp.
  destruct (Hall (Single p) (Hsingle p Hp)) as [e He].
  simpl in He. rewrite He.
  destruct (Hval p c e Hc He) as [?| ->]; done.
Qed.

End ComparisonsProps.

(* ===================================================================== *)
(** * Properties of CompoundPredicate.__call__ *)
(* ===================================================================== *)

Module CompoundCallProps.
Import Dict Cover CompoundPredicate CompoundCallAux.
Import LabelerFacts LabelerProps.

Lemma product_elem (predicate_keys : list (list string)) (t : list string) :
  t ∈ product predicate_keys ↔ Forall2 (λ k keys, k ∈ keys) t predicate_keys.
Proof.
  revert t. induction predicate_keys as [|keys rest IH]; intros t; simpl.
  - rewrite list_elem_of_singleton. split; [intros ->; constructor|].
    by intros ->%Forall2_nil_inv_r.
  - rewrite list_elem_of_In, in_flat_map. split.
    + intros (k & Hk%list_elem_of_In & Ht%list_elem_of_In).
      apply list_elem_of_fmap in Ht as (t' & -> & Ht').
      constructor; [done|]. by apply IH.
    + intros H. destruct t as [|k t']; [by apply Forall2_nil_cons_inv in H|].
      apply Forall2_cons_1 in H as [Hk Ht'].
      exists k. split; [by apply list_elem_of_In|].
      apply list_elem_of_In, list_elem_of_fmap_2. by apply IH.
Qed.

Section Call.
Context {record : Type}.
Variable call : key → record → bool → res (list string).

Lemma mapM_Forall2 {A B} (f : A → res B) (l : list A) (l' : list B) :
  mapM f l = Ok l' ↔ Forall2 (λ x y, f x = Ok y) l l'.
Proof.
  revert l'. induction l as [|x l IH]; intros l'; simpl.
  - split; [intros [= <-]; constructor|by intros ->%Forall2_nil_inv_l].
  - destruct (f x) as [y|] eqn:Hx; simpl.
    + destruct (mapM f l) as [ys|] eqn:Hl; simpl.
      * split.
        -- intros [= <-]. constructor; [done|]. by apply IH.
        -- intros H. destruct l' as [|y' l']; [by inversion H|].
           apply Forall2_cons_1 in H as [Hy Hl'].
           apply IH in Hl'. congruence.
      * split; [done|]. intros H.
        destruct l' as [|y' l']; [by inversion H|].
        apply Forall2_cons_1 in H as [_ Hl']. apply IH in Hl'. done.
    + split; [done|]. intros H.
      destruct l' as [|y' l']; [by inversion H|].
      apply Forall2_cons_1 in H as [Hy _]. congruence.
Qed.

(** The parts that block a pair together give the compound a common key. *)
Lemma compound_blocks (items : list key) (records : record * record) :
  (∀ p, p ∈ items → blocks_together call p records = Ok true) →
  blocks_together (call_any call) (CP items) records = Ok true.
Proof.
  intros Hall.
  assert (Hkeys : ∃ (ks1 ks2 : list (list string)) (t : list string),
            mapM (λ p, call p records.1 false) items = Ok ks1
            ∧ mapM (λ p, call p records.2 true) items = Ok ks2
            ∧ Forall2 (λ k keys, k ∈ keys) t ks1
            ∧ Forall2 (λ k keys, k ∈ keys) t ks2).
  { induction items as [|p items IH]; simpl.
    - exists [], [], []. split_and!; try done; constructor.
    - destruct (proj1 (blocks_together_true call p records))
        as (keys & keys_2 & Hk1 & Hk2 & k & Hin1 & Hin2); [apply Hall; left|].
      destruct IH as (ks1 & ks2 & t & H1 & H2 & Ht1 & Ht2).
      { intros q Hq. apply Hall. by right. }
      rewrite Hk1, Hk2, H1, H2. simpl.
      exists (keys :: ks1), (keys_2 :: ks2), (k :: t).
      split_and!; try done; by constructor. }
  destruct Hkeys as (ks1 & ks2 & t & H1 & H2 & Ht1 & Ht2).
  apply blocks_together_true. simpl. unfold __call__.
  rewrite H1, H2. simpl. eexists _, _. split_and!; try done.
  exists (join_colon t). split; apply list_elem_of_fmap_2, product_elem; done.
Qed.

End Call.

(** ** Keys without a colon *)

Lemma append_nil_l (s : string) : EmptyString +:+ s = s.
Proof. reflexivity. Qed.

Lemma append_cons_l (c : ascii) (x s : string) :
  String c x +:+ s = String c (x +:+ s).
Proof. reflexivity. Qed.

Lemma append_colon_inj (x y s s' : string) :
  colon ∉ list_ascii_of_string x → colon ∉ list_ascii_of_string y →
  x +:+ ":" +:+ s = y +:+ ":" +:+ s' → x = y ∧ s = s'.
Proof.
  revert y. induction x as [|c x IH]; intros [|d y] Hx Hy Heq;
    repeat (rewrite append_nil_l in Heq || rewrite append_cons_l in Heq).
  - by injection Heq as ->.
  - injection Heq as Hc _. exfalso. apply Hy. rewrite <- Hc. left.
  - injection Heq as Hc _. exfalso. apply Hx. rewrite Hc. left.
  - injection Heq as Hc Heq. subst d. cbn in Hx, Hy.
    apply not_elem_of_cons in Hx as [_ Hx].
    apply not_elem_of_cons in Hy as [_ Hy].
    destruct (IH y Hx Hy Heq) as [-> ->]. done.
Qed.

Lemma join_colon_inj (t1 : list string) :
  ∀ t2, length t1 = length t2 →
        colon_free t1 → colon_free t2 →
        join_colon t1 = join_colon t2 → t1 = t2.
Proof.
  induction t1 as [|x t1 IH]; intros [|y t2] Hlen H1 H2; try done.
  destruct t1 as [|x2 t1], t2 as [|y2 t2]; try done.
  - simpl. by intros ->.
  - intros Heq.
    change (x +:+ ":" +:+ join_colon (x2 :: t1)
            = y +:+ ":" +:+ join_colon (y2 :: t2)) in Heq.
    apply append_colon_inj in Heq as [-> Heq];
      [|apply H1; left|apply H2; left].
    f_equal. apply IH; [simpl in Hlen |- *; lia|..|done].
    + intros k Hk. apply H1. by right.
    + intros k Hk. apply H2. by right.
Qed.

(** X14. A compound predicate gives a record the keys made of one key of
    each of its parts, joined by colons. It blocks two records together
    whenever each of its parts does; and, when no key of a part holds a
    colon, only then. *)
Theorem compound_call_blocks {record : Type}
    (call : key → record → bool → res (list string))
    (items : list key) (records : record * record) :
  ((∀ p, p ∈ items → blocks_together call p records = Ok true) →
   blocks_together (call_any call) (CP items) records = Ok true)
  ∧ ((∀ p r target keys, p ∈ items → call p r target = Ok keys →
                         colon_free keys) →
     blocks_together (call_any call) (CP items) records = Ok true →
     ∀ p, p ∈ items → blocks_together call p records = Ok true).
Proof.
  split; [apply compound_blocks|].
  intros Hfree Hb.
  apply blocks_together_true in Hb as (keys & keys_2 & H1 & H2 & k & Hk1 & Hk2).
  simpl in H1, H2. unfold __call__ in H1, H2.
  destruct (mapM _ items) as [ks1|] eqn:Hm1; [|done].
  simpl in H1. injection H1 as <-.
  destruct (mapM (λ p, call p records.2 true) items) as [ks2|] eqn:Hm2;
    [|done].
  simpl in H2. injection H2 as <-.
  apply list_elem_of_fmap in Hk1 as (t1 & -> & Ht1).
  apply list_elem_of_fmap in Hk2 as (t2 & Heq & Ht2).
  apply product_elem in Ht1, Ht2.
  apply mapM_Forall2 in Hm1, Hm2.
  assert (Ht : t1 = t2).
  { apply join_colon_inj; [| | |done].
    - apply Forall2_length in Ht1, Ht2, Hm1, Hm2. lia.
    - intros k Hk. apply list_elem_of_lookup in Hk as [j Hj].
      destruct (Forall2_lookup_l _ _ _ _ _ Ht1 Hj) as (keys & Hkeys & Hin).
      destruct (Forall2_lookup_r _ _ _ _ _ Hm1 Hkeys) as (p & Hp & Hcall).
      simpl in Hcall.
      eapply (Hfree p); [by eapply list_elem_of_lookup_2|exact Hcall|exact Hin].
    - intros k Hk. apply list_elem_of_lookup in Hk as [j Hj].
      destruct (Forall2_lookup_l _ _ _ _ _ Ht2 Hj) as (keys & Hkeys & Hin).
      destruct (Forall2_lookup_r _ _ _ _ _ Hm2 Hkeys) as (p & Hp & Hcall).
      simpl in Hcall.
      eapply (Hfree p); [by eapply list_elem_of_lookup_2|exact Hcall|exact Hin]. }
  subst t2. intros p Hp.
  apply list_elem_of_lookup in Hp as [j Hj].
  destruct (Forall2_lookup_l _ _ _ _ _ Hm1 Hj) as (keys1 & Hkeys1 & Hcall1).
  destruct (Forall2_lookup_l _ _ _ _ _ Hm2 Hj) as (keys2 & Hkeys2 & Hcall2).
  destruct (Forall2_lookup_r _ _ _ _ _ Ht1 Hkeys1) as (k & Hk & Hin1).
  destruct (Forall2_lookup_r _ _ _ _ _ Ht2 Hkeys2) as (k' & Hk' & Hin2).
  rewrite Hk in Hk'. injection Hk' as <-.
  apply blocks_together_true. eauto 10.
Qed.

End CompoundCallProps.

(* ===================================================================== *)
(** * From the cover of the dupes to the labels of predict *)
(* ===================================================================== *)

Module FitProps.
Import Dict Py Cover CoverAux BranchBound BranchBoundAux BlockLearner.
Import CompoundPredicate SoundAux Fit.
Import DictFacts BranchBoundFacts LearnFacts CompoundFacts.
Import CoverProps LearnProps LabelerProps CompoundCallProps.

Lemma foldM_keeps_in {A B} (f : B → A → res B) (P : B → Prop)
    (l : list A) (b b' : B) :
  (∀ b x b', x ∈ l → P b → f b x = Ok b' → P b') →
  P b → foldM f b l = Ok b' → P b'.
Proof.
  revert b. induction l as [|x l IH]; intros b Hf Hb; simpl.
  - by intros [= <-].
  - destruct (f b x) as [b0|] eqn:E; [|done]. simpl.
    apply IH.
    + intros b1 y b2 Hy. apply Hf. by right.
    + eapply Hf; [left|done|done].
Qed.

Lemma split_last_app {A} (t a : list A) (b : A) :
  split_last t = Some (a, b) → t = a ++ [b].
Proof.
  revert a. induction t as [|x t IH]; intros a; simpl; [done|].
  destruct t as [|y t].
  - by intros [= <- <-].
  - destruct (split_last (y :: t)) as [[a' b']|]; [|done].
    intros [= <- <-]. simpl. f_equal. by apply IH.
Qed.

Lemma combinations_subseteq {A} (l : list A) (i : nat) (c : list A) :
  c ∈ combinations l i → c ⊆ l.
Proof.
  revert i c. induction l as [|y l IH]; intros [|j] c; simpl.
  - intros ->%list_elem_of_singleton. done.
  - by intros ?%elem_of_nil.
  - intros ->%list_elem_of_singleton. by intros z ?%elem_of_nil.
  - intros [Hc|Hc]%elem_of_app.
    + apply list_elem_of_fmap in Hc as (c' & -> & Hc').
      intros z [->|Hz]%elem_of_cons; [left|right].
      by apply (IH j c').
    + intros z Hz. right. by apply (IH (S j) c).
Qed.

Section Sound.
Context {record : Type}.
Variable call : key → record → bool → res (list string).
Variable preds : list key.
Variable pairs : list (record * record).
Hypothesis preds_simple : ∀ p, p ∈ preds → is_simple p = true.

Local Abbreviation cover_sound := (SoundAux.cover_sound call preds pairs).
Local Abbreviation sound := (SoundAux.sound call pairs).

Lemma sound_simple (k : key) (i : nat) :
  is_simple k = true → sound k i →
  ∃ records, pairs !! i = Some records
             ∧ blocks_together call k records = Ok true.
Proof. destruct k; [|done]. intros _ (r & ? & ?). eauto. Qed.

Lemma of_predicates_sound (d : cover) :
  of_predicates call preds pairs = Ok d →
  cover_sound d ∧ ∀ k, k ∈ dkeys d → is_simple k = true ∧ k ∈ preds.
Proof.
  intros Hd.
  destruct (cover_loop call pairs preds [] [] d) as (Hwf & Hsome & Hnone);
    [|exact Hd|].
  { split_and!; [apply NoDup_nil_2|done|by intros p []%elem_of_nil]. }
  assert (Hkeys : ∀ k, k ∈ dkeys d → is_simple k = true ∧ k ∈ preds).
  { intros k [s Hs]%dget_is_Some. destruct (Hsome k s Hs) as (Hk & _ & _).
    simpl in Hk. split; [by apply preds_simple|done]. }
  split; [|done]. intros k s Hs.
  destruct (Hkeys k) as [Hsimple Hk]; [apply dget_is_Some; eauto|].
  destruct (Hsome k s Hs) as (_ & _ & Hc).
  split.
  - by destruct k.
  - intros i Hi.
    apply (coverage_from_spec call k pairs 0 s Hc i) in Hi
      as (j & r & -> & Hj & Hb).
    exists r. split; [done|]. by destruct k.
Qed.

Lemma compound_one_sound (d d' : cover) (cp : list key) :
  (∀ q, q ∈ cp → is_simple q = true ∧ q ∈ preds) →
  cover_sound d → compound_one d cp = Ok d' → cover_sound d'.
Proof.
  intros Hcp Hd. unfold compound_one.
  destruct (split_last cp) as [[a_items b]|] eqn:Hsplit; [|done]. simpl.
  apply split_last_app in Hsplit.
  set (a := match a_items with
            | [] => CP []
            | [x] => x
            | x :: k :: l0 => CP (x :: k :: l0)
            end).
  destruct (dget d a) as [cover_a|] eqn:Ha; [|by intros [= <-]].
  unfold getitem. destruct (dget d b) as [cover_b|] eqn:Hb; [|done]. simpl.
  intros [= <-]. case_decide; [done|].
  intros k s. destruct (decide (CP cp = k)) as [<-|Hne].
  2:{ rewrite dget_dset_ne by done. apply Hd. }
  rewrite dget_dset_eq. intros [= <-]. split; [exact Hcp|].
  intros i [Hia Hib]%elem_of_intersection.
  destruct (Hd a cover_a Ha) as [_ Hsa].
  destruct (Hd b cover_b Hb) as [_ Hsb].
  assert (Hbs : is_simple b = true).
  { apply Hcp. rewrite Hsplit. apply elem_of_app. right. left. }
  destruct (sound_simple b i Hbs (Hsb i Hib)) as (r & Hr & Hblocks).
  exists r. split; [done|]. intros q Hq. rewrite Hsplit in Hq.
  apply elem_of_app in Hq as [Hq| ->%list_elem_of_singleton]; [|done].
  destruct (Hsa i Hia) as (r' & Hr' & Hsound).
  rewrite Hr in Hr'. injection Hr' as <-.
  assert (Hcases : (a_items = [a] ∧ is_simple a = true) ∨ a = CP a_items).
  { unfold a. destruct a_items as [|x [|y rest]]; auto.
    left. split; [done|]. apply Hcp. rewrite Hsplit. left. }
  destruct Hcases as [[Heq Hsimple]|Heq].
  - rewrite Heq in Hq. apply list_elem_of_singleton in Hq as ->.
    by destruct a.
  - rewrite Heq in Hsound. by apply Hsound.
Qed.

Lemma compound_sound (compound_length : nat) (d d' : cover) :
  (∀ k, k ∈ dkeys d → is_simple k = true ∧ k ∈ preds) →
  cover_sound d → compound compound_length d = Ok d' → cover_sound d'.
Proof.
  intros Hkeys Hd. unfold compound.
  set (l := sorted String.ltb key_str (dkeys d)).
  assert (Hperm : l ≡ₚ dkeys d) by apply sorted_perm.
  apply (foldM_keeps _ cover_sound); [|done].
  intros acc i acc' Hacc.
  apply (foldM_keeps_in _ cover_sound); [|done].
  intros acc0 cp acc0' Hcp Hacc0. apply compound_one_sound; [|done].
  intros q Hq. apply Hkeys. rewrite <- Hperm.
  by apply (combinations_subseteq l i cp).
Qed.

Lemma intersection_update_sub {V} (set_iter : list key → list key)
    (other : dict V) (d d' : cover) :
  intersection_update set_iter other d = Ok d' →
  ∀ k s, dget d' k = Some s → dget d k = Some s.
Proof.
  unfold intersection_update.
  apply (foldM_keeps _ (λ acc, ∀ k s, dget acc k = Some s → dget d k = Some s));
    [|done].
  intros acc k acc' Hacc. unfold getitem.
  destruct (dget d k) as [v|] eqn:Hv; [|done]. simpl. intros [= <-] k' s.
  destruct (decide (k = k')) as [<-|Hne].
  - rewrite dget_dset_eq. by intros [= <-].
  - rewrite dget_dset_ne by done. apply Hacc.
Qed.

Lemma dominators_sub (cost : dict float) (d d' : cover) :
  dominators cost d = Ok d' →
  ∀ k s, dget d' k = Some s → dget d k = Some s.
Proof.
  unfold dominators. destruct (mapM _ _) as [dec|]; [|done]. simpl.
  generalize ((sort_decorated tuple_lt dec).*2).
  assert (Hgen : ∀ (l : list key) (acc : cover),
            (∀ k s, dget acc k = Some s → dget d k = Some s) →
            dominators_loop cost d l acc = Ok d' →
            ∀ k s, dget d' k = Some s → dget d k = Some s).
  { induction l as [|c l IH]; intros acc Hacc; simpl.
    - by intros [= <-].
    - unfold getitem at 1. destruct (dget d c) as [cm|] eqn:Hc; [|done].
      simpl. destruct (getitem cost c) as [cc|]; [|done]. simpl.
      destruct (dominated _ _ _ _ _) as [dom|]; [|done]. simpl.
      apply IH. destruct dom; [done|]. intros k s.
      destruct (decide (c = k)) as [<-|Hne].
      + rewrite dget_dset_eq. by intros [= <-].
      + rewrite dget_dset_ne by done. apply Hacc. }
  intros l. by apply Hgen.
Qed.

End Sound.

Section DupeCover.
Context {record : Type}.
Variable call : key → record → bool → res (list string).
Variable set_iter : list key → list key.

(** The cover that [learn] searches is made of the predicates of the
    blocker, and each of its keys blocks together the pairs it holds. *)
Lemma dupe_cover_sound (self : BlockLearner.BlockLearner)
    (matches : list (record * record)) (d : cover) :
  (∀ p, p ∈ predicates self → is_simple p = true) →
  dupe_cover call set_iter self matches = Ok d →
  SoundAux.cover_sound call (predicates self) matches d.
Proof.
  intros Hsimple. unfold dupe_cover.
  destruct (of_predicates call _ matches) as [d0|] eqn:H0; [|done]. simpl.
  destruct (compound _ d0) as [d1|] eqn:H1; [|done]. simpl.
  destruct (intersection_update _ _ d1) as [d2|] eqn:H2; [|done]. simpl.
  intros H3.
  destruct (of_predicates_sound call (predicates self) matches Hsimple d0 H0)
    as [Hs0 Hk0].
  assert (Hs1 : SoundAux.cover_sound call (predicates self) matches d1)
    by (eapply compound_sound; eauto).
  intros k s Hk. apply Hs1.
  eapply intersection_update_sub; [done|].
  by eapply dominators_sub.
Qed.

End DupeCover.

(** X15. When [fit_transform] finds a new dupe that the current
    predicates do not cover, it learns again with [recall=1.0]: the labels
    cached are dropped, the dupes are remembered, and each dupe that the
    cover of the dupes covers is blocked together by one of the new current
    predicates, so that [predict] labels it 1. The predicates of the
    blocker are simple ones, and a compound predicate is called as
    [CompoundPredicate.__call__] does. *)
Theorem fit_transform_relearns {record : Type} `{EqDecision record}
    (call : key → record → bool → res (list string))
    (set_iter : list key → list key)
    (self self' : @Fit.BlockLearner record)
    (pairs : list (record * record)) (y : list float) (labels : list Z) :
  (∀ items r target,
     (∀ q, q ∈ items → is_simple q = true) →
     call (CP items) r target = __call__ call items r target) →
  (∀ p, p ∈ predicates (block_learner self) → is_simple p = true) →
  Labeler.predict call (learner self)
    (filter (λ pair, pair ∉ _old_dupes self) (dupes_of y pairs)) = Ok labels →
  0 ∈ labels →
  fit_transform call set_iter self pairs y = Ok self' →
  _old_dupes self' = dupes_of y pairs
  ∧ Labeler._cached_labels (learner self') = None
  ∧ ∃ d, dupe_cover call set_iter (block_learner self) (dupes_of y pairs)
         = Ok d
         ∧ ∀ k i, i ∈ val d k →
                  ∃ records p,
                    dupes_of y pairs !! i = Some records
                    ∧ p ∈ Labeler.current_predicates (learner self')
                    ∧ blocks_together call p records = Ok true.
Proof.
  intros Hcp Hsimple Hlabels Hzero. unfold fit_transform.
  rewrite Hlabels. simpl.
  assert (Hnew : forallb (λ label, negb (label =? 0)) labels = false).
  { apply not_true_iff_false. intros Hall.
    rewrite forallb_forall in Hall.
    specialize (Hall 0 (proj1 (list_elem_of_In _ _) Hzero)). done. }
  rewrite Hnew. simpl.
  destruct (learn call set_iter _ _ _) as [[r warned]|] eqn:Hl; [|done].
  simpl. intros [= <-]. simpl. split_and!; [done|done|].
  destruct (learn_full_recall_cover call set_iter _ _ r warned Hl)
    as (d & Hd & Hkeys & Hcover).
  exists d. split; [done|]. intros k i Hi.
  destruct (Hcover k i Hi) as (p & Hp & Hip).
  pose proof (dupe_cover_sound call set_iter _ _ d Hsimple Hd) as Hsound.
  unfold val in Hip. destruct (dget d p) as [s|] eqn:Hs; [|set_solver].
  destruct (Hsound p s Hs) as [Hfrom Hs'].
  destruct (Hs' i Hip) as (records & Hr & Hblocks).
  exists records, p. split_and!; try done.
  destruct p as [repr|items]; [done|].
  assert (Hitems : ∀ q, q ∈ items → is_simple q = true).
  { intros q Hq. by apply Hfrom. }
  pose proof (compound_blocks call items records Hblocks) as Hb.
  unfold blocks_together in Hb |- *. simpl in Hb.
  by rewrite !Hcp.
Qed.

Lemma call_any_compound {record : Type}
    (call : key → record → bool → res (list string))
    (items : list key) (r : record) (target : bool) :
  (∀ q, q ∈ items → is_simple q = true) →
  call_any call (CP items) r target = __call__ (call_any call) items r target.
Proof.
  intros Hitems. simpl. unfold __call__. f_equal.
  induction items as [|q items IH]; simpl; [done|].
  assert (Hq : is_simple q = true) by (apply Hitems; left).
  destruct q; [|done]. simpl. rewrite IH; [done|].
  intros q' Hq'. apply Hitems. by right.
Qed.

Lemma fit_transform_relearns_witness :
  ∃ self',
    fit_transform FitExamples.call id FitExamples.new_learner
      LearnExamples.matches FitExamples.all_matches = Ok self'
    ∧ _old_dupes self'
      = dupes_of FitExamples.all_matches LearnExamples.matches
    ∧ Labeler._cached_labels (learner self') = None
    ∧ ∃ d, dupe_cover FitExamples.call id
             (block_learner FitExamples.new_learner)
             (dupes_of FitExamples.all_matches LearnExamples.matches) = Ok d
           ∧ ∀ k i, i ∈ val d k →
                    ∃ records p,
                      dupes_of FitExamples.all_matches LearnExamples.matches
                        !! i = Some records
                      ∧ p ∈ Labeler.current_predicates (learner self')
                      ∧ blocks_together FitExamples.call p records = Ok true.
Proof.
  destruct (fit_transform FitExamples.call id FitExamples.new_learner
              LearnExamples.matches FitExamples.all_matches)
    as [self'|e] eqn:Hfit.
  2:{ exfalso.
      assert (Hok : match
                      fit_transform FitExamples.call id FitExamples.new_learner
                        LearnExamples.matches FitExamples.all_matches
                    with Ok _ => true | Raise _ => false end = true)
        by (vm_compute; reflexivity).
      rewrite Hfit in Hok. discriminate Hok. }
  exists self'. split; [reflexivity|].
  apply (fit_transform_relearns FitExamples.call id FitExamples.new_learner
           self' LearnExamples.matches FitExamples.all_matches
           (replicate 10 0)).
  - intros items r target. apply call_any_compound.
  - apply Forall_forall. vm_compute. repeat constructor.
  - vm_compute. reflexivity.
  - left.
  - exact Hfit.
Defined.

(** ** learn_predicates *)

Lemma covered_keys (d : cover) (partial : list key) (n : nat) :
  covered (Some d) partial = Ok n → partial ⊆ dkeys d.
Proof.
  intros Hn p Hp. destruct partial as [|p0 partial];
    [by apply elem_of_nil in Hp|].
  unfold covered in Hn. cbn [from_option bind] in Hn.
  destruct (mapM (getitem d) (p0 :: partial)) as [sets|] eqn:E; [|done].
  clear Hn. revert sets E Hp. generalize (p0 :: partial). clear.
  induction l as [|q l IH]; intros sets; simpl;
    [by intros _ ?%elem_of_nil|].
  unfold getitem at 1. destruct (dget d q) as [v|] eqn:Hq; [|done].
  simpl. destruct (mapM (getitem d) l) as [rest|]; [|done].
  intros _ [->|Hp]%elem_of_cons.
  - apply dget_is_Some. eauto.
  - by apply (IH rest).
Qed.

(** X16. [learn_predicates] with [index_predicates=False] learns from the
    predicates without an index only: no predicate it returns, simple or
    part of a compound, has one. When [learn] returns, the predicates of
    the blocker are put back as they were; when [learn] raises, the list
    without the index predicates stays in their place. *)
Theorem learn_predicates_no_index {record : Type}
    (call : key → record → bool → res (list string))
    (set_iter : list key → list key) (has_index : key → bool)
    (block_learner : BlockLearner.BlockLearner)
    (y : list float) (pairs : list (record * record)) (recall : float) :
  (∀ p, p ∈ predicates block_learner → is_simple p = true) →
  match
    learn_predicates call set_iter has_index block_learner y pairs recall
      false
  with
  | (block_learner', Ok (learned_preds, warned)) =>
      block_learner' = block_learner
      ∧ ∀ k, k ∈ predicates_of learned_preds →
             match k with
             | Pred _ => has_index k = false ∧ k ∈ predicates block_learner
             | CP items =>
                 ∀ q, q ∈ items →
                      has_index q = false ∧ q ∈ predicates block_learner
             end
  | (block_learner', Raise e) =>
      predicates block_learner'
      = filter (λ pred, has_index pred = false) (predicates block_learner)
  end.
Proof.
  intros Hsimple. unfold learn_predicates. simpl.
  set (no_index := filter (λ pred, has_index pred = false)
                     (predicates block_learner)).
  set (bl := set_predicates block_learner no_index).
  destruct (learn call set_iter bl (dupes_of y pairs) recall)
    as [[r warned]|e] eqn:Hl; [|done].
  split; [by destruct block_learner|].
  destruct (learn_inv call set_iter bl _ recall r warned Hl)
    as (d & coverable & eps & Hd & _ & _ & _ & _ & Hfeas).
  assert (Hkeys : predicates_of r ⊆ dkeys d).
  { destruct Hfeas as [->|(partial & n & -> & Hn & _)]; [done|].
    simpl. by eapply covered_keys. }
  assert (Hbl : ∀ p, p ∈ predicates bl → is_simple p = true).
  { intros p [_ Hp]%list_elem_of_filter. by apply Hsimple. }
  pose proof (dupe_cover_sound call set_iter bl _ d Hbl Hd) as Hsound.
  intros k [s Hs]%Hkeys%dget_is_Some.
  destruct (Hsound k s Hs) as [Hfrom _].
  destruct k as [repr|items]; simpl in Hfrom.
  - by apply list_elem_of_filter in Hfrom.
  - intros q Hq. destruct (Hfrom q Hq) as [_ Hin].
    by apply list_elem_of_filter in Hin.
Qed.

Lemma learn_predicates_no_index_witness :
  match
    learn_predicates LearnExamples.call id FitExamples.has_index
      LearnExamples.learner FitExamples.all_matches LearnExamples.matches
      (PyFloat.of_int 1) false
  with
  | (block_learner', Ok (learned_preds, warned)) =>
      block_learner' = LearnExamples.learner
      ∧ ∀ k, k ∈ predicates_of learned_preds →
             match k with
             | Pred _ => FitExamples.has_index k = false
                         ∧ k ∈ predicates LearnExamples.learner
             | CP items =>
                 ∀ q, q ∈ items →
                      FitExamples.has_index q = false
                      ∧ q ∈ predicates LearnExamples.learner
             end
  | (block_learner', Raise e) =>
      predicates block_learner'
      = filter (λ pred, FitExamples.has_index pred = false)
          (predicates LearnExamples.learner)
  end.
Proof.
  apply (learn_predicates_no_index LearnExamples.call id FitExamples.has_index
           LearnExamples.learner FitExamples.all_matches LearnExamples.matches
           (PyFloat.of_int 1)).
  intros p Hp.
  repeat (apply elem_of_cons in Hp as [->|Hp]); try reflexivity.
  by apply elem_of_nil in Hp.
Defined.

End FitProps.

(* ===================================================================== *)
(** * Properties of SearchPredicate *)
(* ===================================================================== *)

Module SearchPredicateProps.
Import Search SearchAux.

Section Search.
Context {value : Type} `{Countable value}.
Context {doc : Type}.
Variable truthy : value → bool.
Variable preprocess : value → doc.

Local Abbreviation predicate := (@SearchPredicate value _ _ doc).
Local Abbreviation call := (__call__ truthy preprocess).
Local Abbreviation agrees := (SearchAux.agrees truthy preprocess).
Local Abbreviation entries_of := (SearchAux.entries_of truthy preprocess).

Lemma agrees_refl (s : predicate) : agrees s s.
Proof.
  split_and!; try done. intros c t v Hv Hc r Hr.
  unfold __call__. by rewrite Hr, Hc, Hv.
Qed.

(** A call answers as the predicate it started from would, and keeps the
    cache in agreement with it. *)
Lemma call_agrees (s0 s : predicate) (r : gmap string value) (t : bool) :
  agrees s0 s →
  (call s r t).2 = (call s0 r t).2 ∧ agrees s0 (call s r t).1.
Proof.
  intros Hs. pose proof Hs as (Hf & Ht & Hi & Hsup & Hans).
  unfold __call__ at 1 3. rewrite Hf.
  destruct (r !! field s0) as [c|] eqn:Hr.
  2:{ split; [|exact Hs]. unfold __call__. by rewrite Hr. }
  destruct (truthy c) eqn:Hc.
  2:{ split; [|exact Hs]. unfold __call__. by rewrite Hr, Hc. }
  destruct (_cache s !! (c, t)) as [v|] eqn:Hv.
  { split; [|exact Hs]. simpl. symmetry. by apply (Hans c t v). }
  assert (Hmiss : _cache s0 !! (c, t) = None).
  { destruct (_cache s0 !! (c, t)) as [v|] eqn:Hv0; [|done].
    apply Hsup in Hv0. congruence. }
  assert (Hcenters : ∀ idx, centers idx s (preprocess c) t
                            = centers idx s0 (preprocess c) t).
  { intros idx. unfold centers. by rewrite Ht. }
  unfold __call__. rewrite Hr, Hc, Hmiss, Hi.
  destruct (index s0) as [idx|] eqn:Hidx; [|by split].
  rewrite Hcenters.
  destruct (centers idx s0 (preprocess c) t) as [cs|e] eqn:Hcs; [|by split].
  split; [done|]. cbn [fst]. unfold SearchAux.agrees. cbn [field threshold index _cache set_cache].
  split_and!; try done; [congruence| |].
  - intros k v Hk. destruct (decide (k = (c, t))) as [->|Hne].
    + congruence.
    + rewrite lookup_insert_ne by done. by apply Hsup.
  - intros c' t' v Hv' Hc' r' Hr'.
    destruct (decide ((c', t') = (c, t))) as [[= -> ->]|Hne].
    + rewrite lookup_insert_eq in Hv'. injection Hv' as <-.
      unfold __call__. by rewrite Hr', Hc, Hmiss, Hidx, Hcs.
    + rewrite lookup_insert_ne in Hv' by done. by apply (Hans c' t' v).
Qed.

Lemma freeze_entries_spec (s0 : predicate) (t : bool)
    (records : list (gmap string value)) :
  ∀ (s s' : predicate) (entries entries' : gmap (value * bool) (list string)),
    agrees s0 s → entries_of s0 t entries →
    freeze_entries truthy preprocess s records t entries = Ok (s', entries') →
    agrees s0 s' ∧ entries_of s0 t entries'
    ∧ (∀ k v, entries !! k = Some v → is_Some (entries' !! k))
    ∧ ∀ r, r ∈ records →
           ∃ c v, r !! field s0 = Some c ∧ entries' !! (c, t) = Some v.
Proof.
  induction records as [|r records IH]; intros s s' entries entries' Hs He;
    simpl.
  - intros [= <- <-]. split_and!; try done.
    by intros r ?%elem_of_nil.
  - assert (Hf : field s = field s0) by apply Hs. rewrite Hf.
    destruct (r !! field s0) as [c|] eqn:Hr; [|done]. simpl.
    destruct (call_agrees s0 s r t Hs) as [Hans Hs1].
    destruct (call s r t) as [s1 [keys|e]] eqn:Hcall; [|done].
    simpl in Hans, Hs1. intros Hrest.
    destruct (IH s1 s' (<[(c, t) := keys]> entries) entries' Hs1)
      as (Hs' & He' & Hkeep & Hall); [|exact Hrest|].
    { intros c' t' v Hv.
      destruct (decide ((c', t') = (c, t))) as [[= -> ->]|Hne].
      - rewrite lookup_insert_eq in Hv. injection Hv as <-.
        split; [done|]. intros r' Hr'. rewrite Hans.
        unfold __call__. by rewrite Hr, Hr'.
      - rewrite lookup_insert_ne in Hv by done. by apply He. }
    split_and!; try done.
    + intros k v Hk. destruct (decide (k = (c, t))) as [->|Hne].
      * apply (Hkeep (c, t) keys). by rewrite lookup_insert_eq.
      * apply (Hkeep k v). by rewrite lookup_insert_ne.
    + intros r' [->|Hr']%elem_of_cons; [|by apply Hall].
      destruct (Hkeep (c, t) keys) as [v Hv];
        [by rewrite lookup_insert_eq|].
      eauto.
Qed.

End Search.

(** X17. After [freeze(records_1, records_2)] a search predicate has no
    index, and answers every frozen record from its cache, unchanged by
    the call: a record of [records_1], called without [target], gets the
    keys that the predicate gave it before [freeze]; a record of
    [records_2], called with [target=True], gets the keys that the index
    gave it, whatever the cache held before. *)
Theorem search_freeze_spec {value : Type} `{Countable value} {doc : Type}
    (truthy : value → bool) (preprocess : value → doc)
    (self self' : @SearchPredicate value _ _ doc)
    (records_1 records_2 : list (gmap string value)) :
  freeze truthy preprocess self records_1 records_2 = Ok self' →
  index self' = None
  ∧ (∀ r, r ∈ records_1 →
          __call__ truthy preprocess self' r false
          = (self', (__call__ truthy preprocess self r false).2))
  ∧ (∀ r, r ∈ records_2 →
          __call__ truthy preprocess self' r true
          = (self', (__call__ truthy preprocess (set_cache self ∅) r true).2)).
Proof.
  unfold freeze.
  destruct (freeze_entries truthy preprocess self records_1 false ∅)
    as [[s1 e1]|] eqn:H1; [|done]. simpl.
  destruct (freeze_entries truthy preprocess (set_cache s1 e1) records_2
              true ∅) as [[s2 e2]|] eqn:H2; [|done]. simpl.
  intros [= <-].
  destruct (freeze_entries_spec truthy preprocess self false records_1
              self s1 ∅ e1) as (Hs1 & He1 & _ & Hall1); [| |done|].
  { apply agrees_refl. }
  { intros c t v Hv. by rewrite lookup_empty in Hv. }
  destruct (freeze_entries_spec truthy preprocess (set_cache s1 e1) true
              records_2 (set_cache s1 e1) s2 ∅ e2)
    as (Hs2 & He2 & _ & Hall2); [| |done|].
  { apply agrees_refl. }
  { intros c t v Hv. by rewrite lookup_empty in Hv. }
  destruct Hs1 as (Hf1 & Ht1 & Hi1 & _ & _).
  destruct Hs2 as (Hf2 & Ht2 & Hi2 & Hsup2 & _).
  simpl in Hf2, Ht2, Hi2, Hsup2.
  split; [done|]. split.
  - intros r Hr. destruct (Hall1 r Hr) as (c & v & Hc & Hv).
    destruct (He1 c false v Hv) as [_ Hans].
    rewrite (Hans r Hc).
    unfold __call__ at 1. simpl. rewrite Hf2, Hf1, Hc.
    destruct (truthy c) eqn:Htr.
    + rewrite lookup_union_r.
      * by rewrite (Hsup2 (c, false) v Hv).
      * destruct (e2 !! (c, false)) as [v'|] eqn:Hv'; [|done].
        by destruct (He2 c false v' Hv') as [? _].
    + specialize (Hans r Hc). unfold __call__ in Hans.
      rewrite Hc, Htr in Hans. simpl in Hans. by rewrite <- Hans.
  - intros r Hr. destruct (Hall2 r Hr) as (c & v & Hc & Hv).
    simpl in Hc.
    destruct (He2 c true v Hv) as [_ Hans]. specialize (Hans r Hc).
    assert (Hfresh : (__call__ truthy preprocess (set_cache s1 e1) r true).2
                     = (__call__ truthy preprocess (set_cache self ∅) r true).2).
    { unfold __call__. simpl. rewrite Hf1. rewrite Hf1 in Hc. rewrite Hc.
      destruct (truthy c); [|done]. rewrite lookup_empty.
      assert (Hmiss : e1 !! (c, true) = None).
      { destruct (e1 !! (c, true)) as [v'|] eqn:Hv'; [|done].
        by destruct (He1 c true v' Hv') as [? _]. }
      rewrite Hmiss, Hi1.
      destruct (index self) as [idx|]; [|done].
      unfold centers. simpl.
      by destruct (from_option KeyError _). }
    rewrite <- Hfresh, Hans.
    unfold __call__ at 1. simpl. rewrite Hf2. simpl. rewrite Hc.
    destruct (truthy c) eqn:Htr.
    + by rewrite (lookup_union_Some_l _ _ _ _ Hv).
    + unfold __call__ in Hans. simpl in Hans. rewrite Hc, Htr in Hans.
      simpl in Hans. by rewrite <- Hans.
Qed.

Lemma search_freeze_spec_witness :
  ∃ self',
    freeze CanopyExamples.nonempty id SearchExamples.example_predicate
      SearchExamples.records_1 SearchExamples.records_2 = Ok self'
    ∧ index self' = None
    ∧ (∀ r, r ∈ SearchExamples.records_1 →
            __call__ CanopyExamples.nonempty id self' r false
            = (self', (__call__ CanopyExamples.nonempty id
                         SearchExamples.example_predicate r false).2))
    ∧ (∀ r, r ∈ SearchExamples.records_2 →
            __call__ CanopyExamples.nonempty id self' r true
            = (self', (__call__ CanopyExamples.nonempty id
                         (set_cache SearchExamples.example_predicate ∅)
                         r true).2)).
Proof.
  destruct (freeze CanopyExamples.nonempty id SearchExamples.example_predicate
              SearchExamples.records_1 SearchExamples.records_2)
    as [self'|e] eqn:Hfreeze.
  2:{ exfalso.
      assert (Hok : match
                      freeze CanopyExamples.nonempty id
                        SearchExamples.example_predicate
                        SearchExamples.records_1 SearchExamples.records_2
                    with Ok _ => true | Raise _ => false end = true)
        by (vm_compute; reflexivity).
      rewrite Hfreeze in Hok. discriminate Hok. }
  exists self'. split; [reflexivity|].
  exact (search_freeze_spec CanopyExamples.nonempty id
           SearchExamples.example_predicate self'
           SearchExamples.records_1 SearchExamples.records_2 Hfreeze).
Defined.

End SearchPredicateProps.
